(** * jsparagus [gen.py]: a shallow embedding of the parser generator

    The development follows [gen.py] function by function:
    the grammar model and its structural predicates, [check],
    [eliminate_left_recursion] (with its nested helpers [gensym],
    [quasisort_nts], [eliminate_left_calls] and
    [eliminate_immediate_left_recursion]), the FIRST/FOLLOW analysis
    ([start], [seq_start], [follow_sets]), [check_ambiguity] and
    [generate_parser].

    Modelling choices.
    - A Python [dict] keeps insertion order and [gen.py] iterates over it,
      so a grammar is an association list with first-match lookup; a real
      dict has no duplicate keys, which is the hypothesis [NoDup (keys g)]
      wherever a statement needs it.
    - Symbol names are [string]s; [str.islower] is modelled on ASCII
      letters.
    - Python exceptions are the [Raise] results; unbounded recursion
      (CPython's [RecursionError]) and unbounded loops are the [OutOfFuel]
      result of fuel-indexed functions.
    - Python [set]s are [gset]s.  The order in which CPython walks a set is
      unspecified; the model walks [elements], and no proof below uses more
      than membership in that enumeration. *)

From stdpp Require Import gmap strings list fin_maps sets relations pretty.

Open Scope string_scope.
Open Scope list_scope.
Open Scope nat_scope.

(* ================================================================== *)
(** ** Results of partial computations *)

Inductive value_error :=
| UndefinedNonterminal (sym : string)
| EmptyProduction (nt : string)
| HasCycle (nt : string)
| AmbiguousEmpty (nt : string)
| UnsupportedStart (nt tok : string)
| UnsupportedFollow (tok nt : string)
| AmbiguousTokens (toks : gset string).

Inductive exn :=
| ValueError (e : value_error)
| KeyError (k : string)
| TypeError
| AssertionError
| IndexError.

Inductive result (A : Type) :=
| Ok (a : A)
| Raise (e : exn)
| OutOfFuel.
Arguments Ok {A} a.
Arguments Raise {A} e.
Arguments OutOfFuel {A}.

Definition result_bind {A B} (f : A → result B) (m : result A) : result B :=
  match m with
  | Ok a => f a
  | Raise e => Raise e
  | OutOfFuel => OutOfFuel
  end.

#[global] Instance result_mbind : MBind result := @result_bind.
#[global] Instance result_mret : MRet result := @Ok.

Definition raises {A} (m : result A) : Prop := ∃ e, m = Raise e.
Definition returns {A} (m : result A) : Prop := ∃ a, m = Ok a.

(** Sequential [for x in l: acc = body(x, acc)] with early exit on a raise. *)
Fixpoint for_each {A S} (body : A → S → result S) (l : list A) (s : S)
  : result S :=
  match l with
  | [] => Ok s
  | x :: l' =>
      match body x s with
      | Ok s' => for_each body l' s'
      | Raise e => Raise e
      | OutOfFuel => OutOfFuel
      end
  end.

Fixpoint map_result {A B} (f : A → result B) (l : list A) : result (list B) :=
  match l with
  | [] => Ok []
  | x :: l' =>
      match f x with
      | Ok y =>
          match map_result f l' with
          | Ok ys => Ok (y :: ys)
          | Raise e => Raise e
          | OutOfFuel => OutOfFuel
          end
      | Raise e => Raise e
      | OutOfFuel => OutOfFuel
      end
  end.

(* ================================================================== *)
(** ** The grammar model *)

(** [Reduction = namedtuple("Reduction", "tag_name tag_index arg_count")];
    every other symbol is a [str]. *)
Inductive symbol :=
| Str (s : string)
| Reduction (tag_name : string) (tag_index : nat) (arg_count : nat).

#[global] Instance symbol_eq_dec : EqDecision symbol.
Proof. solve_decision. Defined.

Abbreviation production := (list symbol).
Abbreviation grammar := (list (string * list production)).

Definition islower (c : Ascii.ascii) : bool :=
  let n := Ascii.nat_of_ascii c in ((97 <=? n) && (n <=? 122))%nat.

(** [element[:1].islower()] on a [str]. *)
Definition str_is_nt (s : string) : bool :=
  match s with
  | EmptyString => false
  | String c _ => islower c
  end.

Definition is_nt (element : symbol) : bool :=
  match element with
  | Str s => str_is_nt s
  | Reduction _ _ _ => false
  end.

Definition is_terminal (element : symbol) : bool :=
  match element with
  | Str s => negb (str_is_nt s)
  | Reduction _ _ _ => false
  end.

Definition is_reduction (element : symbol) : bool :=
  match element with
  | Str _ => false
  | Reduction _ _ _ => true
  end.

(** Dictionary operations on the association list. *)
Definition keys (g : grammar) : list string := g.*1.

Fixpoint g_lookup (g : grammar) (nt : string) : option (list production) :=
  match g with
  | [] => None
  | (k, v) :: g' => if decide (k = nt) then Some v else g_lookup g' nt
  end.

(** [nt in grammar] *)
Definition g_mem (nt : string) (g : grammar) : bool :=
  match g_lookup g nt with Some _ => true | None => false end.

(** [grammar[nt]] as an expression: [KeyError] when absent. *)
Definition g_get (g : grammar) (nt : string) : result (list production) :=
  match g_lookup g nt with
  | Some v => Ok v
  | None => Raise (KeyError nt)
  end.

(** [grammar[nt] = v]: in place for an existing key, appended otherwise. *)
Fixpoint g_set (g : grammar) (nt : string) (v : list production) : grammar :=
  match g with
  | [] => [(nt, v)]
  | (k, w) :: g' =>
      if decide (k = nt) then (k, v) :: g' else (k, w) :: g_set g' nt v
  end.

(* ================================================================== *)
(** ** [check] *)

(** [[symbol for symbol in prod if not is_reduction(symbol)]] *)
Definition strip (prod : production) : production :=
  List.filter (λ symbol, negb (is_reduction symbol)) prod.

(** The first inner loop of [check_nt]: every nonterminal of the
    production is defined. *)
Fixpoint check_defined (g : grammar) (prod : production) : result unit :=
  match prod with
  | [] => Ok tt
  | symbol :: rest =>
      match symbol with
      | Str s =>
          if str_is_nt s && negb (g_mem s g)
          then Raise (ValueError (UndefinedNonterminal s))
          else check_defined g rest
      | Reduction _ _ _ => check_defined g rest
      end
  end.

Abbreviation status_map := (gmap string bool).

(** The body of [for prod in prods] in [check_nt]; [rec] is the recursive
    call [check_nt]. *)
Definition check_prod (rec : status_map → string → result status_map)
    (g : grammar) (nt : string) (prod : production) (status : status_map)
  : result status_map :=
  match check_defined g prod with
  | Ok _ =>
      match strip prod with
      | [] => Raise (ValueError (EmptyProduction nt))
      | [Str s] => if str_is_nt s then rec status s else Ok status
      | _ => Ok status
      end
  | Raise e => Raise e
  | OutOfFuel => OutOfFuel
  end.

Fixpoint check_nt (fuel : nat) (g : grammar) (status : status_map)
    (nt : string) : result status_map :=
  match fuel with
  | 0 => OutOfFuel
  | S fuel' =>
      match status !! nt with
      | Some true => Ok status
      | Some false => Raise (ValueError (HasCycle nt))
      | None =>
          let status := <[nt := false]> status in
          match g_lookup g nt with
          | None => Raise (KeyError nt)
          | Some prods =>
              match for_each (check_prod (check_nt fuel' g) g nt) prods status with
              | Ok status => Ok (<[nt := true]> status)
              | Raise e => Raise e
              | OutOfFuel => OutOfFuel
              end
          end
      end
  end.

(** [check(grammar)].  The recursion of [check_nt] only descends into
    nonterminals that have no status yet, so its depth never exceeds the
    number of keys; [check_cases] shows that the fuel given here is never
    exhausted. *)
Definition check (g : grammar) : result unit :=
  match for_each (λ nt status, check_nt (S (length g)) g status nt) (keys g) ∅ with
  | Ok _ => Ok tt
  | Raise e => Raise e
  | OutOfFuel => OutOfFuel
  end.

(** The three rules of the docstring of [check], stated on the grammar. *)
Definition rule1_violated (g : grammar) : Prop :=
  ∃ nt prods prod s,
    g_lookup g nt = Some prods ∧ prod ∈ prods ∧ Str s ∈ prod ∧
    str_is_nt s = true ∧ g_lookup g s = None.

(** [unit_step g a b]: [a] has a production that, once reductions are
    stripped, is the single nonterminal [b]. *)
Definition unit_step (g : grammar) (a b : string) : Prop :=
  ∃ prods prod,
    g_lookup g a = Some prods ∧ prod ∈ prods ∧
    strip prod = [Str b] ∧ str_is_nt b = true.

Definition rule2_violated (g : grammar) : Prop :=
  ∃ q, tc (unit_step g) q q.

Definition rule3_violated (g : grammar) : Prop :=
  ∃ nt prods prod,
    g_lookup g nt = Some prods ∧ prod ∈ prods ∧ strip prod = [].

Definition violates_rules (g : grammar) : Prop :=
  rule1_violated g ∨ rule2_violated g ∨ rule3_violated g.

(* ================================================================== *)
(** ** [eliminate_left_recursion] *)

(** [while nt in grammar: nt += "_"].  Each turn of the loop leaves behind
    a key that is shorter than the next candidate, so [length g] turns are
    enough ([gensym_total]). *)
Fixpoint gensym_loop (fuel : nat) (g : grammar) (nt : string) : result string :=
  if g_mem nt g then
    match fuel with
    | 0 => OutOfFuel
    | S fuel' => gensym_loop fuel' g (nt +:+ "_")
    end
  else Ok nt.

Definition gensym (g : grammar) (nt : string) : result string :=
  if str_is_nt nt then gensym_loop (length g) g nt else Raise AssertionError.

(** The loop over [grammar[nt]] inside [visit]; the state is [(out, stack)]. *)
Definition visit_rule (rec : string → list string * list string →
                             result (list string * list string))
    (r : production) (st : list string * list string)
  : result (list string * list string) :=
  match r with
  | Str s :: _ =>
      if str_is_nt s
      then if bool_decide (s ∈ st.2) then Ok st else rec s st
      else Ok st
  | _ => Ok st
  end.

Fixpoint visit (fuel : nat) (g : grammar) (nt : string)
    (st : list string * list string) : result (list string * list string) :=
  match fuel with
  | 0 => OutOfFuel
  | S fuel' =>
      if bool_decide (nt ∈ st.1) then Ok st
      else
        let st := (st.1, st.2 ++ [nt]) in
        match g_lookup g nt with
        | None => Raise (KeyError nt)
        | Some prods =>
            match for_each (visit_rule (visit fuel' g)) prods st with
            | Ok st => Ok (st.1 ++ [nt], removelast st.2)
            | Raise e => Raise e
            | OutOfFuel => OutOfFuel
            end
        end
  end.

(** [quasisort_nts()].  [sorted(grammar) == sorted(out)] compares the two
    lists up to order.  The names on [stack] are pairwise distinct, which
    bounds the depth of [visit] by the number of keys. *)
Definition quasisort_nts (g : grammar) : result (list string) :=
  match for_each (visit (S (length g)) g) (keys g) ([], []) with
  | Ok (out, _) =>
      if bool_decide (keys g ≡ₚ out) then Ok (reverse out)
      else Raise AssertionError
  | Raise e => Raise e
  | OutOfFuel => OutOfFuel
  end.

(** [r[:1] == [nt]] *)
Definition starts_with (nt : string) (r : production) : bool :=
  match r with
  | Str s :: _ => bool_decide (s = nt)
  | _ => false
  end.

Definition eliminate_left_calls (g : grammar) (from_nt to_nt : string)
  : result grammar :=
  from_rules ← g_get g from_nt;
  to_rules ← g_get g to_nt;
  Ok (g_set g from_nt
        (List.filter (λ r, negb (starts_with to_nt r)) from_rules ++
         flat_map (λ c, map (λ a, c ++ tail a)
                            (List.filter (starts_with to_nt) from_rules))
                  to_rules)).

Definition eliminate_immediate_left_recursion (g : grammar) (nt : string)
  : result grammar :=
  rules ← g_get g nt;
  if existsb (starts_with nt) rules then
    epilogue ← gensym g nt;
    let g1 :=
      g_set g epilogue
        ([] :: map (λ r, tail r ++ [Str epilogue])
                   (List.filter (starts_with nt) rules)) in
    Ok (g_set g1 nt
          (map (λ r, r ++ [Str epilogue])
               (List.filter (λ r, negb (starts_with nt r)) rules)))
  else Ok g.

(** The grammar is mutated in place, so a raise leaves the dictionary as
    the steps before it made it: the loops return the grammar reached
    together with the outcome. *)
Definition and_then (g : grammar) (r : result grammar)
    (k : grammar → grammar * result unit) : grammar * result unit :=
  match r with
  | Ok g' => k g'
  | Raise e => (g, Raise e)
  | OutOfFuel => (g, OutOfFuel)
  end.

(** [for j, jname in enumerate(ntnames[:i]): eliminate_left_calls(iname, jname)] *)
Fixpoint left_calls_loop (g : grammar) (iname : string) (earlier : list string)
  : grammar * result unit :=
  match earlier with
  | [] => (g, Ok tt)
  | jname :: rest =>
      and_then g (eliminate_left_calls g iname jname)
               (λ g', left_calls_loop g' iname rest)
  end.

(** [for i, iname in enumerate(ntnames): ...]; [earlier] is [ntnames[:i]]. *)
Fixpoint eliminate_loop (g : grammar) (earlier todo : list string)
  : grammar * result unit :=
  match todo with
  | [] => (g, Ok tt)
  | iname :: rest =>
      match left_calls_loop g iname earlier with
      | (g1, Ok _) =>
          and_then g1 (eliminate_immediate_left_recursion g1 iname)
                   (λ g2, eliminate_loop g2 (earlier ++ [iname]) rest)
      | (g1, r) => (g1, r)
      end
  end.

Definition eliminate_left_recursion (g : grammar) : grammar * result unit :=
  match quasisort_nts g with
  | Ok ntnames => eliminate_loop g [] ntnames
  | Raise e => (g, Raise e)
  | OutOfFuel => (g, OutOfFuel)
  end.

(** A production of [a] whose first symbol is the string [b]. *)
Definition left_call (g : grammar) (a b : string) : Prop :=
  ∃ prods rest, g_lookup g a = Some prods ∧ (Str b :: rest) ∈ prods.

(* ================================================================== *)
(** ** [start], [seq_start] *)

Definition EMPTY : string := "(empty)".
Definition END : string := "($)".

Abbreviation strset := (gset string).

(** The loop of [seq_start] from an accumulated set [s]; [st] computes
    the start set of one symbol. *)
Fixpoint seq_loop (st : symbol → result strset) (s : strset) (seq : production)
  : result strset :=
  match seq with
  | [] => Ok s
  | symbol :: rest =>
      if bool_decide (EMPTY ∈ s) then
        match st symbol with
        | Ok s' => seq_loop st ((s ∖ {[EMPTY]}) ∪ s') rest
        | Raise e => Raise e
        | OutOfFuel => OutOfFuel
        end
      else Ok s
  end.

(** [set.union] applied to the unpacked list of sets: a [TypeError] when
    the list is empty. *)
Definition set_union_star (sets : list strset) : result strset :=
  match sets with
  | [] => Raise TypeError
  | s :: rest => Ok (s ∪ ⋃ rest)
  end.

(** [start(grammar, symbol)]; the fuel bounds the nesting of calls on
    nonterminals. *)
Fixpoint start (fuel : nat) (g : grammar) (symbol : symbol) : result strset :=
  match symbol with
  | Reduction _ _ _ => Ok {[EMPTY]}
  | Str s =>
      if str_is_nt s then
        match fuel with
        | 0 => OutOfFuel
        | S fuel' =>
            prods ← g_get g s;
            sets ← map_result (seq_loop (start fuel' g) {[EMPTY]}) prods;
            set_union_star sets
        end
      else Ok {[s]}
  end.

Definition seq_start (fuel : nat) (g : grammar) (seq : production)
  : result strset :=
  seq_loop (start fuel g) {[EMPTY]} seq.

(** The value Python computes, when it computes one: the result at some
    fuel (by [start_fuel_mono] it does not depend on which). *)
Definition start_is (g : grammar) (symbol : symbol) (s : strset) : Prop :=
  ∃ fuel, start fuel g symbol = Ok s.

Definition seq_start_is (g : grammar) (seq : production) (s : strset) : Prop :=
  ∃ fuel, seq_start fuel g seq = Ok s.

(** The recursion of [start] comes to an end: with a set, or with an
    exception other than the recursion limit. *)
Definition start_terminates (g : grammar) (symbol : symbol) : Prop :=
  ∃ fuel, start fuel g symbol ≠ OutOfFuel.

(* ================================================================== *)
(** ** [follow_sets] *)

Record follow_state := FollowState {
  visited : strset;
  follow : gmap string strset;
  subsumes_relation : gset (string * string)
}.

(** [follow[k]] on the [defaultdict(set)]: the entry, created empty when
    missing. *)
Definition dd_get (follow : gmap string strset) (k : string) : strset :=
  default ∅ (follow !! k).

Definition dd_touch (follow : gmap string strset) (k : string)
  : gmap string strset :=
  match follow !! k with
  | Some _ => follow
  | None => <[k := ∅]> follow
  end.

(** [follow[k] |= s] *)
Definition dd_union (follow : gmap string strset) (k : string) (s : strset)
  : gmap string strset :=
  <[k := dd_get follow k ∪ s]> follow.

(** [for i, symbol in enumerate(prod)]: the loop runs over the suffixes of
    the production, [rest] being [prod[i + 1:]]. *)
Fixpoint follow_prod (rec : string → follow_state → result follow_state)
    (fuel : nat) (g : grammar) (nt : string) (prod : production)
    (st : follow_state) : result follow_state :=
  match prod with
  | [] => Ok st
  | symbol :: rest =>
      match symbol with
      | Str s =>
          if str_is_nt s then
            match rec s st with
            | Ok st =>
                match seq_start fuel g rest with
                | Ok after =>
                    let st' :=
                      if bool_decide (EMPTY ∈ after) then
                        FollowState (visited st)
                          (dd_union (follow st) s (after ∖ {[EMPTY]}))
                          ({[(s, nt)]} ∪ subsumes_relation st)
                      else
                        FollowState (visited st)
                          (dd_union (follow st) s after)
                          (subsumes_relation st) in
                    follow_prod rec fuel g nt rest st'
                | Raise e => Raise e
                | OutOfFuel => OutOfFuel
                end
            | Raise e => Raise e
            | OutOfFuel => OutOfFuel
            end
          else follow_prod rec fuel g nt rest st
      | Reduction _ _ _ => follow_prod rec fuel g nt rest st
      end
  end.

Fixpoint follow_visit (depth : nat) (fuel : nat) (g : grammar) (nt : string)
    (st : follow_state) : result follow_state :=
  match depth with
  | 0 => OutOfFuel
  | S depth' =>
      if bool_decide (nt ∈ visited st) then Ok st
      else
        let st := FollowState ({[nt]} ∪ visited st) (follow st)
                              (subsumes_relation st) in
        match g_lookup g nt with
        | None => Raise (KeyError nt)
        | Some prods =>
            for_each (follow_prod (follow_visit depth' fuel g) fuel g nt) prods st
        end
  end.

(** One turn of [for target, source in subsumes_relation]; the boolean is
    [done]. *)
Definition subsume_step (pair : string * string)
    (acc : gmap string strset * bool) : gmap string strset * bool :=
  let '(target, source) := pair in
  let fl := dd_touch (dd_touch acc.1 source) target in
  if bool_decide (dd_get fl source ∖ dd_get fl target = ∅)
  then (fl, acc.2)
  else (dd_union fl target (dd_get fl source), false).

Definition subsume_pass (pairs : list (string * string))
    (fl : gmap string strset) : gmap string strset * bool :=
  foldl (λ acc pair, subsume_step pair acc) (fl, true) pairs.

(** [while not done: ...] *)
Fixpoint subsume_fix (fuel : nat) (pairs : list (string * string))
    (fl : gmap string strset) : result (gmap string strset) :=
  match fuel with
  | 0 => OutOfFuel
  | S fuel' =>
      let '(fl', done) := subsume_pass pairs fl in
      if done then Ok fl' else subsume_fix fuel' pairs fl'
  end.

(** [follow_sets(grammar, goal)]; one fuel bounds the depth of [visit],
    the depth of [start] and the number of turns of the final loop. *)
Definition follow_sets (fuel : nat) (g : grammar) (goal : string)
  : result (gmap string strset) :=
  let st0 := FollowState ∅ (dd_union ∅ goal {[END]}) ∅ in
  match follow_visit fuel fuel g goal st0 with
  | Ok st => subsume_fix fuel (elements (subsumes_relation st)) (follow st)
  | Raise e => Raise e
  | OutOfFuel => OutOfFuel
  end.

(* ================================================================== *)
(** ** [check_ambiguity] *)

(** [list(conflicts)[0]] *)
Definition first_of (s : strset) : result string :=
  match elements s with
  | [] => Raise IndexError
  | x :: _ => Ok x
  end.

(** [for prod in prods] with the running union [start]. *)
Fixpoint ambiguity_prods (fuel : nat) (g : grammar) (nt : string)
    (prods : list production) (start_acc : strset) : result strset :=
  match prods with
  | [] => Ok start_acc
  | prod :: rest =>
      match seq_start fuel g prod with
      | Ok prod_start =>
          let conflicts := prod_start ∩ start_acc in
          if bool_decide (conflicts = ∅) then
            ambiguity_prods fuel g nt rest (start_acc ∪ prod_start)
          else if bool_decide (conflicts = {[EMPTY]}) then
            Raise (ValueError (AmbiguousEmpty nt))
          else
            match first_of (conflicts ∖ {[EMPTY]}) with
            | Ok tok => Raise (ValueError (UnsupportedStart nt tok))
            | Raise e => Raise e
            | OutOfFuel => OutOfFuel
            end
      | Raise e => Raise e
      | OutOfFuel => OutOfFuel
      end
  end.

Definition ambiguity_nt (fuel : nat) (g : grammar)
    (fl : gmap string strset) (entry : string * list production)
  : result unit :=
  let '(nt, prods) := entry in
  match ambiguity_prods fuel g nt prods ∅ with
  | Ok start_acc =>
      if bool_decide (EMPTY ∈ start_acc) then
        let conflicts := start_acc ∩ dd_get fl nt in
        if bool_decide (conflicts = ∅) then Ok tt
        else
          match first_of conflicts with
          | Ok tok => Raise (ValueError (UnsupportedFollow tok nt))
          | Raise e => Raise e
          | OutOfFuel => OutOfFuel
          end
      else Ok tt
  | Raise e => Raise e
  | OutOfFuel => OutOfFuel
  end.

Definition check_ambiguity (fuel : nat) (g : grammar) (goal : string)
  : result unit :=
  match follow_sets fuel g goal with
  | Ok fl =>
      match for_each (λ entry _, ambiguity_nt fuel g fl entry) g tt with
      | Ok _ => Ok tt
      | Raise e => Raise e
      | OutOfFuel => OutOfFuel
      end
  | Raise e => Raise e
  | OutOfFuel => OutOfFuel
  end.

(* ================================================================== *)
(** ** [generate_parser] *)

(** The dictionary comprehension at the head of [generate_parser]: every
    production gets [Reduction(nt, i, len(prod))] appended. *)
Definition augment (g : grammar) : grammar :=
  map (λ entry : string * list production,
         (entry.1,
          imap (λ i prod, prod ++ [Reduction entry.1 i (length prod)]) entry.2))
      g.

Definition newline : string := String (Ascii.ascii_of_nat 10) "".
Definition double_quote : Ascii.ascii := Ascii.ascii_of_nat 34.
Definition single_quote : Ascii.ascii := Ascii.ascii_of_nat 39.
Definition backslash : Ascii.ascii := Ascii.ascii_of_nat 92.

Fixpoint str_contains (c : Ascii.ascii) (s : string) : bool :=
  match s with
  | EmptyString => false
  | String d s' => Ascii.eqb c d || str_contains c s'
  end.

Definition hex_digit (n : nat) : string :=
  String (Ascii.ascii_of_nat (if n <? 10 then 48 + n else 87 + n)) "".

(** [repr] of a [str] of ASCII characters. *)
Fixpoint repr_body (quote : Ascii.ascii) (s : string) : string :=
  match s with
  | EmptyString => ""
  | String c s' =>
      let n := Ascii.nat_of_ascii c in
      (if Ascii.eqb c backslash then String backslash (String backslash "")
       else if Ascii.eqb c quote then String backslash (String quote "")
       else if n =? 10 then String backslash "n"
       else if n =? 13 then String backslash "r"
       else if n =? 9 then String backslash "t"
       else if (n <? 32) || (n =? 127)
            then String backslash "x" +:+ hex_digit (n / 16) +:+ hex_digit (n mod 16)
       else String c "") +:+ repr_body quote s'
  end.

Definition py_repr (s : string) : string :=
  let quote :=
    if str_contains single_quote s && negb (str_contains double_quote s)
    then double_quote else single_quote in
  String quote "" +:+ repr_body quote s +:+ String quote "".

(** [repr] of a tuple of strings. *)
Definition py_repr_tuple (xs : list string) : string :=
  match xs with
  | [] => "()"
  | [x] => "(" +:+ py_repr x +:+ ",)"
  | x :: rest =>
      "(" +:+ foldl (λ acc y, acc +:+ ", " +:+ py_repr y) (py_repr x) rest +:+ ")"
  end.

(** The three [write] branches of [for element in rule]. *)
Definition emit_element (element : symbol) : list string :=
  match element with
  | Str s =>
      if negb (str_is_nt s)
      then ["        stack.append(src.take(" +:+ py_repr s +:+ "))" +:+ newline]
      else ["        parse_" +:+ s +:+ "(src, stack)" +:+ newline]
  | Reduction tag_name tag_index arg_count =>
      ["        args = stack[-" +:+ pretty arg_count +:+ ":]" +:+ newline;
       "        del stack[-" +:+ pretty arg_count +:+ ":]" +:+ newline;
       "        stack.append((" +:+ py_repr tag_name +:+ ", " +:+
         pretty tag_index +:+ ", args))" +:+ newline]
  end.

Record rules_state := RulesState {
  seen : strset;
  empty_production : option nat;
  if_keyword : string
}.

(** [for i, rule in enumerate(rules)]; [out] collects the strings written
    so far, which stay written when the loop raises. *)
Fixpoint emit_rules (fuel : nat) (g : grammar) (i : nat)
    (rules : list production) (st : rules_state) (out : list string)
  : list string * result rules_state :=
  match rules with
  | [] => (out, Ok st)
  | rule :: rest =>
      match seq_start fuel g rule with
      | Ok start_set =>
          if bool_decide (start_set ∩ seen st = ∅) then
            let seen' := seen st ∪ start_set in
            if bool_decide (seen' = {[EMPTY]}) then
              match empty_production st with
              | Some _ => (out, Raise AssertionError)
              | None =>
                  emit_rules fuel g (S i) rest
                    (RulesState seen' (Some i) (if_keyword st)) out
              end
            else
              let match_expr :=
                match elements start_set with
                | [x] => "token == " +:+ py_repr x
                | xs => "token in " +:+ py_repr_tuple xs
                end in
              emit_rules fuel g (S i) rest
                (RulesState seen' (empty_production st) "elif")
                (out ++ ["    " +:+ if_keyword st +:+ " " +:+ match_expr +:+ ":"
                           +:+ newline]
                     ++ flat_map emit_element rule)
          else (out, Raise (ValueError (AmbiguousTokens (start_set ∩ seen st))))
      | Raise e => (out, Raise e)
      | OutOfFuel => (out, OutOfFuel)
      end
  end.

(** [for nt, rules in grammar.items()] *)
Fixpoint emit_nts (fuel : nat) (g : grammar) (entries : grammar)
    (out : list string) : list string * result unit :=
  match entries with
  | [] => (out, Ok tt)
  | (nt, rules) :: rest =>
      let out := out ++ ["def parse_" +:+ nt +:+ "(src, stack):" +:+ newline;
                         "    token = src.peek()" +:+ newline] in
      match emit_rules fuel g 0 rules (RulesState ∅ None "if") out with
      | (out, Ok st) =>
          let out :=
            match empty_production st with
            | None =>
                out ++ ["    else:" +:+ newline;
                        "        raise ValueError(" +:+
                          py_repr ("expected " +:+ nt +:+ ", got {!r}") +:+
                          ".format(token))" +:+ newline]
            | Some _ => out
            end in
          emit_nts fuel g rest (out ++ [newline])
      | (out, Raise e) => (out, Raise e)
      | (out, OutOfFuel) => (out, OutOfFuel)
      end
  end.

Definition emit_entry_point (goal : string) : list string :=
  ["def parse(src):" +:+ newline;
   "    stack = []" +:+ newline;
   "    parse_" +:+ goal +:+ "(src, stack)" +:+ newline;
   "    src.take(None)" +:+ newline;
   "    assert len(stack) == 1" +:+ newline;
   "    return stack[0]" +:+ newline].

(** Everything [generate_parser] does once the local name [grammar] is
    bound to its working dictionary: the final state of that dictionary,
    what was written to [out], and the outcome. *)
Definition pipeline (fuel : nat) (g : grammar) (out : list string)
    (goal : string) : grammar * list string * result unit :=
  match check g with
  | Ok _ =>
      match eliminate_left_recursion g with
      | (g', Ok _) =>
          match check_ambiguity fuel g' goal with
          | Ok _ =>
              match emit_nts fuel g' g' out with
              | (out, Ok _) => (g', out ++ emit_entry_point goal, Ok tt)
              | (out, r) => (g', out, r)
              end
          | Raise e => (g', out, Raise e)
          | OutOfFuel => (g', out, OutOfFuel)
          end
      | (g', r) => (g', out, r)
      end
  | Raise e => (g, out, Raise e)
  | OutOfFuel => (g, out, OutOfFuel)
  end.

(** Dictionaries are objects on a heap; [grammar_ref] is the caller's
    dictionary.  The lists held by a dictionary are kept as values: no
    statement of [gen.py] updates a production or a list of productions
    in place, they are only ever rebuilt and stored with
    [grammar[k] = ...].  [generate_parser_store] below runs the same
    statements on a store in which the lists are objects as well. *)
Abbreviation loc := nat.
Abbreviation heap := (gmap loc grammar).

Definition generate_parser (fuel : nat) (h : heap) (out : list string)
    (grammar_ref : loc) (goal : string) : heap * list string * result unit :=
  match h !! grammar_ref with
  | None => (h, out, Raise TypeError)
  | Some user_grammar =>
      (* [grammar = {...}] allocates a new dictionary and rebinds the
         local name to it *)
      let working := fresh (dom h) in
      let '(g', out', r) := pipeline fuel (augment user_grammar) out goal in
      (<[working := g']> h, out', r)
  end.

(* ================================================================== *)
(** ** Statements and invariants *)

(** A grammar as [gen.py] documents it: a dictionary (no key twice) from
    names of nonterminals to lists of productions. *)
Definition wf_grammar (g : grammar) : Prop :=
  NoDup (keys g) ∧ Forall (λ k, str_is_nt k = true) (keys g).

(** *** [check]: the invariant of the [status] dictionary *)

Definition key_set (g : grammar) : gset string := list_to_set (keys g).

(** Rules 1 and 3 at one nonterminal. *)
Definition fine (g : grammar) (a : string) : Prop :=
  ∀ prods prod, g_lookup g a = Some prods → prod ∈ prods →
    (∀ s, Str s ∈ prod → str_is_nt s = true → s ∈ keys g) ∧ strip prod ≠ [].

(** A nonterminal marked [True] obeys rules 1 and 3, its unit steps lead
    to nonterminals marked [True], and it is on no cycle. *)
Definition status_inv (g : grammar) (st : status_map) : Prop :=
  (∀ a, is_Some (st !! a) → a ∈ keys g) ∧
  (∀ a, st !! a = Some true →
        fine g a ∧ (∀ b, unit_step g a b → st !! b = Some true) ∧
        ¬ tc (unit_step g) a a).

(** What a call [check_nt(b)] started on [st] gives. *)
Definition check_post (g : grammar) (st : status_map) (b : string)
    (r : result status_map) : Prop :=
  match r with
  | Ok st' =>
      status_inv g st' ∧ st' !! b = Some true ∧ st ⊆ st' ∧
      (∀ a, st' !! a = Some false → st !! a = Some false)
  | Raise e => violates_rules g
  | OutOfFuel => False
  end.

(** The nonterminals marked [False] are the ones being examined: each of
    them reaches the nonterminal that is visited next. *)
Definition rec_spec (g : grammar)
    (rec : status_map → string → result status_map)
    (st0 : status_map) : Prop :=
  ∀ st b, b ∈ keys g → status_inv g st → st0 ⊆ st →
    (∀ a, st !! a = Some false → tc (unit_step g) a b) →
    check_post g st b (rec st b).

Definition prod_ok (g : grammar) (st : status_map) (prod : production) : Prop :=
  (∀ s, Str s ∈ prod → str_is_nt s = true → s ∈ keys g) ∧
  strip prod ≠ [] ∧
  (∀ b, strip prod = [Str b] → str_is_nt b = true → st !! b = Some true).

(** *** [start], [seq_start] *)

(** [r'] is what [r] becomes with more fuel. *)
Definition refines {A} (r r' : result A) : Prop := r ≠ OutOfFuel → r' = r.

Definition add_to (a : strset) (r : result strset) : result strset :=
  match r with
  | Ok s => Ok (a ∪ s)
  | Raise e => Raise e
  | OutOfFuel => OutOfFuel
  end.

(** A start set that is computed and cannot vanish. *)
Definition solid (r : result strset) : Prop :=
  r ≠ OutOfFuel ∧ ∀ s, r = Ok s → EMPTY ∉ s.

(** *** [follow_sets] *)

(** Members of FIRST and FOLLOW sets are never names of nonterminals. *)
Definition no_nt (s : strset) : Prop := ∀ x, x ∈ s → str_is_nt x = false.

Definition follow_inv (goal : string) (fl : gmap string strset) : Prop :=
  (∀ k s, fl !! k = Some s → (EMPTY ∉ s) ∧ no_nt s) ∧
  (∃ s, fl !! goal = Some s ∧ END ∈ s).

(** *** [check_ambiguity] *)

Definition is_ok {A} (r : result A) : bool :=
  match r with Ok _ => true | _ => false end.

(** The FIRST set of every production of the grammar is computed. *)
Definition firsts_known (fuel : nat) (g : grammar) : Prop :=
  forallb (λ entry : string * list production,
             forallb (λ prod, is_ok (seq_start fuel g prod)) entry.2) g = true.

Definition first_set (fuel : nat) (g : grammar) (prod : production) : strset :=
  match seq_start fuel g prod with
  | Ok s => s
  | _ => ∅
  end.

(** The running union of the FIRST sets of the productions walked so far. *)
Definition running (fuel : nat) (g : grammar) (pre : list production) : strset :=
  ⋃ (first_set fuel g <$> pre).

(** What a production shares with the productions declared before it. *)
Definition clash (fuel : nat) (g : grammar) (pre : list production)
    (prod : production) : strset :=
  first_set fuel g prod ∩ running fuel g pre.

Definition prods_clean (fuel : nat) (g : grammar) (prods : list production) : Prop :=
  ∀ pre prod post, prods = pre ++ prod :: post → clash fuel g pre prod = ∅.

(** What the overall FIRST set of an empty-capable nonterminal shares with
    its FOLLOW set. *)
Definition follow_clash (fuel : nat) (g : grammar) (fl : gmap string strset)
    (nt : string) (prods : list production) : strset :=
  if bool_decide (EMPTY ∈ running fuel g prods)
  then running fuel g prods ∩ dd_get fl nt
  else ∅.

Definition entry_clean (fuel : nat) (g : grammar) (fl : gmap string strset)
    (entry : string * list production) : Prop :=
  prods_clean fuel g entry.2 ∧ follow_clash fuel g fl entry.1 entry.2 = ∅.

(** The three ways [check_ambiguity] fails on the entry [(nt, prods)]:
    the first production that shares something with the ones before it
    shares exactly [EMPTY], or shares a token; or no production does and
    the overall FIRST set, which has [EMPTY], meets the FOLLOW set. *)
Definition ambiguity_failure (fuel : nat) (g : grammar)
    (fl : gmap string strset) (nt : string) (prods : list production)
    (e : exn) : Prop :=
  (∃ pre prod post,
      prods = pre ++ prod :: post ∧ prods_clean fuel g pre ∧
      ((clash fuel g pre prod = {[EMPTY]} ∧
        e = ValueError (AmbiguousEmpty nt)) ∨
       (clash fuel g pre prod ≠ {[EMPTY]} ∧
        ∃ tok, tok ∈ clash fuel g pre prod ∧ tok ≠ EMPTY ∧
               e = ValueError (UnsupportedStart nt tok)))) ∨
  (prods_clean fuel g prods ∧ EMPTY ∈ running fuel g prods ∧
   ∃ tok, tok ∈ running fuel g prods ∩ dd_get fl nt ∧
          e = ValueError (UnsupportedFollow tok nt)).

(** *** [eliminate_left_recursion] *)

Fixpoint underscores (n : nat) : string :=
  match n with
  | 0 => ""
  | S n' => "_" +:+ underscores n'
  end.

(** The keys at least as long as the candidate of [gensym]: each turn of
    its loop loses one of them. *)
Definition long_keys (g : grammar) (nt : string) : list string :=
  filter (λ k, String.length nt ≤ String.length k) (keys g).

(** The keys of [g] are the keys [k0] followed by names that [gensym]
    returned, each for a grammar whose keys were the ones before it. *)
Definition grown (k0 : list string) (g : grammar) : Prop :=
  ∃ news, keys g = k0 ++ news ∧
    ∀ n1 k n2, news = n1 ++ k :: n2 →
      ∃ g_then nt, keys g_then = k0 ++ n1 ∧ gensym g_then nt = Ok k ∧
                   k ∉ keys g_then.

(** What a call [visit(nt)] of [quasisort_nts] does to [(out, stack)]:
    [stack] is as before, [out] has grown by names that were not on the
    stack. *)
Definition visit_grows (g : grammar) (stack : list string) (out : list string)
    (r : result (list string * list string)) (new : list string) : Prop :=
  r = Ok (out ++ new, stack) ∧ NoDup (out ++ new) ∧
  (∀ x, x ∈ new → (x ∉ stack) ∧ x ∈ keys g).

Definition visit_ok (g : grammar)
    (rec : string → list string * list string →
           result (list string * list string))
    (stack : list string) : Prop :=
  ∀ s out, s ∈ keys g → s ∉ stack → NoDup out →
    ∃ new, visit_grows g stack out (rec s (out, stack)) new ∧ s ∈ out ++ new.

(** The symbols that can only match a nonempty input, as far as names
    tell: terminals and the nonterminals of the input grammar (whose keys
    are [k0]).  Reductions and the epilogues made by [gensym] are left
    out. *)
Definition core_sym (k0 : list string) (x : symbol) : bool :=
  match x with
  | Str s => negb (str_is_nt s) || bool_decide (s ∈ k0)
  | Reduction _ _ _ => false
  end.

Definition core (k0 : list string) (r : production) : production :=
  List.filter (core_sym k0) r.

(** The state of the grammar between two turns of the main loop of
    [eliminate_left_recursion]: [g0] is the grammar at the call, [done]
    the names already processed ([ntnames[:i]]), [eps] the epilogues
    created so far, in order of creation.  [Pfirst] holds of the first
    symbol of the productions of [g0], [Psym] of all their symbols. *)
Record elim_inv (g0 : grammar) (Pfirst Psym : symbol → Prop)
    (done eps : list string) (g : grammar) : Prop := ElimInv {
  inv_keys : keys g = keys g0 ++ eps;
  inv_nodup : NoDup (keys g);
  inv_done : ∀ a, a ∈ done → a ∈ keys g0;
  inv_eps_nt : ∀ e, e ∈ eps → str_is_nt e = true;
  inv_defined : ∀ a prods r s,
    g_lookup g a = Some prods → r ∈ prods → Str s ∈ r →
    str_is_nt s = true → s ∈ keys g;
  inv_sym : ∀ a prods r x,
    g_lookup g a = Some prods → r ∈ prods → x ∈ r → Psym x;
  inv_first : ∀ a prods r,
    a ∈ keys g0 → g_lookup g a = Some prods → r ∈ prods →
    ∃ x rest, r = x :: rest ∧ Pfirst x ∧
              (∀ s, x = Str s → str_is_nt s = true → s ∈ keys g0);
  inv_core : ∀ a prods r,
    a ∈ keys g0 → g_lookup g a = Some prods → r ∈ prods →
    core (keys g0) r ≠ [] ∧
    (∀ b, core (keys g0) r = [Str b] → str_is_nt b = true →
          tc (unit_step g0) a b);
  inv_order : ∀ d1 a d2 prods r b,
    done = d1 ++ a :: d2 → g_lookup g a = Some prods → r ∈ prods →
    b ∈ d1 ++ [a] → starts_with b r = false;
  inv_epi : ∀ e1 e e2 prods r,
    eps = e1 ++ e :: e2 → g_lookup g e = Some prods → r ∈ prods →
    r = [] ∨
    ∃ alpha, r = alpha ++ [Str e] ∧ core (keys g0) alpha ≠ [] ∧
             (∀ s, Str s ∈ alpha → str_is_nt s = true → s ∈ keys g0 ++ e1)
}.

(** What the inner loop has reached after inlining the names of [ds]
    into [iname]. *)
Definition no_left_call (g : grammar) (iname : string) (ds : list string) : Prop :=
  ∀ prods r b, g_lookup g iname = Some prods → r ∈ prods → b ∈ ds →
               starts_with b r = false.

(** The place of a name in the order that the main loop induces on the
    final grammar: the names of [ntnames] from last to first, then the
    epilogues in order of creation. *)
Definition rank_is (ntnames eps : list string) (x : string) (n : nat) : Prop :=
  (∃ i, ntnames !! i = Some x ∧ n = length ntnames - 1 - i) ∨
  (∃ m, eps !! m = Some x ∧ n = length ntnames + m).

Definition leads_well (x : symbol) : Prop :=
  is_reduction x = false ∧ x ≠ Str EMPTY.

Definition not_sentinel (x : symbol) : Prop := x ≠ Str EMPTY.

(** No production begins with a reduction, and none holds the string of
    the [EMPTY] sentinel as a symbol. *)
Definition plain_production (r : production) : bool :=
  match r with
  | [] => true
  | x :: _ => negb (is_reduction x)
  end && negb (bool_decide (Str EMPTY ∈ r)).

Definition plain_grammar (g : grammar) : bool :=
  forallb (λ entry : string * list production,
             forallb plain_production entry.2) g.

(** *** Grammars used as examples *)

(** The grammar of [main]. *)
Definition expr_grammar : grammar :=
  [("expr", [[Str "term"];
             [Str "expr"; Str "+"; Str "term"];
             [Str "expr"; Str "-"; Str "term"]]);
   ("term", [[Str "prim"];
             [Str "term"; Str "*"; Str "prim"];
             [Str "term"; Str "/"; Str "prim"]]);
   ("prim", [[Str "NUM"]; [Str "VAR"]; [Str "("; Str "expr"; Str ")"]])].

(** A grammar without left recursion. *)
Definition demo_grammar : grammar :=
  [("e", [[Str "t"; Str "e_"]]);
   ("e_", [[]; [Str "+"; Str "t"; Str "e_"]]);
   ("t", [[Str "NUM"]; [Str "("; Str "e"; Str ")"]])].

(** A production that begins with a reduction and then calls its own
    nonterminal. *)
Definition leading_reduction_grammar : grammar :=
  [("a", [[Reduction "a" 0 0; Str "a"; Str "X"]])].

(** A nonterminal without any production. *)
Definition barren_grammar : grammar :=
  [("s", [[Str "a"; Str "Y"]]); ("a", [])].

(* ================================================================== *)
(** ** Further statements *)

(** What the exception of [check] says, read on the grammar. *)
Definition check_error_sound (g : grammar) (e : exn) : Prop :=
  match e with
  | ValueError (UndefinedNonterminal s) =>
      str_is_nt s = true ∧ g_lookup g s = None ∧
      ∃ nt prods prod, g_lookup g nt = Some prods ∧ prod ∈ prods ∧ Str s ∈ prod
  | ValueError (EmptyProduction nt) =>
      ∃ prods prod, g_lookup g nt = Some prods ∧ prod ∈ prods ∧ strip prod = []
  | ValueError (HasCycle nt) => tc (unit_step g) nt nt
  | _ => False
  end.

(** What a call [check_nt(b)] started on [st] gives, as far as the
    exception goes. *)
Definition check_raise_post (g : grammar) (st : status_map)
    (r : result status_map) : Prop :=
  match r with
  | Ok st' => st ⊆ st' ∧ (∀ a, st' !! a = Some false → st !! a = Some false)
  | Raise e => check_error_sound g e
  | OutOfFuel => True
  end.

(** [lead g a b]: a production of [a] begins with the nonterminal [b];
    these are the calls that [visit] of [quasisort_nts] follows. *)
Definition lead (g : grammar) (a b : string) : Prop :=
  ∃ prods rest,
    g_lookup g a = Some prods ∧ (Str b :: rest) ∈ prods ∧ str_is_nt b = true.

(** [a] comes before [b] in the list. *)
Definition comes_before (l : list string) (a b : string) : Prop :=
  ∃ i j, l !! i = Some a ∧ l !! j = Some b ∧ i < j.

(** Every name of [out] has the nonterminals it left-calls before it. *)
Definition settled (g : grammar) (out : list string) : Prop :=
  ∀ i a b, out !! i = Some a → lead g a b → ∃ j, j < i ∧ out !! j = Some b.

(** The nonterminals that begin a production are defined. *)
Definition leads_defined (g : grammar) : Prop :=
  ∀ a prods s rest,
    g_lookup g a = Some prods → (Str s :: rest) ∈ prods →
    str_is_nt s = true → s ∈ keys g.

(** The same, as a check that runs. *)
Definition leads_defined_b (g : grammar) : bool :=
  forallb (λ entry : string * list production,
             forallb (λ prod : production,
                        match prod with
                        | Str s :: _ =>
                            negb (str_is_nt s) || bool_decide (s ∈ keys g)
                        | _ => true
                        end) entry.2) g.

(** [rank] goes down along every leading nonterminal: a check that runs,
    and that rules out left recursion. *)
Definition lead_ranked (rank : string → nat) (g : grammar) : bool :=
  forallb (λ entry : string * list production,
             forallb (λ prod : production,
                        match prod with
                        | Str s :: _ =>
                            negb (str_is_nt s) ||
                            bool_decide (rank s < rank entry.1)
                        | _ => true
                        end) entry.2) g.

(** The outcome of [generate_parser] is one of two: the whole parser was
    appended to [out], or nothing was. *)
Definition all_or_nothing (goal : string) (out out' : list string)
    (r : result unit) : Prop :=
  (r = Ok tt ∧ ∃ body, out' = out ++ body ++ emit_entry_point goal) ∨
  (r ≠ Ok tt ∧ out' = out).

(** [occurs g a b]: the nonterminal [b] is a symbol of a production of
    [a]; [visit] of [follow_sets] walks these steps from the goal. *)
Definition occurs (g : grammar) (a b : string) : Prop :=
  ∃ prods prod,
    g_lookup g a = Some prods ∧ prod ∈ prods ∧ Str b ∈ prod ∧
    str_is_nt b = true.

Definition reachable (g : grammar) (goal a : string) : Prop :=
  rtc (occurs g) goal a.

(** The state of [follow_sets] only grows. *)
Definition follow_le (st st' : follow_state) : Prop :=
  visited st ⊆ visited st' ∧
  (∀ k, dd_get (follow st) k ⊆ dd_get (follow st') k) ∧
  (∀ k, is_Some (follow st !! k) → is_Some (follow st' !! k)) ∧
  subsumes_relation st ⊆ subsumes_relation st'.

(** What the walk has written down for the occurrence of [s] in a
    production of [a], before the symbols [rest]. *)
Definition occurrence_recorded (fuel : nat) (g : grammar) (a s : string)
    (rest : production) (st : follow_state) : Prop :=
  s ∈ visited st ∧ is_Some (follow st !! s) ∧
  ∃ after, seq_start fuel g rest = Ok after ∧
           after ∖ {[EMPTY]} ⊆ dd_get (follow st) s ∧
           (EMPTY ∈ after → (s, a) ∈ subsumes_relation st).

Definition recorded (fuel : nat) (g : grammar) (a : string)
    (st : follow_state) : Prop :=
  is_Some (g_lookup g a) ∧
  ∀ prods prod pre s rest,
    g_lookup g a = Some prods → prod ∈ prods →
    prod = pre ++ Str s :: rest → str_is_nt s = true →
    occurrence_recorded fuel g a s rest st.

(** Only what the goal reaches is ever touched. *)
Definition within_reach (g : grammar) (goal : string) (st : follow_state)
  : Prop :=
  (∀ a, a ∈ visited st → reachable g goal a) ∧
  (∀ k, is_Some (follow st !! k) → reachable g goal k) ∧
  (∀ t s, (t, s) ∈ subsumes_relation st →
          reachable g goal t ∧ reachable g goal s).

Definition visit_post (fuel : nat) (g : grammar) (goal : string)
    (st : follow_state) (nt : string) (st' : follow_state) : Prop :=
  follow_le st st' ∧ nt ∈ visited st' ∧
  (∀ a, a ∈ visited st' → a ∉ visited st → recorded fuel g a st') ∧
  (within_reach g goal st → reachable g goal nt → within_reach g goal st').

(** How much the sets of the targets of [pairs] can still grow inside
    [u]; it bounds the turns of the [while not done] loop. *)
Definition slack (u : strset) (pairs : list (string * string))
    (fl : gmap string strset) : nat :=
  sum_list_with (λ p : string * string, size (u ∖ dd_get fl p.1)) pairs.

(** All that the sets of [fl] hold. *)
Definition universe (fl : gmap string strset) : strset :=
  ⋃ (map_to_list fl).*2.

(** Two nonterminals that are each other's only production. *)
Definition cyclic_grammar : grammar :=
  [("a", [[Str "b"]]); ("b", [[Str "a"]])].

(** The place of the nonterminals of [demo_grammar] in an order that
    goes down along leading nonterminals. *)
Definition demo_rank (s : string) : nat :=
  if bool_decide (s = "e") then 1 else 0.

(* ================================================================== *)
(** ** [generate_parser] on the store of objects *)

(** Python's dictionaries and lists are objects, and a variable or an
    item of a container holds a reference to one.  A grammar is a
    dictionary whose values refer to lists of productions, whose items
    refer to productions, which are lists of symbols; symbols ([str] and
    [Reduction]) are immutable and kept as values.  Two keys may refer to
    the same list, two lists to the same production.  A reference to an
    object of another kind than the statement expects raises
    [TypeError]. *)
Inductive obj :=
| ODict (entries : list (string * loc))
| ORules (items : list loc)
| OProd (symbols : production).

Abbreviation store := (gmap loc obj).

(** Statements run on the store; an exception leaves the store as the
    statements before it made it. *)
Definition St (A : Type) : Type := store → store * result A.

Definition st_bind {A B} (f : A → St B) (m : St A) : St B :=
  λ h, match m h with
       | (h', Ok a) => f a h'
       | (h', Raise e) => (h', Raise e)
       | (h', OutOfFuel) => (h', OutOfFuel)
       end.

#[global] Instance st_mbind : MBind St := @st_bind.
#[global] Instance st_mret : MRet St := λ A a h, (h, Ok a).

(** A computation that does not touch the store. *)
Definition lift {A} (r : result A) : St A := λ h, (h, r).

(** A new object. *)
Definition alloc (o : obj) : St loc :=
  λ h, let l := fresh (dom h) in (<[l := o]> h, Ok l).

Definition dict_entries (d : loc) : St (list (string * loc)) :=
  λ h, match h !! d with
       | Some (ODict entries) => (h, Ok entries)
       | _ => (h, Raise TypeError)
       end.

Definition rules_items (l : loc) : St (list loc) :=
  λ h, match h !! l with
       | Some (ORules items) => (h, Ok items)
       | _ => (h, Raise TypeError)
       end.

Definition prod_symbols (p : loc) : St production :=
  λ h, match h !! p with
       | Some (OProd symbols) => (h, Ok symbols)
       | _ => (h, Raise TypeError)
       end.

Fixpoint e_lookup (entries : list (string * loc)) (k : string) : option loc :=
  match entries with
  | [] => None
  | (k', v) :: rest => if decide (k' = k) then Some v else e_lookup rest k
  end.

Fixpoint e_set (entries : list (string * loc)) (k : string) (v : loc)
  : list (string * loc) :=
  match entries with
  | [] => [(k, v)]
  | (k', w) :: rest =>
      if decide (k' = k) then (k', v) :: rest else (k', w) :: e_set rest k v
  end.

(** [d[k]] *)
Definition dict_getitem (d : loc) (k : string) : St loc :=
  entries ← dict_entries d;
  match e_lookup entries k with
  | Some l => mret l
  | None => lift (Raise (KeyError k))
  end.

(** [d[k] = v]: the one statement of [gen.py] that changes an object of
    a grammar. *)
Definition dict_setitem (d : loc) (k : string) (v : loc) : St unit :=
  λ h, match h !! d with
       | Some (ODict entries) => (<[d := ODict (e_set entries k v)]> h, Ok tt)
       | _ => (h, Raise TypeError)
       end.

Fixpoint st_map {A B} (f : A → St B) (l : list A) : St (list B) :=
  match l with
  | [] => mret []
  | x :: rest => y ← f x; ys ← st_map f rest; mret (y :: ys)
  end.

(** The grammar that a dictionary of the store holds, as a value. *)
Definition read_prod (h : store) (p : loc) : option production :=
  match h !! p with
  | Some (OProd symbols) => Some symbols
  | _ => None
  end.

Definition read_rules (h : store) (l : loc) : option (list production) :=
  match h !! l with
  | Some (ORules items) => mapM (read_prod h) items
  | _ => None
  end.

Definition read_entry (h : store) (entry : string * loc)
  : option (string * list production) :=
  match read_rules h entry.2 with
  | Some rules => Some (entry.1, rules)
  | None => None
  end.

Definition read_dict (h : store) (d : loc) : option grammar :=
  match h !! d with
  | Some (ODict entries) => mapM (read_entry h) entries
  | _ => None
  end.

(** The functions that only read the grammar ([check], [quasisort_nts],
    [gensym], [check_ambiguity], the loops that write the parser) run on
    what the dictionary holds when they are called. *)
Definition snapshot (d : loc) : St grammar :=
  λ h, match read_dict h d with
       | Some g => (h, Ok g)
       | None => (h, Raise TypeError)
       end.

(** [for r in grammar[nt]] where the loop looks into [r]: the references
    with the symbols they hold. *)
Definition load_rules (l : loc) : St (list (loc * production)) :=
  items ← rules_items l;
  st_map (λ r, symbols ← prod_symbols r; mret (r, symbols)) items.

(** New lists, one for each of the productions built by a
    comprehension. *)
Definition alloc_prods (ps : list production) : St (list loc) :=
  st_map (λ symbols, alloc (OProd symbols)) ps.

(** The dictionary comprehension at the head of [generate_parser]:
    [prod + [Reduction(nt, i, len(prod))]] is a new list, every list of
    productions is a new list, and the dictionary is a new dictionary. *)
Fixpoint augment_prods (nt : string) (i : nat) (items : list loc)
  : St (list loc) :=
  match items with
  | [] => mret []
  | p :: rest =>
      symbols ← prod_symbols p;
      p' ← alloc (OProd (symbols ++ [Reduction nt i (length symbols)]));
      rest' ← augment_prods nt (S i) rest;
      mret (p' :: rest')
  end.

Definition augment_entry (entry : string * loc) : St (string * loc) :=
  items ← rules_items entry.2;
  items' ← augment_prods entry.1 0 items;
  l ← alloc (ORules items');
  mret (entry.1, l).

Definition augment_store (d : loc) : St loc :=
  entries ← dict_entries d;
  entries' ← st_map augment_entry entries;
  alloc (ODict entries').

(** [eliminate_left_calls]: the productions that are kept are the same
    objects as before, in a new list; the others are new lists. *)
Definition eliminate_left_calls_store (w : loc) (from_nt to_nt : string)
  : St unit :=
  lf ← dict_getitem w from_nt;
  from_rules ← load_rules lf;
  lt ← dict_getitem w to_nt;
  to_rules ← load_rules lt;
  inlined ← alloc_prods
    (flat_map (λ c : loc * production,
                 map (λ a : loc * production, c.2 ++ tail a.2)
                     (List.filter (λ a : loc * production,
                                     starts_with to_nt a.2) from_rules))
              to_rules);
  l ← alloc (ORules
    ((List.filter (λ r : loc * production, negb (starts_with to_nt r.2))
                  from_rules).*1 ++ inlined));
  dict_setitem w from_nt l.

Definition eliminate_immediate_store (w : loc) (nt : string) : St unit :=
  lr ← dict_getitem w nt;
  rules ← load_rules lr;
  if existsb (λ r : loc * production, starts_with nt r.2) rules then
    g ← snapshot w;
    epilogue ← lift (gensym g nt);
    empty ← alloc (OProd []);
    tails ← alloc_prods
      (map (λ r : loc * production, tail r.2 ++ [Str epilogue])
           (List.filter (λ r : loc * production, starts_with nt r.2) rules));
    le ← alloc (ORules (empty :: tails));
    _ ← dict_setitem w epilogue le;
    heads ← alloc_prods
      (map (λ r : loc * production, r.2 ++ [Str epilogue])
           (List.filter (λ r : loc * production,
                           negb (starts_with nt r.2)) rules));
    ln ← alloc (ORules heads);
    dict_setitem w nt ln
  else mret tt.

Fixpoint left_calls_loop_store (w : loc) (iname : string)
    (earlier : list string) : St unit :=
  match earlier with
  | [] => mret tt
  | jname :: rest =>
      _ ← eliminate_left_calls_store w iname jname;
      left_calls_loop_store w iname rest
  end.

Fixpoint eliminate_loop_store (w : loc) (earlier todo : list string)
  : St unit :=
  match todo with
  | [] => mret tt
  | iname :: rest =>
      _ ← left_calls_loop_store w iname earlier;
      _ ← eliminate_immediate_store w iname;
      eliminate_loop_store w (earlier ++ [iname]) rest
  end.

Definition eliminate_left_recursion_store (w : loc) : St unit :=
  g ← snapshot w;
  ntnames ← lift (quasisort_nts g);
  eliminate_loop_store w [] ntnames.

(** The three stages of [generate_parser] on the dictionary [w]. *)
Definition validate_store (fuel : nat) (w : loc) (goal : string) : St grammar :=
  g ← snapshot w;
  _ ← lift (check g);
  _ ← eliminate_left_recursion_store w;
  g' ← snapshot w;
  _ ← lift (check_ambiguity fuel g' goal);
  mret g'.

(** [generate_parser(out, grammar, goal)], where [grammar] is the
    reference [grammar_ref] that the caller passes. *)
Definition generate_parser_store (fuel : nat) (h : store) (out : list string)
    (grammar_ref : loc) (goal : string) : store * list string * result unit :=
  match (w ← augment_store grammar_ref; validate_store fuel w goal) h with
  | (h', Ok g') =>
      match emit_nts fuel g' g' out with
      | (out', Ok _) => (h', out' ++ emit_entry_point goal, Ok tt)
      | (out', r) => (h', out', r)
      end
  | (h', Raise e) => (h', out, Raise e)
  | (h', OutOfFuel) => (h', out, OutOfFuel)
  end.

(** The dictionary display of [main]: the objects of a grammar given as
    a value, innermost first. *)
Definition put_entry (entry : string * list production) : St (string * loc) :=
  items ← alloc_prods entry.2;
  l ← alloc (ORules items);
  mret (entry.1, l).

Definition put_grammar (g : grammar) : St loc :=
  entries ← st_map put_entry g;
  alloc (ODict entries).

(** A statement changes no object that exists, the objects at [W]
    apart. *)
Definition frames {A} (W : gset loc) (m : St A) : Prop :=
  ∀ h l o, l ∉ W → h !! l = Some o → (m h).1 !! l = Some o.

(** A step on the store does to the dictionary [w] what a step on values
    does to the grammar it holds, with the same outcome. *)
Definition simulates (w : loc) (m : St unit)
    (f : grammar → grammar * result unit) : Prop :=
  ∀ h g, read_dict h w = Some g →
    (m h).2 = (f g).2 ∧ read_dict (m h).1 w = Some (f g).1.

(* ================================================================== *)
(** * Proofs *)

Set Warnings "-clear-no-such-hyp".

(* ------------------------------------------------------------------ *)
(** *** Dictionary lemmas *)

Lemma g_lookup_is_Some (g : grammar) nt : is_Some (g_lookup g nt) ↔ nt ∈ keys g.
Proof.
  unfold keys. induction g as [|[k v] g IH]; simpl.
  - split; [intros [? ?]; discriminate | intros H; inversion H].
  - destruct (decide (k = nt)) as [->|Hne].
    + split; [intros _; left | eauto].
    + rewrite IH. split; [intros H; by right|].
      intros H. inversion H; subst; [done | done].
Qed.

Lemma g_lookup_None (g : grammar) nt : g_lookup g nt = None ↔ nt ∉ keys g.
Proof.
  rewrite <- g_lookup_is_Some. rewrite eq_None_not_Some. done.
Qed.

Lemma g_mem_true (g : grammar) nt : g_mem nt g = true ↔ nt ∈ keys g.
Proof.
  rewrite <- g_lookup_is_Some. unfold g_mem.
  destruct (g_lookup g nt); split; eauto; try discriminate.
  intros [? ?]; discriminate.
Qed.

Lemma g_mem_false (g : grammar) nt : g_mem nt g = false ↔ nt ∉ keys g.
Proof.
  rewrite <- g_mem_true. destruct (g_mem nt g); split; try done.
Qed.

Lemma check_defined_cases (g : grammar) (prod : production) :
  (check_defined g prod = Ok tt ∧
   ∀ s, Str s ∈ prod → str_is_nt s = true → s ∈ keys g) ∨
  (∃ s, check_defined g prod = Raise (ValueError (UndefinedNonterminal s)) ∧
        Str s ∈ prod ∧ str_is_nt s = true ∧ g_lookup g s = None).
Proof.
  induction prod as [|symbol rest IH]; simpl.
  - left. split; [done|]. intros s H; inversion H.
  - destruct symbol as [s|tn ti ac].
    + destruct (str_is_nt s) eqn:Hnt; simpl.
      * destruct (g_mem s g) eqn:Hmem; simpl.
        -- destruct IH as [[-> IH]|(s' & -> & ? & ? & ?)].
           ++ left. split; [done|]. intros s' Hin Hs'.
              apply elem_of_cons in Hin as [Heq|Hin]; [|by apply IH].
              injection Heq as ->. by apply g_mem_true.
           ++ right. exists s'. repeat split; try done. by right.
        -- right. exists s. repeat split; try done; [left|].
           by apply g_lookup_None, g_mem_false.
      * destruct IH as [[-> IH]|(s' & -> & ? & ? & ?)].
        -- left. split; [done|]. intros s' Hin Hs'.
           apply elem_of_cons in Hin as [Heq|Hin]; [|by apply IH].
           injection Heq as ->. congruence.
        -- right. exists s'. repeat split; try done. by right.
    + destruct IH as [[-> IH]|(s' & -> & ? & ? & ?)].
      * left. split; [done|]. intros s' Hin Hs'.
        apply elem_of_cons in Hin as [Heq|Hin]; [discriminate|by apply IH].
      * right. exists s'. repeat split; try done. by right.
Qed.

Section CheckCorrect.
Variable g : grammar.

Lemma status_closed st a b :
  status_inv g st → st !! a = Some true → rtc (unit_step g) a b →
  st !! b = Some true.
Proof.
  intros [_ Hinv] Ha Hrtc. induction Hrtc as [|x y z Hxy _ IH]; [done|].
  apply IH. by apply (Hinv x).
Qed.

Lemma unit_step_key a b : unit_step g a b → a ∈ keys g.
Proof.
  intros (prods & prod & Hl & _). apply g_lookup_is_Some. eauto.
Qed.

Lemma fuel_measure_le (st0 st : status_map) :
  st0 ⊆ st → size ((key_set g) ∖ dom st) ≤ size ((key_set g) ∖ dom st0).
Proof.
  intros Hsub. apply subseteq_size. apply subseteq_dom in Hsub. set_solver.
Qed.

Lemma fuel_measure_lt (st : status_map) nt v :
  nt ∈ keys g → st !! nt = None →
  size ((key_set g) ∖ dom (<[nt := v]> st)) < size ((key_set g) ∖ dom st).
Proof.
  intros Hk Hnone. apply subset_size. rewrite dom_insert_L.
  apply not_elem_of_dom in Hnone.
  assert (nt ∈ (key_set g)) by (unfold key_set; set_solver).
  set_solver.
Qed.

Lemma fuel_measure_bound (st : status_map) : size ((key_set g) ∖ dom st) ≤ length g.
Proof.
  transitivity (size (key_set g)); [apply subseteq_size; set_solver|].
  unfold key_set. replace (length g) with (length (keys g)) by apply length_fmap.
  generalize (keys g). intros l. induction l as [|x l IH].
  - rewrite list_to_set_nil, size_empty. simpl. lia.
  - rewrite list_to_set_cons, size_union_alt, size_singleton. simpl.
    assert (size (list_to_set l ∖ {[x]} : gset string) ≤ size (list_to_set l : gset string))
      by (apply subseteq_size; set_solver).
    lia.
Qed.

Lemma strip_elem (prod : production) x : x ∈ strip prod → x ∈ prod.
Proof.
  unfold strip. rewrite !list_elem_of_In, filter_In. tauto.
Qed.

Lemma prod_ok_mono st st' prod : st ⊆ st' → prod_ok g st prod → prod_ok g st' prod.
Proof.
  intros Hsub (H1 & H2 & H3). repeat split; try done.
  intros b Hb Hnt. eapply lookup_weaken; [by apply H3|done].
Qed.

Lemma check_prods_spec rec nt all_prods st0 :
  rec_spec g rec st0 →
  g_lookup g nt = Some all_prods →
  (∀ a, st0 !! a = Some false → a = nt ∨ tc (unit_step g) a nt) →
  ∀ prods st,
    prods ⊆ all_prods → status_inv g st → st0 ⊆ st →
    (∀ a, st !! a = Some false → st0 !! a = Some false) →
    match for_each (check_prod rec g nt) prods st with
    | Ok st' =>
        status_inv g st' ∧ st ⊆ st' ∧
        (∀ a, st' !! a = Some false → st !! a = Some false) ∧
        (∀ prod, prod ∈ prods → prod_ok g st' prod)
    | Raise _ => violates_rules g
    | OutOfFuel => False
    end.
Proof.
  intros Hrec Hnt Hreach. induction prods as [|prod prods IH];
    intros st Hsub Hinv Hst0 Hfalse; simpl.
  - split; [done|]. split; [done|]. split; [done|].
    intros prod Hin. inversion Hin.
  - assert (Hprod : prod ∈ all_prods) by (apply Hsub; left).
    assert (Hrest : prods ⊆ all_prods) by (intros x Hx; apply Hsub; by right).
    (* the production is fine and the status is unchanged *)
    assert (Hskip : (∀ s, Str s ∈ prod → str_is_nt s = true → s ∈ keys g) →
              strip prod ≠ [] →
              (∀ b, strip prod = [Str b] → str_is_nt b = true → False) →
              match for_each (check_prod rec g nt) prods st with
              | Ok st' =>
                  status_inv g st' ∧ st ⊆ st' ∧
                  (∀ a, st' !! a = Some false → st !! a = Some false) ∧
                  (∀ p, p ∈ prod :: prods → prod_ok g st' p)
              | Raise _ => violates_rules g
              | OutOfFuel => False
              end).
    { intros Hdef Hne Hunit. specialize (IH st Hrest Hinv Hst0 Hfalse).
      destruct (for_each (check_prod rec g nt) prods st) as [st'| |]; try done.
      destruct IH as (? & ? & ? & Hall).
      split; [done|]. split; [done|]. split; [done|].
      intros p Hp. apply elem_of_cons in Hp as [->|?]; [|by apply Hall].
      split; [done|]. split; [done|].
      intros b Hb Hbnt. by destruct (Hunit b). }
    unfold check_prod at 1.
    destruct (check_defined_cases g prod) as [[-> Hdef]|(s & -> & Hs1 & Hs2 & Hs3)].
    2:{ left. by exists nt, all_prods, prod, s. }
    destruct (strip prod) as [|x [|y rest]] eqn:Hstrip.
    + right; right. by exists nt, all_prods, prod.
    + destruct x as [s|tn ti ac].
      2:{ apply Hskip; try done. }
      destruct (str_is_nt s) eqn:Hsnt.
      2:{ apply Hskip; try done. intros b [= <-] ?. congruence. }
      assert (Hstep : unit_step g nt s) by (by exists all_prods, prod).
      assert (Hskey : s ∈ keys g).
      { apply Hdef; [|done]. apply strip_elem. rewrite Hstrip. left. }
      pose proof (Hrec st s Hskey Hinv Hst0) as Hpost.
      unfold check_post in Hpost.
      destruct (rec st s) as [st1| |].
      * destruct Hpost as (Hinv1 & Hs & Hsub1 & Hfalse1).
        { intros a Ha. apply Hfalse, Hreach in Ha as [->|Ha].
          - by apply tc_once.
          - eapply tc_r; done. }
        assert (Hst01 : st0 ⊆ st1) by (by transitivity st).
        specialize (IH st1 Hrest Hinv1 Hst01).
        destruct (for_each (check_prod rec g nt) prods st1) as [st'| |].
        -- destruct IH as (? & Hsub' & ? & Hall); [by eauto|].
           split; [done|]. split; [by transitivity st1|]. split; [by eauto|].
           intros p Hp. apply elem_of_cons in Hp as [->|?]; [|by apply Hall].
           split; [done|]. rewrite Hstrip. split; [done|].
           intros b [= <-] _. eapply lookup_weaken; done.
        -- apply IH. eauto.
        -- apply IH. eauto.
      * apply Hpost. intros a Ha. apply Hfalse, Hreach in Ha as [->|Ha].
        -- by apply tc_once.
        -- eapply tc_r; done.
      * apply Hpost. intros a Ha. apply Hfalse, Hreach in Ha as [->|Ha].
        -- by apply tc_once.
        -- eapply tc_r; done.
    + destruct x; apply Hskip; try done.
Qed.

Lemma check_nt_spec fuel :
  ∀ st nt, nt ∈ keys g → status_inv g st →
    (∀ a, st !! a = Some false → tc (unit_step g) a nt) →
    size ((key_set g) ∖ dom st) < fuel →
    check_post g st nt (check_nt fuel g st nt).
Proof.
  induction fuel as [|fuel IH]; intros st nt Hkey Hinv Hreach Hfuel; [lia|].
  simpl. destruct (st !! nt) as [[|]|] eqn:Hst.
  - (* already checked *)
    split; [done|]. split; [done|]. split; [done|]. done.
  - (* in progress: a cycle *)
    right; left. exists nt. by apply Hreach.
  - destruct (g_lookup g nt) as [prods|] eqn:Hprods.
    2:{ apply g_lookup_None in Hprods. done. }
    set (st0 := <[nt := false]> st).
    assert (Hst0 : st ⊆ st0) by (by apply insert_subseteq).
    assert (Hinv0 : status_inv g st0).
    { destruct Hinv as [Hdom Hdone]. split.
      - intros a. unfold st0. rewrite lookup_insert.
        case_decide; [by subst|apply Hdom].
      - intros a. unfold st0. rewrite lookup_insert.
        case_decide; [done|]. intros Ha.
        destruct (Hdone a Ha) as (Hf & Hedge & Hcyc).
        split; [done|]. split; [|done].
        intros b Hb. eapply lookup_weaken; [by apply Hedge|done]. }
    assert (Hrec : rec_spec g (check_nt fuel g) st0).
    { intros st1 b Hb Hinv1 Hsub1 Hreach1. apply IH; try done.
      pose proof (fuel_measure_le st0 st1 Hsub1).
      pose proof (fuel_measure_lt st nt false Hkey Hst). fold st0 in H0. lia. }
    pose proof (check_prods_spec (check_nt fuel g) nt prods st0 Hrec Hprods) as Hloop.
    specialize (Hloop ltac:(
      intros a; unfold st0; rewrite lookup_insert; case_decide;
        [by left; subst | by right; apply Hreach]) prods st0
      ltac:(done) Hinv0 ltac:(done) ltac:(done)).
    destruct (for_each (check_prod (check_nt fuel g) g nt) prods st0)
      as [st'| |]; try done.
    destruct Hloop as (Hinv' & Hsub' & Hfalse' & Hall).
    assert (Hnt' : st' !! nt = Some false).
    { eapply lookup_weaken; [|done]. unfold st0. apply lookup_insert_eq. }
    assert (Hedges : ∀ b, unit_step g nt b → st' !! b = Some true).
    { intros b (prods' & prod & Hl & Hin & Hstrip & Hb).
      rewrite Hprods in Hl. injection Hl as <-.
      destruct (Hall prod Hin) as (_ & _ & Hunit). by apply Hunit. }
    split; [|split; [|split]].
    + destruct Hinv' as [Hdom' Hdone']. split.
      * intros a. rewrite lookup_insert. case_decide; [by subst|apply Hdom'].
      * intros a. rewrite lookup_insert. case_decide as Ha.
        -- subst a. intros _. split; [|split].
           ++ intros prods' prod Hl Hin. rewrite Hprods in Hl.
              injection Hl as <-. destruct (Hall prod Hin) as (? & ? & _). done.
           ++ intros b Hb. rewrite lookup_insert. case_decide; [done|].
              by apply Hedges.
           ++ intros Hcyc.
              inversion Hcyc as [x y Hxy|x y z Hxy Hyz]; subst.
              ** apply Hedges in Hxy. congruence.
              ** apply Hedges in Hxy.
                 assert (st' !! nt = Some true); [|congruence].
                 eapply status_closed; [by split|done|by apply tc_rtc].
        -- intros Hat. destruct (Hdone' a Hat) as (Hf & Hedge & Hcyc).
           split; [done|]. split; [|done].
           intros b Hb. rewrite lookup_insert. case_decide; [done|].
           by apply Hedge.
    + apply lookup_insert_eq.
    + apply map_subseteq_spec. intros a v Ha.
      rewrite lookup_insert. case_decide; [subst; congruence|].
      eapply lookup_weaken; [|done]. eapply lookup_weaken; done.
    + intros a. rewrite lookup_insert. case_decide; [done|].
      intros Ha. apply Hfalse' in Ha. unfold st0 in Ha.
      by rewrite lookup_insert_ne in Ha.
Qed.

Lemma check_loop_spec fuel (l : list string) :
  length g < fuel →
  ∀ st, l ⊆ keys g → status_inv g st → (∀ a, st !! a ≠ Some false) →
    match for_each (λ nt status, check_nt fuel g status nt) l st with
    | Ok st' =>
        status_inv g st' ∧ (∀ a, st' !! a ≠ Some false) ∧
        st ⊆ st' ∧ (∀ a, a ∈ l → st' !! a = Some true)
    | Raise _ => violates_rules g
    | OutOfFuel => False
    end.
Proof.
  intros Hfuel.
  induction l as [|nt l IH]; intros st Hsub Hinv Hnf; cbn [for_each].
  - split; [done|]. split; [done|]. split; [done|]. intros a Ha; inversion Ha.
  - assert (Hpost : check_post g st nt (check_nt fuel g st nt)).
    { apply check_nt_spec; try done.
      - apply Hsub; left.
      - intros a Ha. by destruct (Hnf a).
      - pose proof (fuel_measure_bound st). lia. }
    unfold check_post in Hpost.
    destruct (check_nt fuel g st nt) as [st1| |]; try done.
    destruct Hpost as (Hinv1 & Hnt1 & Hsub1 & Hfalse1).
    assert (Hl : l ⊆ keys g) by (intros x Hx; apply Hsub; by right).
    assert (Hnf1 : ∀ a, st1 !! a ≠ Some false).
    { intros a Ha. apply Hfalse1 in Ha. by destruct (Hnf a). }
    specialize (IH st1 Hl Hinv1 Hnf1).
    destruct (for_each _ l st1) as [st'| |]; try done.
    destruct IH as (? & ? & Hsub' & Hall).
    split; [done|]. split; [done|]. split; [by transitivity st1|].
    intros a Ha. apply elem_of_cons in Ha as [->|Ha]; [|by apply Hall].
    eapply lookup_weaken; done.
Qed.

Lemma status_inv_empty : status_inv g ∅.
Proof.
  split.
  - intros a [? Ha]. by rewrite lookup_empty in Ha.
  - intros a Ha. by rewrite lookup_empty in Ha.
Qed.

Lemma all_checked_no_violation st :
  status_inv g st → (∀ a, a ∈ keys g → st !! a = Some true) →
  ¬ violates_rules g.
Proof.
  intros [_ Hdone] Hall [H1|[H2|H3]].
  - destruct H1 as (nt & prods & prod & s & Hl & Hin & Hs & Hnt & Hnone).
    assert (Hk : nt ∈ keys g) by (apply g_lookup_is_Some; eauto).
    destruct (Hdone nt (Hall nt Hk)) as (Hf & _).
    destruct (Hf prods prod Hl Hin) as [Hdef _].
    apply g_lookup_None in Hnone. apply Hnone. by apply Hdef.
  - destruct H2 as (q & Hq).
    assert (Hk : q ∈ keys g).
    { inversion Hq; subst; eapply unit_step_key; done. }
    destruct (Hdone q (Hall q Hk)) as (_ & _ & Hcyc). done.
  - destruct H3 as (nt & prods & prod & Hl & Hin & Hempty).
    assert (Hk : nt ∈ keys g) by (apply g_lookup_is_Some; eauto).
    destruct (Hdone nt (Hall nt Hk)) as (Hf & _).
    destruct (Hf prods prod Hl Hin) as [_ Hne]. done.
Qed.

Lemma check_cases :
  (check g = Ok tt ∧ ¬ violates_rules g) ∨
  (raises (check g) ∧ violates_rules g).
Proof.
  unfold check.
  assert (Hnf : ∀ a, (∅ : status_map) !! a ≠ Some false).
  { intros a. by rewrite lookup_empty. }
  pose proof (check_loop_spec (S (length g)) (keys g) ltac:(lia) ∅ ltac:(done) status_inv_empty Hnf) as H.
  destruct (for_each _ (keys g) ∅) as [st'|e|].
  - left. split; [done|]. destruct H as (Hinv & _ & _ & Hall).
    by eapply all_checked_no_violation.
  - right. split; [by exists e|]. done.
  - done.
Qed.
End CheckCorrect.

(** C1: [check] raises exactly when the grammar breaks rule 1 (a
    nonterminal used in a production is not a key), rule 2 (a nonterminal
    reaches itself through productions that are a single nonterminal once
    reductions are stripped) or rule 3 (a production is empty once
    reductions are stripped); it returns normally on every grammar that
    obeys the three rules. *)
Theorem check_iff_rules (g : grammar) :
  (raises (check g) ↔ violates_rules g) ∧
  (¬ violates_rules g → check g = Ok tt).
Proof.
  destruct (check_cases g) as [[Hok Hno]|[Hr Hv]].
  - split; [|done]. split; [|done]. intros [e He]. congruence.
  - split; [done|]. done.
Qed.

(* ------------------------------------------------------------------ *)
(** *** More fuel never changes a result *)

Lemma seq_loop_refines (st st' : symbol → result strset) :
  (∀ x, refines (st x) (st' x)) →
  ∀ seq s, refines (seq_loop st s seq) (seq_loop st' s seq).
Proof.
  intros Hst. induction seq as [|x seq IH]; intros s; simpl; [done|].
  case_bool_decide; [|done].
  specialize (Hst x). unfold refines in Hst.
  destruct (st x) as [sx| |] eqn:Hx.
  - rewrite Hst by done. apply IH.
  - rewrite Hst by done. done.
  - intros Hno. done.
Qed.

Lemma map_result_refines {A B} (f f' : A → result B) :
  (∀ x, refines (f x) (f' x)) →
  ∀ l, refines (map_result f l) (map_result f' l).
Proof.
  intros Hf. induction l as [|x l IH]; simpl; [done|].
  specialize (Hf x). unfold refines in *.
  destruct (f x) as [y| |] eqn:Hx.
  - rewrite Hf by done.
    destruct (map_result f l) as [ys| |] eqn:Hl.
    + by rewrite IH.
    + by rewrite IH.
    + done.
  - by rewrite Hf.
  - done.
Qed.

Lemma start_fuel_S (g : grammar) fuel :
  ∀ sym, refines (start fuel g sym) (start (S fuel) g sym).
Proof.
  induction fuel as [|fuel IH]; intros sym.
  - destruct sym as [s|]; [|done]. unfold refines. simpl. destruct (str_is_nt s); [|done]. intros Hno. by destruct Hno.
  - destruct sym as [s|]; [|done].
    change (start (S (S fuel)) g (Str s)) with
      (if str_is_nt s then
         prods ← g_get g s;
         sets ← map_result (seq_loop (start (S fuel) g) {[EMPTY]}) prods;
         set_union_star sets
       else Ok {[s]}).
    change (start (S fuel) g (Str s)) with
      (if str_is_nt s then
         prods ← g_get g s;
         sets ← map_result (seq_loop (start fuel g) {[EMPTY]}) prods;
         set_union_star sets
       else Ok {[s]}).
    destruct (str_is_nt s); [|done].
    destruct (g_get g s) as [prods| |]; try done.
    unfold mbind, result_mbind, result_bind.
    assert (H : refines
      (map_result (seq_loop (start fuel g) {[EMPTY]}) prods)
      (map_result (seq_loop (start (S fuel) g) {[EMPTY]}) prods)).
    { apply map_result_refines. intros p. by apply seq_loop_refines. }
    unfold refines in *.
    destruct (map_result (seq_loop (start fuel g) {[EMPTY]}) prods) as [sets| |].
    + by rewrite H.
    + by rewrite H.
    + done.
Qed.

Lemma start_fuel_mono (g : grammar) fuel fuel' sym :
  fuel ≤ fuel' → refines (start fuel g sym) (start fuel' g sym).
Proof.
  induction 1 as [|fuel' _ IH]; [done|].
  intros Hne. rewrite <- (IH Hne). apply start_fuel_S. by rewrite (IH Hne).
Qed.

Lemma seq_start_fuel_mono (g : grammar) fuel fuel' seq :
  fuel ≤ fuel' → refines (seq_start fuel g seq) (seq_start fuel' g seq).
Proof.
  intros Hle. apply seq_loop_refines. intros x. by apply start_fuel_mono.
Qed.

Lemma start_is_functional (g : grammar) sym s1 s2 :
  start_is g sym s1 → start_is g sym s2 → s1 = s2.
Proof.
  intros [f1 H1] [f2 H2].
  assert (start (f1 `max` f2) g sym = Ok s1) as E1.
  { rewrite <- H1. apply start_fuel_mono; [lia|]. by rewrite H1. }
  assert (start (f1 `max` f2) g sym = Ok s2) as E2.
  { rewrite <- H2. apply start_fuel_mono; [lia|]. by rewrite H2. }
  congruence.
Qed.

Lemma seq_start_is_functional (g : grammar) seq s1 s2 :
  seq_start_is g seq s1 → seq_start_is g seq s2 → s1 = s2.
Proof.
  intros [f1 H1] [f2 H2].
  assert (seq_start (f1 `max` f2) g seq = Ok s1) as E1.
  { rewrite <- H1. apply seq_start_fuel_mono; [lia|]. by rewrite H1. }
  assert (seq_start (f1 `max` f2) g seq = Ok s2) as E2.
  { rewrite <- H2. apply seq_start_fuel_mono; [lia|]. by rewrite H2. }
  congruence.
Qed.

(** *** The loop of [seq_start], unrolled *)

Lemma seq_loop_union (st : symbol → result strset) (a : strset) :
  EMPTY ∉ a →
  ∀ seq b, seq_loop st (a ∪ b) seq = add_to a (seq_loop st b seq).
Proof.
  intros Ha. induction seq as [|x seq IH]; intros b; simpl; [done|].
  destruct (decide (EMPTY ∈ b)) as [Hb|Hb].
  - rewrite !bool_decide_eq_true_2 by set_solver.
    destruct (st x) as [sx| |]; try done.
    replace ((a ∪ b) ∖ {[EMPTY]} ∪ sx) with (a ∪ (b ∖ {[EMPTY]} ∪ sx))
      by set_solver.
    apply IH.
  - rewrite !bool_decide_eq_false_2 by set_solver. done.
Qed.

Lemma seq_start_nil fuel (g : grammar) : seq_start fuel g [] = Ok {[EMPTY]}.
Proof. done. Qed.

Lemma seq_start_cons fuel (g : grammar) x rest :
  seq_start fuel g (x :: rest) =
  match start fuel g x with
  | Ok s =>
      if bool_decide (EMPTY ∈ s)
      then add_to (s ∖ {[EMPTY]}) (seq_start fuel g rest)
      else Ok s
  | Raise e => Raise e
  | OutOfFuel => OutOfFuel
  end.
Proof.
  unfold seq_start. simpl. rewrite bool_decide_eq_true_2 by set_solver.
  destruct (start fuel g x) as [s| |]; try done.
  replace ({[EMPTY]} ∖ {[EMPTY]} ∪ s) with s by set_solver.
  case_bool_decide as Hs.
  - replace s with (s ∖ {[EMPTY]} ∪ {[EMPTY]}) at 1.
    + apply seq_loop_union. set_solver.
    + apply set_eq. intros y. rewrite elem_of_union, elem_of_difference,
        elem_of_singleton. destruct (decide (y = EMPTY)); subst; tauto.
  - destruct rest; simpl; [done|]. by rewrite bool_decide_eq_false_2.
Qed.

Lemma seq_start_empty_iff fuel (g : grammar) :
  ∀ seq s, seq_start fuel g seq = Ok s →
    (EMPTY ∈ s ↔ ∀ x, x ∈ seq → ∃ sx, start fuel g x = Ok sx ∧ EMPTY ∈ sx).
Proof.
  induction seq as [|x rest IH]; intros s.
  - rewrite seq_start_nil. intros [= <-]. split; [|set_solver].
    intros _ x Hx. inversion Hx.
  - rewrite seq_start_cons. destruct (start fuel g x) as [sx| |] eqn:Hx; try done.
    case_bool_decide as Hsx.
    + destruct (seq_start fuel g rest) as [r| |] eqn:Hr; try done.
      simpl. intros [= <-]. specialize (IH r eq_refl).
      split.
      * intros Hin y Hy. apply elem_of_cons in Hy as [->|Hy]; [by eauto|].
        apply IH; [set_solver|done].
      * intros Hall. apply elem_of_union. right. apply IH.
        intros y Hy. apply Hall. by right.
    + intros [= <-]. split; [done|].
      intros Hall. destruct (Hall x) as (sx' & Hx' & Hin); [left|]. congruence.
Qed.

(* ------------------------------------------------------------------ *)
Lemma no_nt_union (a b : strset) : no_nt a → no_nt b → no_nt (a ∪ b).
Proof. intros Ha Hb x Hx. apply elem_of_union in Hx as [?|?]; eauto. Qed.

Lemma no_nt_subseteq (a b : strset) : a ⊆ b → no_nt b → no_nt a.
Proof. intros Hab Hb x Hx. apply Hb. by apply Hab. Qed.

Lemma no_nt_singleton x : str_is_nt x = false → no_nt {[x]}.
Proof. intros Hx y Hy. apply elem_of_singleton in Hy. by subst. Qed.

Lemma no_nt_empty : no_nt ∅.
Proof. intros x Hx. set_solver. Qed.

Lemma seq_loop_no_nt (st : symbol → result strset) :
  (∀ x s, st x = Ok s → no_nt s) →
  ∀ seq acc s, no_nt acc → seq_loop st acc seq = Ok s → no_nt s.
Proof.
  intros Hst. induction seq as [|x seq IH]; intros acc s Hacc; simpl.
  - by intros [= <-].
  - case_bool_decide; [|by intros [= <-]].
    destruct (st x) as [sx| |] eqn:Hx; try done.
    apply IH. apply no_nt_union; [|by eapply Hst].
    eapply no_nt_subseteq; [|done]. set_solver.
Qed.

Lemma map_result_Forall {A B} (P : B → Prop) (f : A → result B) :
  (∀ x y, f x = Ok y → P y) →
  ∀ l ys, map_result f l = Ok ys → Forall P ys.
Proof.
  intros Hf. induction l as [|x l IH]; intros ys; simpl.
  - intros [= <-]. constructor.
  - destruct (f x) as [y| |] eqn:Hx; try done.
    destruct (map_result f l) as [ys'| |]; try done.
    intros [= <-]. constructor; [by eapply Hf|by apply IH].
Qed.

Lemma union_list_no_nt (sets : list strset) : Forall no_nt sets → no_nt (⋃ sets).
Proof.
  induction 1; simpl; [apply no_nt_empty|by apply no_nt_union].
Qed.

Lemma start_no_nt (g : grammar) fuel :
  ∀ sym s, start fuel g sym = Ok s → no_nt s.
Proof.
  induction fuel as [|fuel IH]; intros sym s.
  - destruct sym as [x|]; simpl.
    + destruct (str_is_nt x) eqn:Hx; [done|]. intros [= <-].
      by apply no_nt_singleton.
    + intros [= <-]. by apply no_nt_singleton.
  - destruct sym as [x|]; simpl.
    + destruct (str_is_nt x) eqn:Hx.
      * destruct (g_get g x) as [prods| |]; try done.
        unfold mbind, result_mbind, result_bind.
        destruct (map_result _ prods) as [sets| |] eqn:Hsets; try done.
        apply (map_result_Forall no_nt) in Hsets.
        -- destruct sets as [|s0 sets]; simpl; [done|]. intros [= <-].
           inversion Hsets; subst. apply no_nt_union; [done|].
           by apply union_list_no_nt.
        -- intros p sp. apply seq_loop_no_nt; [done|]. by apply no_nt_singleton.
      * intros [= <-]. by apply no_nt_singleton.
    + intros [= <-]. by apply no_nt_singleton.
Qed.

Lemma seq_start_no_nt (g : grammar) fuel seq s :
  seq_start fuel g seq = Ok s → no_nt s.
Proof.
  apply seq_loop_no_nt; [apply start_no_nt|by apply no_nt_singleton].
Qed.

Lemma for_each_preserves {A S} (I : S → Prop) (body : A → S → result S) :
  (∀ x s s', I s → body x s = Ok s' → I s') →
  ∀ l s s', I s → for_each body l s = Ok s' → I s'.
Proof.
  intros Hbody. induction l as [|x l IH]; intros s s' Hs; simpl.
  - by intros [= <-].
  - destruct (body x s) as [s1| |] eqn:Hx; try done.
    intros Hl. eapply IH; [|done]. by eapply Hbody.
Qed.

Section FollowInvariant.
Variable goal : string.

Lemma dd_get_no_empty fl k :
  follow_inv goal fl → (EMPTY ∉ dd_get fl k) ∧ no_nt (dd_get fl k).
Proof.
  intros [Hne _]. unfold dd_get. destruct (fl !! k) as [s|] eqn:Hk; simpl.
  - by eapply Hne.
  - split; [set_solver|apply no_nt_empty].
Qed.

Lemma dd_union_inv fl k s :
  follow_inv goal fl → EMPTY ∉ s → no_nt s →
  follow_inv goal (dd_union fl k s).
Proof.
  intros Hinv Hs Hs'. pose proof (dd_get_no_empty fl k Hinv) as [Hk Hk'].
  destruct Hinv as [Hne (sg & Hg & Hend)]. unfold dd_union. split.
  - intros k' s'. rewrite lookup_insert. case_decide.
    + intros [= <-]. split; [set_solver|by apply no_nt_union].
    + apply Hne.
  - destruct (decide (k = goal)) as [->|Hkg].
    + exists (dd_get fl goal ∪ s). rewrite lookup_insert_eq. split; [done|].
      unfold dd_get. rewrite Hg. simpl. set_solver.
    + exists sg. by rewrite lookup_insert_ne.
Qed.

Lemma dd_touch_inv fl k : follow_inv goal fl → follow_inv goal (dd_touch fl k).
Proof.
  intros [Hne (sg & Hg & Hend)]. unfold dd_touch.
  destruct (fl !! k) eqn:Hk; [by split; eauto|]. split.
  - intros k' s'. rewrite lookup_insert. case_decide; [|apply Hne].
    intros [= <-]. split; [set_solver|apply no_nt_empty].
  - exists sg. rewrite lookup_insert_ne; [done|]. congruence.
Qed.

Lemma follow_prod_inv rec fuel (g : grammar) nt :
  (∀ s st st', follow_inv goal (follow st) → rec s st = Ok st' →
               follow_inv goal (follow st')) →
  ∀ prod st st', follow_inv goal (follow st) →
    follow_prod rec fuel g nt prod st = Ok st' → follow_inv goal (follow st').
Proof.
  intros Hrec. induction prod as [|symbol rest IH]; intros st st' Hst; simpl.
  - by intros [= <-].
  - destruct symbol as [s|]; [|by apply IH].
    destruct (str_is_nt s); [|by apply IH].
    destruct (rec s st) as [st1| |] eqn:Hr; try done.
    apply Hrec in Hr; [|done].
    destruct (seq_start fuel g rest) as [after| |] eqn:Hafter; try done.
    apply seq_start_no_nt in Hafter.
    apply IH. case_bool_decide; simpl.
    + apply dd_union_inv; [done|set_solver|].
      eapply no_nt_subseteq; [|done]. set_solver.
    + by apply dd_union_inv.
Qed.

Lemma follow_visit_inv depth fuel (g : grammar) :
  ∀ nt st st', follow_inv goal (follow st) →
    follow_visit depth fuel g nt st = Ok st' → follow_inv goal (follow st').
Proof.
  induction depth as [|depth IH]; intros nt st st' Hst; simpl; [done|].
  case_bool_decide; [by intros [= <-]|].
  destruct (g_lookup g nt) as [prods|]; [|done].
  apply (for_each_preserves (λ st, follow_inv goal (follow st))); [|done].
  intros prod s s'. apply follow_prod_inv. apply IH.
Qed.

Lemma subsume_step_inv pair acc :
  follow_inv goal acc.1 → follow_inv goal (subsume_step pair acc).1.
Proof.
  intros Hinv. destruct pair as [target source]. unfold subsume_step.
  assert (follow_inv goal (dd_touch (dd_touch acc.1 source) target)) as Ht
    by (by do 2 apply dd_touch_inv).
  case_bool_decide; simpl; [done|].
  apply dd_union_inv; [done|by apply dd_get_no_empty..].
Qed.

Lemma subsume_pass_inv pairs fl :
  follow_inv goal fl → follow_inv goal (subsume_pass pairs fl).1.
Proof.
  unfold subsume_pass. generalize true.
  revert fl. induction pairs as [|pair pairs IH]; intros fl b Hinv; simpl; [done|].
  pose proof (subsume_step_inv pair (fl, b) Hinv) as Hstep.
  destruct (subsume_step pair (fl, b)) as [fl1 b1]. by apply IH.
Qed.

Lemma subsume_fix_inv fuel pairs :
  ∀ fl fl', follow_inv goal fl → subsume_fix fuel pairs fl = Ok fl' →
            follow_inv goal fl'.
Proof.
  induction fuel as [|fuel IH]; intros fl fl' Hinv; simpl; [done|].
  pose proof (subsume_pass_inv pairs fl Hinv) as Hpass.
  destruct (subsume_pass pairs fl) as [fl1 done]. simpl in Hpass.
  destruct done; [by intros [= <-]|]. by apply IH.
Qed.

Lemma follow_sets_inv fuel (g : grammar) fl :
  follow_sets fuel g goal = Ok fl → follow_inv goal fl.
Proof.
  unfold follow_sets.
  destruct (follow_visit _ _ _ _ _) as [st| |] eqn:Hv; try done.
  intros Hfix. eapply subsume_fix_inv; [|done].
  eapply follow_visit_inv; [|done]. simpl.
  split.
  - intros k s. unfold dd_union. rewrite lookup_insert. case_decide; [|done].
    intros [= <-]. unfold dd_get. rewrite lookup_empty. simpl. split.
    + intros Hin. apply elem_of_union in Hin as [Hin|Hin]; [set_solver|].
      apply elem_of_singleton in Hin. discriminate.
    + apply no_nt_union; [apply no_nt_empty|by apply no_nt_singleton].
  - eexists. unfold dd_union. rewrite lookup_insert_eq. split; [done|].
    set_solver.
Qed.
End FollowInvariant.

(** C8: the mapping that [follow_sets] returns has an entry for the goal,
    and [END] is in it. *)
Theorem follow_goal_has_end fuel (g : grammar) goal fl :
  follow_sets fuel g goal = Ok fl →
  ∃ s, fl !! goal = Some s ∧ END ∈ s.
Proof.
  intros H. by destruct (follow_sets_inv goal fuel g fl H) as [_ ?].
Qed.

Lemma follow_goal_has_end_witness :
  ∃ fl, follow_sets 4 demo_grammar "e" = Ok fl ∧
        ∃ s, fl !! "e" = Some s ∧ END ∈ s.
Proof.
  eexists. split; [vm_compute; reflexivity|].
  apply (follow_goal_has_end 4 demo_grammar "e"). vm_compute. reflexivity.
Defined.

(** C9: no set of the mapping that [follow_sets] returns has [EMPTY];
    its members are never names of nonterminals. *)
Theorem follow_never_has_empty fuel (g : grammar) goal fl :
  follow_sets fuel g goal = Ok fl →
  ∀ k s, fl !! k = Some s →
    (EMPTY ∉ s) ∧ ∀ x, x ∈ s → is_terminal (Str x) = true.
Proof.
  intros H k s Hk. destruct (follow_sets_inv goal fuel g fl H) as [Hne _].
  destruct (Hne k s Hk) as [? Hnt]. split; [done|].
  intros x Hx. simpl. by rewrite (Hnt x Hx).
Qed.

Lemma follow_never_has_empty_witness :
  ∃ fl, follow_sets 4 demo_grammar "e" = Ok fl ∧
        ∀ k s, fl !! k = Some s →
          (EMPTY ∉ s) ∧ ∀ x, x ∈ s → is_terminal (Str x) = true.
Proof.
  eexists. split; [vm_compute; reflexivity|].
  apply (follow_never_has_empty 4 demo_grammar "e"). vm_compute. reflexivity.
Defined.

(* ------------------------------------------------------------------ *)
Lemma first_of_nonempty (s : strset) :
  s ≠ ∅ → ∃ tok, first_of s = Ok tok ∧ tok ∈ s.
Proof.
  intros Hs. unfold first_of. destruct (elements s) as [|x l] eqn:Hel.
  - apply elements_empty_inv in Hel. by apply leibniz_equiv in Hel.
  - exists x. split; [done|]. apply elem_of_elements. rewrite Hel. left.
Qed.

Lemma running_snoc fuel (g : grammar) pre prod :
  running fuel g (pre ++ [prod]) = running fuel g pre ∪ first_set fuel g prod.
Proof.
  unfold running. rewrite fmap_app, union_list_app_L. simpl. set_solver.
Qed.

Lemma prods_clean_nil fuel (g : grammar) : prods_clean fuel g [].
Proof. intros pre prod post H. by destruct pre. Qed.

Lemma prods_clean_snoc fuel (g : grammar) pre prod :
  prods_clean fuel g pre → clash fuel g pre prod = ∅ →
  prods_clean fuel g (pre ++ [prod]).
Proof.
  intros Hpre Hprod pre' p post Heq.
  destruct post as [|q post] using rev_ind.
  - apply app_inj_tail in Heq as [-> ->]. done.
  - clear IHpost. rewrite app_comm_cons, app_assoc in Heq.
    apply app_inj_tail in Heq as [-> _]. by eapply Hpre.
Qed.

Lemma ambiguity_prods_spec fuel (g : grammar) nt :
  ∀ prods pre,
    (∀ p, p ∈ prods → returns (seq_start fuel g p)) →
    prods_clean fuel g pre →
    match ambiguity_prods fuel g nt prods (running fuel g pre) with
    | Ok total =>
        total = running fuel g (pre ++ prods) ∧
        prods_clean fuel g (pre ++ prods)
    | Raise e =>
        ∃ mid prod post,
          prods = mid ++ prod :: post ∧ prods_clean fuel g (pre ++ mid) ∧
          ((clash fuel g (pre ++ mid) prod = {[EMPTY]} ∧
            e = ValueError (AmbiguousEmpty nt)) ∨
           (clash fuel g (pre ++ mid) prod ≠ {[EMPTY]} ∧
            ∃ tok, tok ∈ clash fuel g (pre ++ mid) prod ∧ tok ≠ EMPTY ∧
                   e = ValueError (UnsupportedStart nt tok)))
    | OutOfFuel => False
    end.
Proof.
  induction prods as [|prod prods IH]; intros pre Hknown Hclean; simpl.
  - by rewrite app_nil_r.
  - destruct (Hknown prod ltac:(left)) as [s Hs]. rewrite Hs.
    assert (Hfirst : first_set fuel g prod = s) by (unfold first_set; by rewrite Hs).
    assert (Hclash : s ∩ running fuel g pre = clash fuel g pre prod)
      by (unfold clash; by rewrite Hfirst).
    rewrite Hclash.
    case_bool_decide as Hc.
    + (* no conflict: go on with the union *)
      assert (Hclean' : prods_clean fuel g (pre ++ [prod]))
        by (by apply prods_clean_snoc).
      specialize (IH (pre ++ [prod])
                     ltac:(intros p Hp; apply Hknown; by right) Hclean').
      rewrite running_snoc, Hfirst in IH.
      destruct (ambiguity_prods fuel g nt prods (running fuel g pre ∪ s))
        as [total|e|].
      * by rewrite <- app_assoc in IH.
      * destruct IH as (mid & p & post & -> & Hmid & Hkind).
        exists (prod :: mid), p, post. split; [done|].
        rewrite <- app_assoc in Hmid, Hkind. done.
      * done.
    + case_bool_decide as Hc'.
      * exists [], prod, prods. rewrite app_nil_r. split; [done|].
        split; [done|]. by left.
      * destruct (first_of_nonempty (clash fuel g pre prod ∖ {[EMPTY]}))
          as (tok & -> & Htok).
        { intros Hempty. apply Hc'. apply set_eq. intros x.
          rewrite elem_of_singleton. split.
          - intros Hx. destruct (decide (x = EMPTY)); [done|]. set_solver.
          - intros ->. apply set_choose_L in Hc as [y Hy].
            destruct (decide (y = EMPTY)); [by subst|]. set_solver. }
        exists [], prod, prods. rewrite app_nil_r. split; [done|].
        split; [done|]. right. split; [done|]. exists tok.
        split; [set_solver|]. split; [set_solver|done].
Qed.

Lemma ambiguity_nt_spec fuel (g : grammar) fl nt prods :
  (∀ p, p ∈ prods → returns (seq_start fuel g p)) →
  match ambiguity_nt fuel g fl (nt, prods) with
  | Ok _ => entry_clean fuel g fl (nt, prods)
  | Raise e => ambiguity_failure fuel g fl nt prods e
  | OutOfFuel => False
  end.
Proof.
  intros Hknown. unfold ambiguity_nt.
  pose proof (ambiguity_prods_spec fuel g nt prods [] Hknown
                (prods_clean_nil fuel g)) as H.
  change (running fuel g []) with (∅ : strset) in H. simpl in H.
  destruct (ambiguity_prods fuel g nt prods ∅) as [total|e|]; [|by left|done].
  destruct H as [-> Hclean]. unfold entry_clean, follow_clash. simpl.
  case_bool_decide as He; [|done].
  case_bool_decide as Hc; [done|].
  destruct (first_of_nonempty _ Hc) as (tok & -> & Htok).
  right. split; [done|]. split; [done|]. by exists tok.
Qed.

Lemma ambiguity_failure_not_clean fuel (g : grammar) fl nt prods e :
  ambiguity_failure fuel g fl nt prods e → ¬ entry_clean fuel g fl (nt, prods).
Proof.
  intros [(pre & prod & post & -> & _ & Hkind)|(_ & He & tok & Htok & _)]
         [Hclean Hfollow]; simpl in *.
  - specialize (Hclean pre prod post eq_refl).
    destruct Hkind as [[Hc _]|(_ & tok & Htok & _)].
    + rewrite Hclean in Hc. assert (EMPTY ∈ (∅ : strset)); [|set_solver].
      rewrite Hc. set_solver.
    + rewrite Hclean in Htok. set_solver.
  - unfold follow_clash in Hfollow. rewrite bool_decide_eq_true_2 in Hfollow by done.
    rewrite Hfollow in Htok. set_solver.
Qed.

Lemma firsts_known_elem fuel (g : grammar) nt prods prod :
  firsts_known fuel g → (nt, prods) ∈ g → prod ∈ prods →
  returns (seq_start fuel g prod).
Proof.
  unfold firsts_known. rewrite forallb_forall. intros Hall Hin Hp.
  apply list_elem_of_In in Hin. specialize (Hall _ Hin). simpl in Hall.
  rewrite forallb_forall in Hall. apply list_elem_of_In in Hp.
  specialize (Hall _ Hp). destruct (seq_start fuel g prod); [by eexists|done..].
Qed.

Lemma ambiguity_loop_spec fuel (g : grammar) fl :
  firsts_known fuel g →
  ∀ todo before, g = before ++ todo →
    Forall (entry_clean fuel g fl) before →
    match for_each (λ entry _, ambiguity_nt fuel g fl entry) todo tt with
    | Ok _ => Forall (entry_clean fuel g fl) g
    | Raise e =>
        ∃ before nt prods after,
          g = before ++ (nt, prods) :: after ∧
          Forall (entry_clean fuel g fl) before ∧
          ambiguity_failure fuel g fl nt prods e
    | OutOfFuel => False
    end.
Proof.
  intros Hknown. induction todo as [|[nt prods] todo IH];
    intros before Hg Hbefore; cbn [for_each].
  - rewrite app_nil_r in Hg. by subst before.
  - assert (Hin : (nt, prods) ∈ g).
    { rewrite Hg. apply elem_of_app. right. left. }
    pose proof (ambiguity_nt_spec fuel g fl nt prods
                  (λ p Hp, firsts_known_elem fuel g nt prods p Hknown Hin Hp))
      as Hnt.
    destruct (ambiguity_nt fuel g fl (nt, prods)) as [[]|e|]; [|by eauto 8|done].
    apply (IH (before ++ [(nt, prods)])).
    + by rewrite <- app_assoc.
    + apply Forall_app. split; [done|]. by constructor.
Qed.

(** C3, as amended: when [follow_sets] returns and the FIRST set of every
    production is computed, [check_ambiguity] returns normally exactly
    when no entry shows a conflict, and raises exactly when some entry
    does; the exception it raises comes from the first entry in conflict:
    "ambiguous grammar" when the first production sharing something with
    the running union shares exactly [EMPTY], "unsupported grammar" with
    one of the shared tokens when it shares a token, and otherwise the
    FIRST/FOLLOW error with a token common to both sets. *)
Theorem check_ambiguity_exact fuel (g : grammar) goal fl :
  follow_sets fuel g goal = Ok fl →
  firsts_known fuel g →
  (check_ambiguity fuel g goal = Ok tt ↔
     ∀ entry, entry ∈ g → entry_clean fuel g fl entry) ∧
  (raises (check_ambiguity fuel g goal) ↔
     ∃ entry, entry ∈ g ∧ ¬ entry_clean fuel g fl entry) ∧
  (∀ e, check_ambiguity fuel g goal = Raise e →
     ∃ before nt prods after,
       g = before ++ (nt, prods) :: after ∧
       Forall (entry_clean fuel g fl) before ∧
       ambiguity_failure fuel g fl nt prods e).
Proof.
  intros Hfl Hknown. unfold check_ambiguity. rewrite Hfl.
  pose proof (ambiguity_loop_spec fuel g fl Hknown g [] eq_refl
                ltac:(constructor)) as H.
  destruct (for_each _ g tt) as [[]|e|]; [| |done].
  - split; [|split].
    + split; [|done]. intros _. by apply Forall_forall.
    + split; [intros [e He]; done|].
      intros (entry & Hin & Hno). destruct Hno.
      eapply Forall_forall in H; done.
    + done.
  - destruct H as (before & nt & prods & after & Hg & Hbefore & Hfail).
    assert (Hin : (nt, prods) ∈ g).
    { rewrite Hg. apply elem_of_app. right. left. }
    pose proof (ambiguity_failure_not_clean _ _ _ _ _ _ Hfail) as Hno.
    split; [|split].
    + split; [done|]. intros Hall. destruct Hno. by apply Hall.
    + split; [by eauto|]. intros _. by exists e.
    + intros e' [= <-]. by eauto 8.
Qed.

(* ------------------------------------------------------------------ *)
(** *** The dictionary after an assignment *)

Lemma g_lookup_set (g : grammar) k v k' :
  g_lookup (g_set g k v) k' = if decide (k = k') then Some v else g_lookup g k'.
Proof.
  induction g as [|[k0 w] g IH]; simpl.
  - by destruct (decide (k = k')).
  - destruct (decide (k0 = k)) as [->|Hne]; simpl.
    + by destruct (decide (k = k')).
    + destruct (decide (k0 = k')) as [->|Hne'].
      * by rewrite decide_False by done.
      * done.
Qed.

Lemma g_lookup_set_eq (g : grammar) k v : g_lookup (g_set g k v) k = Some v.
Proof. rewrite g_lookup_set. by rewrite decide_True. Qed.

Lemma g_lookup_set_ne (g : grammar) k v k' :
  k ≠ k' → g_lookup (g_set g k v) k' = g_lookup g k'.
Proof. intros. rewrite g_lookup_set. by rewrite decide_False. Qed.

Lemma keys_set_old (g : grammar) k v :
  k ∈ keys g → keys (g_set g k v) = keys g.
Proof.
  unfold keys. induction g as [|[k0 w] g IH]; simpl; intros Hk.
  - inversion Hk.
  - destruct (decide (k0 = k)) as [->|Hne]; simpl; [done|].
    f_equal. apply IH. apply elem_of_cons in Hk as [?|?]; [congruence|done].
Qed.

Lemma keys_set_new (g : grammar) k v :
  k ∉ keys g → keys (g_set g k v) = keys g ++ [k].
Proof.
  unfold keys. induction g as [|[k0 w] g IH]; simpl; intros Hk; [done|].
  destruct (decide (k0 = k)) as [->|Hne]; simpl.
  - destruct Hk. left.
  - f_equal. apply IH. intros Hin. apply Hk. by right.
Qed.

Lemma g_get_Ok (g : grammar) nt v : g_get g nt = Ok v ↔ g_lookup g nt = Some v.
Proof.
  unfold g_get. destruct (g_lookup g nt); split; intros H; by simplify_eq.
Qed.

Lemma g_get_key (g : grammar) nt : nt ∈ keys g → ∃ v, g_get g nt = Ok v.
Proof.
  intros [v Hv]%g_lookup_is_Some. exists v. by apply g_get_Ok.
Qed.

(** *** [gensym] *)

Lemma string_app_cons c (a b : string) : String c a +:+ b = String c (a +:+ b).
Proof. reflexivity. Qed.

Lemma string_app_nil_r (s : string) : s +:+ "" = s.
Proof. induction s as [|c s IH]; [done|]. by rewrite string_app_cons, IH. Qed.

Lemma string_app_assoc (a b c : string) : (a +:+ b) +:+ c = a +:+ (b +:+ c).
Proof. induction a as [|x a IH]; [done|]. by rewrite !string_app_cons, IH. Qed.

Lemma string_app_length (a b : string) :
  String.length (a +:+ b) = String.length a + String.length b.
Proof.
  induction a as [|x a IH]; [done|]. rewrite string_app_cons. simpl. by rewrite IH.
Qed.

Lemma str_is_nt_app (a b : string) :
  str_is_nt a = true → str_is_nt (a +:+ b) = true.
Proof. destruct a; [done|]. by rewrite string_app_cons. Qed.

Lemma gensym_loop_spec fuel (g : grammar) :
  ∀ nt e, gensym_loop fuel g nt = Ok e →
    (e ∉ keys g) ∧ ∃ n, e = nt +:+ underscores n.
Proof.
  induction fuel as [|fuel IH]; intros nt e; simpl.
  - destruct (g_mem nt g) eqn:Hmem; [done|]. intros [= <-].
    split; [by apply g_mem_false|]. exists 0. by rewrite string_app_nil_r.
  - destruct (g_mem nt g) eqn:Hmem.
    + intros H. apply IH in H as [? [n ->]]. split; [done|].
      exists (S n). by rewrite string_app_assoc.
    + intros [= <-]. split; [by apply g_mem_false|]. exists 0.
      by rewrite string_app_nil_r.
Qed.

Lemma long_filter_le (l : list string) (n m : nat) :
  n ≤ m →
  length (filter (λ k, m ≤ String.length k) l) ≤
  length (filter (λ k, n ≤ String.length k) l).
Proof.
  intros Hnm. induction l as [|k l IH]; [done|].
  rewrite !filter_cons. repeat case_decide; simpl; lia.
Qed.

Lemma long_filter_lt (l : list string) (nt : string) :
  nt ∈ l →
  length (filter (λ k, S (String.length nt) ≤ String.length k) l) <
  length (filter (λ k, String.length nt ≤ String.length k) l).
Proof.
  induction l as [|k l IH]; intros Hin; [inversion Hin|].
  rewrite !filter_cons.
  apply elem_of_cons in Hin as [<-|Hin].
  - rewrite decide_False by lia. rewrite decide_True by lia. simpl.
    apply Nat.lt_succ_r. apply long_filter_le. lia.
  - specialize (IH Hin). repeat case_decide; simpl; lia.
Qed.

Lemma gensym_loop_total fuel (g : grammar) :
  ∀ nt, length (long_keys g nt) ≤ fuel → returns (gensym_loop fuel g nt).
Proof.
  induction fuel as [|fuel IH]; intros nt Hlen; simpl.
  - destruct (g_mem nt g) eqn:Hmem; [|by eexists].
    apply g_mem_true in Hmem.
    assert (nt ∈ long_keys g nt) as Hin.
    { unfold long_keys. apply list_elem_of_filter. split; [lia|done]. }
    destruct (long_keys g nt); [inversion Hin|simpl in Hlen; lia].
  - destruct (g_mem nt g) eqn:Hmem; [|by eexists].
    apply g_mem_true in Hmem. apply IH.
    pose proof (long_filter_lt (keys g) nt Hmem) as Hlt.
    unfold long_keys in *. rewrite string_app_length. simpl.
    replace (String.length nt + 1) with (S (String.length nt)) by lia. lia.
Qed.

Lemma gensym_total (g : grammar) nt :
  str_is_nt nt = true →
  ∃ e, gensym g nt = Ok e ∧ (e ∉ keys g) ∧ str_is_nt e = true ∧
       ∃ n, e = nt +:+ underscores n.
Proof.
  intros Hnt. unfold gensym. rewrite Hnt.
  destruct (gensym_loop_total (length g) g nt) as [e He].
  { unfold long_keys. etrans; [apply length_filter|].
    unfold keys. by rewrite length_fmap. }
  exists e. split; [done|]. apply gensym_loop_spec in He as [? [n ->]].
  split; [done|]. split; [by apply str_is_nt_app|by exists n].
Qed.

Lemma gensym_fresh (g : grammar) nt e :
  gensym g nt = Ok e → (e ∉ keys g) ∧ ∃ n, e = nt +:+ underscores n.
Proof.
  unfold gensym. destruct (str_is_nt nt); [|done]. apply gensym_loop_spec.
Qed.

(* ------------------------------------------------------------------ *)
Lemma starts_with_cons b x rest rest' :
  starts_with b (x :: rest) = starts_with b (x :: rest').
Proof. by destruct x. Qed.

Lemma starts_with_true b r : starts_with b r = true ↔ ∃ rest, r = Str b :: rest.
Proof.
  destruct r as [|[s|] rest]; simpl.
  - split; [done|]. by intros [? ?].
  - rewrite bool_decide_eq_true. split.
    + intros ->. by eexists.
    + by intros [? [= ->]].
  - split; [done|]. by intros [? ?].
Qed.

Lemma core_app k0 r1 r2 : core k0 (r1 ++ r2) = core k0 r1 ++ core k0 r2.
Proof. unfold core. apply List.filter_app. Qed.

Lemma core_eq_strip k0 (r : production) :
  (∀ s, Str s ∈ r → str_is_nt s = true → s ∈ k0) → core k0 r = strip r.
Proof.
  induction r as [|x r IH]; intros H; [done|].
  unfold core, strip in *. simpl.
  rewrite IH by (intros s Hs; apply H; by right).
  destruct x as [s|]; simpl; [|done].
  destruct (str_is_nt s) eqn:Hs; simpl; [|done].
  rewrite bool_decide_eq_true_2; [done|]. apply H; [left|done].
Qed.

(** Membership in the lists built by the two rewriting steps. *)
Lemma elem_of_inlined (to_nt : string) (from_rules to_rules : list production) r :
  r ∈ List.filter (λ r, negb (starts_with to_nt r)) from_rules ++
      flat_map (λ c, map (λ a, c ++ tail a)
                         (List.filter (starts_with to_nt) from_rules))
               to_rules ↔
  (r ∈ from_rules ∧ starts_with to_nt r = false) ∨
  (∃ c a, c ∈ to_rules ∧ (Str to_nt :: a) ∈ from_rules ∧ r = c ++ a).
Proof.
  rewrite elem_of_app, !list_elem_of_In, filter_In, in_flat_map,
    negb_true_iff.
  split.
  - intros [?|(c & Hc & Hin)]; [by left|]. right.
    apply in_map_iff in Hin as (a & <- & Ha). apply filter_In in Ha as [Ha Hs].
    apply starts_with_true in Hs as [rest ->].
    exists c, rest. by rewrite !list_elem_of_In.
  - intros [?|(c & a & Hc & Ha & ->)]; [by left|]. right.
    exists c. rewrite <- list_elem_of_In. split; [done|].
    apply in_map_iff. exists (Str to_nt :: a). split; [done|].
    apply filter_In. rewrite <- list_elem_of_In. split; [done|].
    apply starts_with_true. by eexists.
Qed.

Lemma elem_of_kept (nt e : string) (rules : list production) r :
  r ∈ map (λ r, r ++ [Str e])
          (List.filter (λ r, negb (starts_with nt r)) rules) ↔
  ∃ r0, r0 ∈ rules ∧ starts_with nt r0 = false ∧ r = r0 ++ [Str e].
Proof.
  rewrite list_elem_of_In, in_map_iff. split.
  - intros (r0 & <- & Hin). apply filter_In in Hin as [Hin Hs].
    exists r0. rewrite list_elem_of_In. by apply negb_true_iff in Hs.
  - intros (r0 & Hin & Hs & ->). exists r0. split; [done|].
    apply filter_In. rewrite <- list_elem_of_In. by rewrite Hs.
Qed.

Lemma elem_of_epilogue (nt e : string) (rules : list production) r :
  r ∈ [] :: map (λ r, tail r ++ [Str e])
                (List.filter (starts_with nt) rules) ↔
  r = [] ∨ ∃ a, (Str nt :: a) ∈ rules ∧ r = a ++ [Str e].
Proof.
  rewrite elem_of_cons, list_elem_of_In, in_map_iff. split.
  - intros [?|(r0 & <- & Hin)]; [by left|]. right.
    apply filter_In in Hin as [Hin Hs].
    apply starts_with_true in Hs as [rest ->].
    exists rest. by rewrite list_elem_of_In.
  - intros [?|(a & Hin & ->)]; [by left|]. right.
    exists (Str nt :: a). split; [done|].
    apply filter_In. rewrite <- list_elem_of_In. split; [done|].
    apply starts_with_true. by eexists.
Qed.

Lemma existsb_starts_with nt (rules : list production) :
  existsb (starts_with nt) rules = false →
  ∀ r, r ∈ rules → starts_with nt r = false.
Proof.
  intros H r Hr. apply list_elem_of_In in Hr.
  destruct (starts_with nt r) eqn:Hs; [|done].
  assert (existsb (starts_with nt) rules = true); [|congruence].
  apply existsb_exists. eauto.
Qed.

(* ------------------------------------------------------------------ *)
Section Elimination.
Variable g0 : grammar.
Variables Pfirst Psym : symbol → Prop.
Hypothesis Hnodup0 : NoDup (keys g0).
Hypothesis Hnt0 : ∀ k, k ∈ keys g0 → str_is_nt k = true.
Hypothesis Hrules : ¬ violates_rules g0.
Hypothesis Hpsym : ∀ e, str_is_nt e = true → Psym (Str e).
Hypothesis Hfirst0 : ∀ a prods x rest,
  g_lookup g0 a = Some prods → (x :: rest) ∈ prods → Pfirst x.
Hypothesis Hsym0 : ∀ a prods r x,
  g_lookup g0 a = Some prods → r ∈ prods → x ∈ r → Psym x.

Lemma rule1_holds a prods r s :
  g_lookup g0 a = Some prods → r ∈ prods → Str s ∈ r →
  str_is_nt s = true → s ∈ keys g0.
Proof.
  intros Ha Hr Hs Hnt. apply g_lookup_is_Some.
  destruct (g_lookup g0 s) eqn:Hl; [by eexists|].
  destruct Hrules. left. by exists a, prods, r, s.
Qed.

Lemma elim_inv_init : elim_inv g0 Pfirst Psym [] [] g0.
Proof.
  constructor.
  - by rewrite app_nil_r.
  - done.
  - intros a Ha. inversion Ha.
  - intros e He. inversion He.
  - apply rule1_holds.
  - apply Hsym0.
  - intros a prods r Ha Hl Hr.
    destruct r as [|x rest].
    + destruct Hrules. right; right. by exists a, prods, [].
    + exists x, rest. split; [done|]. split; [by eapply Hfirst0|].
      intros s -> Hs. eapply rule1_holds; [done..|left|done].
  - intros a prods r Ha Hl Hr.
    rewrite core_eq_strip by (intros s; by eapply rule1_holds).
    split.
    + intros Hs. destruct Hrules. right; right. by exists a, prods, r.
    + intros b Hb Hnt. apply tc_once. by exists prods, r.
  - intros d1 a d2 prods r b Hd. by destruct d1.
  - intros e1 e e2 prods r He. by destruct e1.
Qed.

Lemma core_sym_key k : k ∈ keys g0 → core_sym (keys g0) (Str k) = true.
Proof.
  intros Hk. simpl. rewrite bool_decide_eq_true_2 by done.
  apply orb_true_r.
Qed.

Lemma core_cons_key k a :
  k ∈ keys g0 → core (keys g0) (Str k :: a) = Str k :: core (keys g0) a.
Proof.
  intros Hk. unfold core. cbn [List.filter]. by rewrite core_sym_key.
Qed.

Lemma core_sym_epilogue e :
  str_is_nt e = true → e ∉ keys g0 → core_sym (keys g0) (Str e) = false.
Proof.
  intros He Hk. simpl. rewrite He. simpl. by rewrite bool_decide_eq_false_2.
Qed.

Lemma elc_step done eps g iname j d1 d2 :
  elim_inv g0 Pfirst Psym done eps g →
  iname ∈ keys g0 → iname ∉ done → done = d1 ++ j :: d2 →
  no_left_call g iname d1 →
  ∃ g', eliminate_left_calls g iname j = Ok g' ∧
        elim_inv g0 Pfirst Psym done eps g' ∧
        no_left_call g' iname (d1 ++ [j]).
Proof.
  intros Hinv Hi Hnd Hdone Hnlc.
  pose proof (inv_defined _ _ _ _ _ _ Hinv) as Idef.
  pose proof (inv_sym _ _ _ _ _ _ Hinv) as Isym.
  pose proof (inv_first _ _ _ _ _ _ Hinv) as Ifirst.
  pose proof (inv_core _ _ _ _ _ _ Hinv) as Icore.
  pose proof (inv_order _ _ _ _ _ _ Hinv) as Iorder.
  pose proof (inv_epi _ _ _ _ _ _ Hinv) as Iepi.
  assert (Hjd : j ∈ done) by (subst done; set_solver).
  assert (Hj : j ∈ keys g0) by (by eapply inv_done).
  assert (Hij : iname ≠ j) by (intros ->; done).
  assert (Hik : iname ∈ keys g).
  { rewrite (inv_keys _ _ _ _ _ _ Hinv). set_solver. }
  assert (Hjk : j ∈ keys g).
  { rewrite (inv_keys _ _ _ _ _ _ Hinv). set_solver. }
  apply g_lookup_is_Some in Hik as Hfrom. destruct Hfrom as [from_rules Hfrom].
  apply g_lookup_is_Some in Hjk as Hto. destruct Hto as [to_rules Hto].
  unfold eliminate_left_calls, g_get. rewrite Hfrom, Hto. simpl.
  eexists. split; [reflexivity|].
  set (new := List.filter _ from_rules ++ _).
  assert (Hnew : ∀ r, r ∈ new ↔
    (r ∈ from_rules ∧ starts_with j r = false) ∨
    (∃ c a, c ∈ to_rules ∧ (Str j :: a) ∈ from_rules ∧ r = c ++ a))
    by (intros r; apply elem_of_inlined).
  clearbody new.
  assert (Hkeys : keys (g_set g iname new) = keys g) by (by apply keys_set_old).
  split; [constructor|].
  - rewrite Hkeys. by eapply inv_keys.
  - rewrite Hkeys. by eapply inv_nodup.
  - by eapply inv_done.
  - by eapply inv_eps_nt.
  - (* every nonterminal is defined *)
    intros a prods r s Hl Hr Hs Hnt. rewrite Hkeys.
    rewrite g_lookup_set in Hl. destruct (decide (iname = a)) as [<-|Hne].
    + injection Hl as <-.
      apply Hnew in Hr as [[Hr _]|(c & a & Hc & Ha & ->)].
      * by eapply (Idef iname from_rules r).
      * apply elem_of_app in Hs as [Hs|Hs].
        -- by eapply (Idef j to_rules c).
        -- eapply (Idef iname from_rules (Str j :: a)); [done..| |done].
           by right.
    + by eapply (Idef a prods r).
  - intros a prods r x Hl Hr Hx.
    rewrite g_lookup_set in Hl. destruct (decide (iname = a)) as [<-|Hne].
    + injection Hl as <-.
      apply Hnew in Hr as [[Hr _]|(c & a & Hc & Ha & ->)].
      * by eapply (Isym iname from_rules r).
      * apply elem_of_app in Hx as [Hx|Hx].
        -- by eapply (Isym j to_rules c).
        -- eapply (Isym iname from_rules (Str j :: a)); [done..|]. by right.
    + by eapply (Isym a prods r).
  - intros a prods r Ha Hl Hr.
    rewrite g_lookup_set in Hl. destruct (decide (iname = a)) as [<-|Hne].
    + injection Hl as <-.
      apply Hnew in Hr as [[Hr _]|(c & a & Hc & Ha' & ->)].
      * by eapply (Ifirst iname from_rules r).
      * destruct (Ifirst j to_rules c Hj Hto Hc)
          as (x & rest & -> & Hx & Hx').
        by exists x, (rest ++ a).
    + by eapply (Ifirst a prods r).
  - intros a prods r Ha Hl Hr.
    rewrite g_lookup_set in Hl. destruct (decide (iname = a)) as [<-|Hne].
    + injection Hl as <-.
      apply Hnew in Hr as [[Hr _]|(c & a & Hc & Ha' & ->)].
      * by eapply (Icore iname from_rules r).
      * destruct (Icore j to_rules c Hj Hto Hc) as [Hc1 Hc2].
        destruct (Icore iname from_rules _ Hi Hfrom Ha') as [_ Ha2].
        rewrite core_app. split.
        -- intros Happ. apply app_eq_nil in Happ as [? _]. done.
        -- intros b Hb Hbnt.
           destruct (core (keys g0) c) as [|y [|y' c']] eqn:Hcc; [done| |].
           ++ simpl in Hb. injection Hb as -> Hb.
              transitivity j; [|by apply Hc2].
              apply Ha2; [|by apply Hnt0].
              rewrite core_cons_key by done. by rewrite Hb.
           ++ simpl in Hb. by destruct (core (keys g0) a).
    + by eapply (Icore a prods r).
  - intros e1 a e2 prods r b Hd Hl Hr Hb.
    assert (a ≠ iname).
    { intros ->. apply Hnd. rewrite Hd. set_solver. }
    rewrite g_lookup_set_ne in Hl by done.
    by eapply (Iorder e1 a e2 prods r).
  - intros e1 e e2 prods r He Hl Hr.
    assert (e ≠ iname).
    { intros ->. pose proof (inv_nodup _ _ _ _ _ _ Hinv) as Hnd'.
      rewrite (inv_keys _ _ _ _ _ _ Hinv) in Hnd'.
      apply NoDup_app in Hnd' as (_ & Hdisj & _).
      apply (Hdisj iname Hi). rewrite He. set_solver. }
    rewrite g_lookup_set_ne in Hl by done.
    by eapply (Iepi e1 e e2 prods r).
  - intros prods r b Hl Hr Hb. rewrite g_lookup_set_eq in Hl.
    injection Hl as <-.
    apply Hnew in Hr as [[Hr Hs]|(c & a & Hc & Ha' & ->)].
    + apply elem_of_app in Hb as [Hb|Hb].
      * by eapply Hnlc.
      * apply list_elem_of_singleton in Hb as ->. done.
    + destruct (Ifirst j to_rules c Hj Hto Hc) as (x & rest & -> & _).
      change ((x :: rest) ++ a) with (x :: (rest ++ a)).
      rewrite (starts_with_cons b x (rest ++ a) rest).
      by eapply (Iorder d1 j d2 to_rules (x :: rest)).
Qed.

Lemma app_snoc_split {A} (l : list A) x d1 a d2 :
  l ++ [x] = d1 ++ a :: d2 →
  (d2 = [] ∧ a = x ∧ d1 = l) ∨ (∃ d2', d2 = d2' ++ [x] ∧ l = d1 ++ a :: d2').
Proof.
  destruct d2 as [|y d2' _] using rev_ind; intros Heq.
  - left. apply app_inj_tail in Heq as [-> ->]. done.
  - right. rewrite app_comm_cons, app_assoc in Heq.
    apply app_inj_tail in Heq as [-> ->]. by exists d2'.
Qed.

Lemma eilr_step done eps g iname :
  elim_inv g0 Pfirst Psym done eps g →
  iname ∈ keys g0 → iname ∉ done →
  no_left_call g iname done →
  ∃ g' eps',
    eliminate_immediate_left_recursion g iname = Ok g' ∧
    elim_inv g0 Pfirst Psym (done ++ [iname]) eps' g'.
Proof.
  intros Hinv Hi Hnd Hnlc.
  pose proof (inv_keys _ _ _ _ _ _ Hinv) as Ikeys.
  pose proof (inv_nodup _ _ _ _ _ _ Hinv) as Inodup.
  pose proof (inv_done _ _ _ _ _ _ Hinv) as Idone.
  pose proof (inv_eps_nt _ _ _ _ _ _ Hinv) as Ieps.
  pose proof (inv_defined _ _ _ _ _ _ Hinv) as Idef.
  pose proof (inv_sym _ _ _ _ _ _ Hinv) as Isym.
  pose proof (inv_first _ _ _ _ _ _ Hinv) as Ifirst.
  pose proof (inv_core _ _ _ _ _ _ Hinv) as Icore.
  pose proof (inv_order _ _ _ _ _ _ Hinv) as Iorder.
  pose proof (inv_epi _ _ _ _ _ _ Hinv) as Iepi.
  assert (Hik : iname ∈ keys g) by (rewrite Ikeys; set_solver).
  apply g_lookup_is_Some in Hik as Hrules'. destruct Hrules' as [rules Hlk].
  unfold eliminate_immediate_left_recursion, g_get. rewrite Hlk. simpl.
  destruct (existsb (starts_with iname) rules) eqn:Hex.
  - (* an epilogue is made *)
    destruct (gensym_total g iname (Hnt0 iname Hi)) as (e & -> & Hfresh & Hent & _).
    simpl. eexists. exists (eps ++ [e]). split; [reflexivity|].
    set (epi_prods := [] :: _). set (new := map _ _).
    assert (Hepi : ∀ r, r ∈ epi_prods ↔
      r = [] ∨ ∃ a, (Str iname :: a) ∈ rules ∧ r = a ++ [Str e])
      by (intros r; apply elem_of_epilogue).
    assert (Hnew : ∀ r, r ∈ new ↔
      ∃ r0, r0 ∈ rules ∧ starts_with iname r0 = false ∧ r = r0 ++ [Str e])
      by (intros r; apply elem_of_kept).
    clearbody epi_prods new.
    assert (Hei : e ≠ iname) by (intros ->; done).
    assert (He0 : e ∉ keys g0) by (rewrite Ikeys in Hfresh; set_solver).
    assert (Hk1 : keys (g_set g e epi_prods) = keys g ++ [e])
      by (by apply keys_set_new).
    assert (Hk' : keys (g_set (g_set g e epi_prods) iname new) = keys g ++ [e]).
    { rewrite keys_set_old; [done|]. rewrite Hk1. set_solver. }
    assert (Hlk' : ∀ a, g_lookup (g_set (g_set g e epi_prods) iname new) a =
                        if decide (iname = a) then Some new
                        else if decide (e = a) then Some epi_prods
                        else g_lookup g a).
    { intros a. by rewrite !g_lookup_set. }
    assert (Hcore_e : ∀ r, core (keys g0) (r ++ [Str e]) = core (keys g0) r).
    { intros r. rewrite core_app. unfold core at 2. cbn [List.filter].
      rewrite core_sym_epilogue by done. by rewrite app_nil_r. }
    constructor.
    + rewrite Hk', Ikeys. by rewrite app_assoc.
    + rewrite Hk'. apply NoDup_app. split; [done|]. split.
      * intros x Hx Hx'. apply list_elem_of_singleton in Hx' as ->. done.
      * apply NoDup_singleton.
    + intros a Ha. apply elem_of_app in Ha as [Ha|Ha]; [by apply Idone|].
      by apply list_elem_of_singleton in Ha as ->.
    + intros e' He'. apply elem_of_app in He' as [He'|He']; [by apply Ieps|].
      by apply list_elem_of_singleton in He' as ->.
    + intros a prods r s Hl Hr Hs Hs'. rewrite Hk'. rewrite Hlk' in Hl.
      destruct (decide (iname = a)) as [<-|Hne]; [|destruct (decide (e = a)) as [<-|Hne']].
      * injection Hl as <-. apply Hnew in Hr as (r0 & Hr0 & _ & ->).
        apply elem_of_app in Hs as [Hs|Hs].
        -- apply elem_of_app. left. by eapply (Idef iname rules r0).
        -- apply list_elem_of_singleton in Hs as [= ->]. set_solver.
      * injection Hl as <-. apply Hepi in Hr as [->|(a & Ha & ->)].
        -- inversion Hs.
        -- apply elem_of_app in Hs as [Hs|Hs].
           ++ apply elem_of_app. left.
              eapply (Idef iname rules (Str iname :: a)); [done..| |done].
              by right.
           ++ apply list_elem_of_singleton in Hs as [= ->]. set_solver.
      * apply elem_of_app. left. by eapply (Idef a prods r).
    + intros a prods r x Hl Hr Hx. rewrite Hlk' in Hl.
      destruct (decide (iname = a)) as [<-|Hne]; [|destruct (decide (e = a)) as [<-|Hne']].
      * injection Hl as <-. apply Hnew in Hr as (r0 & Hr0 & _ & ->).
        apply elem_of_app in Hx as [Hx|Hx].
        -- by eapply (Isym iname rules r0).
        -- apply list_elem_of_singleton in Hx as ->. by apply Hpsym.
      * injection Hl as <-. apply Hepi in Hr as [->|(a & Ha & ->)].
        -- inversion Hx.
        -- apply elem_of_app in Hx as [Hx|Hx].
           ++ eapply (Isym iname rules (Str iname :: a)); [done..|]. by right.
           ++ apply list_elem_of_singleton in Hx as ->. by apply Hpsym.
      * by eapply (Isym a prods r).
    + intros a prods r Ha Hl Hr. rewrite Hlk' in Hl.
      destruct (decide (iname = a)) as [<-|Hne]; [|destruct (decide (e = a)) as [<-|Hne']].
      * injection Hl as <-. apply Hnew in Hr as (r0 & Hr0 & _ & ->).
        destruct (Ifirst iname rules r0 Hi Hlk Hr0) as (x & rest & -> & ? & ?).
        by exists x, (rest ++ [Str e]).
      * done.
      * by eapply (Ifirst a prods r).
    + intros a prods r Ha Hl Hr. rewrite Hlk' in Hl.
      destruct (decide (iname = a)) as [<-|Hne]; [|destruct (decide (e = a)) as [<-|Hne']].
      * injection Hl as <-. apply Hnew in Hr as (r0 & Hr0 & _ & ->).
        rewrite Hcore_e. by eapply (Icore iname rules r0).
      * done.
      * by eapply (Icore a prods r).
    + intros d1 a d2 prods r b Hd Hl Hr Hb. rewrite Hlk' in Hl.
      apply app_snoc_split in Hd as [(-> & -> & ->)|(d2' & -> & Hd)].
      * rewrite decide_True in Hl by done. injection Hl as <-.
        apply Hnew in Hr as (r0 & Hr0 & Hs & ->).
        destruct (Ifirst iname rules r0 Hi Hlk Hr0) as (x & rest & -> & _).
        change ((x :: rest) ++ [Str e]) with (x :: (rest ++ [Str e])).
        rewrite (starts_with_cons b x (rest ++ [Str e]) rest).
        apply elem_of_app in Hb as [Hb|Hb].
        -- by eapply (Hnlc rules).
        -- by apply list_elem_of_singleton in Hb as ->.
      * assert (Had : a ∈ done) by (rewrite Hd; set_solver).
        rewrite decide_False in Hl by (intros <-; done).
        rewrite decide_False in Hl by (intros <-; by apply He0, Idone).
        by eapply (Iorder d1 a d2' prods r).
    + intros e1 e' e2 prods r He Hl Hr. rewrite Hlk' in Hl.
      apply app_snoc_split in He as [(-> & -> & ->)|(e2' & -> & He)].
      * rewrite decide_False in Hl by done.
        rewrite decide_True in Hl by done. injection Hl as <-.
        apply Hepi in Hr as [->|(a & Ha & ->)]; [by left|]. right.
        exists a. split; [done|]. split.
        -- intros Hca.
           destruct (Icore iname rules _ Hi Hlk Ha) as [_ Hunit].
           destruct Hrules. right; left. exists iname.
           apply Hunit; [|by apply Hnt0].
           rewrite core_cons_key by done. by rewrite Hca.
        -- intros s Hs Hs'. rewrite <- Ikeys.
           eapply (Idef iname rules (Str iname :: a)); [done..| |done].
           by right.
      * assert (He' : e' ∈ eps) by (rewrite He; set_solver).
        assert (e' ∈ keys g) by (rewrite Ikeys; set_solver).
        rewrite decide_False in Hl.
        2:{ intros <-. rewrite Ikeys in Inodup.
            apply NoDup_app in Inodup as (_ & Hdisj & _). by apply (Hdisj iname). }
        rewrite decide_False in Hl by (intros <-; done).
        by eapply (Iepi e1 e' e2' prods r).
  - (* nothing to do *)
    exists g, eps. split; [done|].
    constructor; try done.
    + intros a Ha. apply elem_of_app in Ha as [Ha|Ha]; [by apply Idone|].
      by apply list_elem_of_singleton in Ha as ->.
    + intros d1 a d2 prods r b Hd Hl Hr Hb.
      apply app_snoc_split in Hd as [(-> & -> & ->)|(d2' & -> & Hd)].
      * rewrite Hlk in Hl. injection Hl as <-.
        apply elem_of_app in Hb as [Hb|Hb].
        -- by eapply (Hnlc rules).
        -- apply list_elem_of_singleton in Hb as ->.
           by apply (existsb_starts_with iname rules).
      * by eapply (Iorder d1 a d2' prods r).
Qed.

Lemma left_calls_loop_spec done eps iname :
  iname ∈ keys g0 → iname ∉ done →
  ∀ d2 d1 g, done = d1 ++ d2 →
    elim_inv g0 Pfirst Psym done eps g → no_left_call g iname d1 →
    ∃ g', left_calls_loop g iname d2 = (g', Ok tt) ∧
          elim_inv g0 Pfirst Psym done eps g' ∧
          no_left_call g' iname done.
Proof.
  intros Hi Hnd. induction d2 as [|j d2 IH]; intros d1 g Hd Hinv Hnlc.
  - rewrite app_nil_r in Hd. subst d1. by exists g.
  - destruct (elc_step done eps g iname j d1 d2 Hinv Hi Hnd Hd Hnlc)
      as (g1 & Hstep & Hinv1 & Hnlc1).
    cbn [left_calls_loop]. rewrite Hstep. cbn [and_then].
    apply (IH (d1 ++ [j])); [|done..]. by rewrite <- app_assoc.
Qed.

Lemma eliminate_loop_spec :
  ∀ todo done eps g,
    elim_inv g0 Pfirst Psym done eps g →
    NoDup (done ++ todo) → (∀ a, a ∈ todo → a ∈ keys g0) →
    ∃ g' eps', eliminate_loop g done todo = (g', Ok tt) ∧
               elim_inv g0 Pfirst Psym (done ++ todo) eps' g'.
Proof.
  induction todo as [|iname rest IH]; intros done eps g Hinv Hnd Hk.
  - rewrite app_nil_r. by exists g, eps.
  - assert (Hi : iname ∈ keys g0) by (apply Hk; left).
    assert (Hnot : iname ∉ done).
    { apply NoDup_app in Hnd as (_ & Hdisj & _). intros Hin.
      apply (Hdisj iname Hin). left. }
    destruct (left_calls_loop_spec done eps iname Hi Hnot done [] g eq_refl Hinv)
      as (g1 & Hloop & Hinv1 & Hnlc1).
    { intros prods r b _ _ Hb. inversion Hb. }
    destruct (eilr_step done eps g1 iname Hinv1 Hi Hnot Hnlc1)
      as (g2 & eps2 & Hstep & Hinv2).
    cbn [eliminate_loop]. rewrite Hloop, Hstep. cbn [and_then].
    destruct (IH (done ++ [iname]) eps2 g2 Hinv2) as (g' & eps' & Hres & Hinv').
    + by rewrite <- app_assoc.
    + intros a Ha. apply Hk. by right.
    + exists g', eps'. split; [done|]. by rewrite <- app_assoc in Hinv'.
Qed.

Lemma quasisort_perm ntnames :
  quasisort_nts g0 = Ok ntnames → ntnames ≡ₚ keys g0.
Proof.
  unfold quasisort_nts.
  destruct (for_each _ _ _) as [[out stack]| |]; try done.
  case_bool_decide as Hperm; [|done]. intros [= <-].
  by rewrite reverse_Permutation.
Qed.

Lemma eliminate_spec ntnames :
  quasisort_nts g0 = Ok ntnames →
  ∃ g' eps, eliminate_left_recursion g0 = (g', Ok tt) ∧
            elim_inv g0 Pfirst Psym ntnames eps g'.
Proof.
  intros Hq. unfold eliminate_left_recursion. rewrite Hq.
  apply quasisort_perm in Hq.
  apply (eliminate_loop_spec ntnames [] [] g0 elim_inv_init).
  - simpl. by rewrite Hq.
  - intros a Ha. by rewrite <- Hq.
Qed.
End Elimination.

(* ------------------------------------------------------------------ *)
Section Quasisort.
Variable g : grammar.
Hypothesis Hnodup : NoDup (keys g).
Hypothesis Hdefined : ∀ a prods s rest,
  g_lookup g a = Some prods → (Str s :: rest) ∈ prods →
  str_is_nt s = true → s ∈ keys g.

Lemma visit_rules_spec rec stack all_prods a :
  visit_ok g rec stack → g_lookup g a = Some all_prods →
  ∀ rules out, rules ⊆ all_prods → NoDup out →
    ∃ new, visit_grows g stack out
             (for_each (visit_rule rec) rules (out, stack)) new.
Proof.
  intros Hrec Ha. induction rules as [|r rules IH]; intros out Hsub Hout.
  - exists []. unfold visit_grows. rewrite app_nil_r.
    split; [done|]. split; [done|]. intros x Hx. inversion Hx.
  - assert (Hr : r ∈ all_prods) by (apply Hsub; left).
    assert (Hrules : rules ⊆ all_prods) by (intros x Hx; apply Hsub; by right).
    assert (Hskip : visit_rule rec r (out, stack) = Ok (out, stack) →
      ∃ new, visit_grows g stack out
               (for_each (visit_rule rec) (r :: rules) (out, stack)) new).
    { intros Heq. cbn [for_each]. rewrite Heq. by apply IH. }
    destruct r as [|[s|tn ti ac] rest];
      [apply Hskip; reflexivity| |apply Hskip; reflexivity].
    destruct (str_is_nt s) eqn:Hs; [|apply Hskip; simpl; by rewrite Hs].
    destruct (decide (s ∈ stack)) as [Hin|Hnin].
    { apply Hskip. simpl. rewrite Hs. by rewrite bool_decide_eq_true_2. }
    assert (Hsk : s ∈ keys g) by (by eapply Hdefined).
    destruct (Hrec s out Hsk Hnin Hout) as (new1 & (Hres & Hnd1 & Hnew1) & _).
    destruct (IH (out ++ new1) Hrules Hnd1) as (new2 & Hres2 & Hnd2 & Hnew2).
    exists (new1 ++ new2). split; [|split].
    + cbn [for_each visit_rule]. rewrite Hs. simpl.
      rewrite bool_decide_eq_false_2 by done. rewrite Hres.
      by rewrite app_assoc.
    + by rewrite app_assoc.
    + intros x Hx. apply elem_of_app in Hx as [?|?]; eauto.
Qed.

Lemma visit_spec fuel :
  ∀ stack, NoDup stack → (∀ x, x ∈ stack → x ∈ keys g) →
    length (keys g) < fuel + length stack →
    visit_ok g (visit fuel g) stack.
Proof.
  induction fuel as [|fuel IH]; intros stack Hst Hsub Hfuel s out Hs Hnin Hout.
  - apply NoDup_submseteq in Hsub; [|done].
    apply submseteq_length in Hsub. simpl in Hfuel. lia.
  - cbn [visit]. simpl. case_bool_decide as Hin.
    + exists []. unfold visit_grows. rewrite app_nil_r.
      split; [|done]. split; [done|].
      split; [done|]. intros x Hx. inversion Hx.
    + apply g_lookup_is_Some in Hs as Hl. destruct Hl as [prods Hl].
      rewrite Hl.
      assert (Hrec : visit_ok g (visit fuel g) (stack ++ [s])).
      { apply IH.
        - apply NoDup_app. split; [done|]. split; [|apply NoDup_singleton].
          intros x Hx Hx'. by apply list_elem_of_singleton in Hx' as ->.
        - intros x Hx. apply elem_of_app in Hx as [?|Hx]; [by apply Hsub|].
          by apply list_elem_of_singleton in Hx as ->.
        - rewrite length_app. simpl. lia. }
      destruct (visit_rules_spec _ _ prods s Hrec Hl prods out)
        as (new & Hres & Hnd & Hnew); [done..|].
      rewrite Hres. simpl. rewrite removelast_last.
      exists (new ++ [s]). unfold visit_grows. rewrite !app_assoc.
      split; [|set_solver]. split; [done|]. split.
      * apply NoDup_app. split; [done|]. split; [|apply NoDup_singleton].
        intros x Hx Hx'. apply list_elem_of_singleton in Hx' as ->.
        apply elem_of_app in Hx as [?|Hx]; [done|].
        apply Hnew in Hx as [Hx _]. set_solver.
      * intros x Hx. apply elem_of_app in Hx as [Hx|Hx].
        -- apply Hnew in Hx as [Hx ?]. split; [set_solver|done].
        -- by apply list_elem_of_singleton in Hx as ->.
Qed.

Lemma visit_all_spec fuel :
  length (keys g) < fuel →
  ∀ l out, (∀ x, x ∈ l → x ∈ keys g) → NoDup out →
    (∀ x, x ∈ out → x ∈ keys g) →
    ∃ out', for_each (visit fuel g) l (out, []) = Ok (out', []) ∧
            NoDup out' ∧ (∀ x, x ∈ out' → x ∈ keys g) ∧
            (∀ x, x ∈ out ++ l → x ∈ out').
Proof.
  intros Hfuel. induction l as [|nt l IH]; intros out Hl Hout Hsub.
  - exists out. rewrite app_nil_r. by cbn.
  - destruct (visit_spec fuel [] (NoDup_nil_2) ltac:(by intros x Hx; inversion Hx)
                ltac:(simpl; lia) nt out)
      as (new & (Hres & Hnd & Hnew) & Hnt); [apply Hl; left|by inversion 1|done|].
    destruct (IH (out ++ new)) as (out' & Hres' & Hnd' & Hsub' & Hall); [| |  |].
    + intros x Hx. apply Hl. by right.
    + done.
    + intros x Hx. apply elem_of_app in Hx as [?|Hx]; [by apply Hsub|].
      by apply Hnew.
    + exists out'. cbn [for_each]. rewrite Hres. split; [done|].
      split; [done|]. split; [done|].
      intros x Hx. apply Hall. set_solver.
Qed.

Lemma quasisort_total : ∃ ntnames, quasisort_nts g = Ok ntnames.
Proof.
  unfold quasisort_nts.
  destruct (visit_all_spec (S (length g))
              ltac:(unfold keys; rewrite length_fmap; lia)
              (keys g) [] ltac:(done) (NoDup_nil_2)
              ltac:(by intros x Hx; inversion Hx))
    as (out & -> & Hnd & Hsub & Hall).
  - exists (reverse out). rewrite bool_decide_eq_true_2; [done|].
    apply NoDup_Permutation; [done..|]. intros x. split; [|by apply Hsub].
    intros Hx. apply Hall. by simpl.
Qed.
End Quasisort.

(* ------------------------------------------------------------------ *)
Section FinalGrammar.
Variable g0 : grammar.
Variables Pfirst Psym : symbol → Prop.
Variables (ntnames eps : list string) (g' : grammar).
Hypothesis Hwf : wf_grammar g0.
Hypothesis Hperm : ntnames ≡ₚ keys g0.
Hypothesis Hinv : elim_inv g0 Pfirst Psym ntnames eps g'.

Lemma final_key_cases x : x ∈ keys g' ↔ x ∈ ntnames ∨ x ∈ eps.
Proof.
  rewrite (inv_keys _ _ _ _ _ _ Hinv), elem_of_app. by rewrite Hperm.
Qed.

Lemma final_key_nt x : x ∈ keys g' → str_is_nt x = true.
Proof.
  intros [Hx|Hx]%final_key_cases.
  - destruct Hwf as [_ Hnt]. rewrite Forall_forall in Hnt.
    apply Hnt. by rewrite <- Hperm.
  - by eapply inv_eps_nt.
Qed.

Lemma final_disjoint x : x ∈ ntnames → x ∈ eps → False.
Proof.
  intros Hx Hx'. pose proof (inv_nodup _ _ _ _ _ _ Hinv) as Hnd.
  rewrite (inv_keys _ _ _ _ _ _ Hinv) in Hnd.
  apply NoDup_app in Hnd as (_ & Hdisj & _).
  apply (Hdisj x); [by rewrite <- Hperm|done].
Qed.

Lemma final_nodup_names : NoDup ntnames.
Proof. rewrite Hperm. apply Hwf. Qed.

Lemma final_nodup_eps : NoDup eps.
Proof.
  pose proof (inv_nodup _ _ _ _ _ _ Hinv) as Hnd.
  rewrite (inv_keys _ _ _ _ _ _ Hinv) in Hnd.
  by apply NoDup_app in Hnd as (_ & _ & ?).
Qed.

Lemma key_rank x : x ∈ keys g' → ∃ n, rank_is ntnames eps x n.
Proof.
  intros [Hx|Hx]%final_key_cases.
  - apply list_elem_of_lookup in Hx as [i Hi]. eexists. left. eauto.
  - apply list_elem_of_lookup in Hx as [m Hm]. eexists. right. eauto.
Qed.

Lemma rank_fun x n m :
  rank_is ntnames eps x n → rank_is ntnames eps x m → n = m.
Proof.
  intros [(i & Hi & ->)|(i & Hi & ->)] [(j & Hj & ->)|(j & Hj & ->)].
  - by rewrite (NoDup_lookup _ _ _ _ final_nodup_names Hi Hj).
  - destruct (final_disjoint x); by eapply list_elem_of_lookup_2.
  - destruct (final_disjoint x); by eapply list_elem_of_lookup_2.
  - by rewrite (NoDup_lookup _ _ _ _ final_nodup_eps Hi Hj).
Qed.

Lemma rank_original x n :
  x ∈ keys g0 → rank_is ntnames eps x n → n < length ntnames.
Proof.
  intros Hx [(i & Hi & ->)|(m & Hm & ->)].
  - apply lookup_lt_Some in Hi. lia.
  - destruct (final_disjoint x); [by rewrite Hperm|].
    by eapply list_elem_of_lookup_2.
Qed.

Lemma original_rank x :
  x ∈ keys g0 → ∃ n, rank_is ntnames eps x n ∧ n < length ntnames.
Proof.
  intros Hx. destruct (key_rank x) as [n Hn].
  - apply final_key_cases. left. by rewrite Hperm.
  - exists n. split; [done|]. by eapply rank_original.
Qed.

(** Left calls go down in the order. *)
Lemma left_call_rank x y n :
  left_call g' x y → y ∈ keys g' → rank_is ntnames eps x n →
  ∃ m, rank_is ntnames eps y m ∧ m < n.
Proof.
  intros (prods & rest & Hl & Hr) Hy Hn.
  pose proof (final_key_nt y Hy) as Hynt.
  destruct Hn as [(i & Hi & ->)|(m & Hm & ->)].
  - assert (Hx0 : x ∈ keys g0).
    { rewrite <- Hperm. by eapply list_elem_of_lookup_2. }
    destruct (inv_first _ _ _ _ _ _ Hinv x prods _ Hx0 Hl Hr)
      as (z & rest' & [= <- <-] & _ & Hz).
    specialize (Hz y eq_refl Hynt).
    assert (Hyn : y ∈ ntnames) by (by rewrite Hperm).
    apply list_elem_of_lookup in Hyn as [j Hj].
    exists (length ntnames - 1 - j). split; [left; eauto|].
    apply lookup_lt_Some in Hi as Hilt. apply lookup_lt_Some in Hj as Hjlt.
    assert (i < j); [|lia].
    destruct (decide (i < j)) as [|Hge]; [done|]. exfalso.
    assert (Hin : y ∈ take i ntnames ++ [x]).
    { rewrite <- (take_S_r _ _ _ Hi).
      apply list_elem_of_lookup. exists j. rewrite lookup_take_lt by lia. done. }
    pose proof (inv_order _ _ _ _ _ _ Hinv (take i ntnames) x
                  (drop (S i) ntnames) prods (Str y :: rest) y) as Hord.
    rewrite take_drop_middle in Hord by done.
    specialize (Hord eq_refl Hl Hr Hin). simpl in Hord.
    by rewrite bool_decide_eq_true_2 in Hord.
  - pose proof (inv_epi _ _ _ _ _ _ Hinv (take m eps) x (drop (S m) eps)
                  prods (Str y :: rest)) as Hepi.
    rewrite take_drop_middle in Hepi by done.
    destruct (Hepi eq_refl Hl Hr) as [?|(alpha & Heq & Hcore & Hsyms)]; [done|].
    destruct alpha as [|z alpha]; [done|].
    injection Heq as <- _.
    pose proof (Hsyms y ltac:(left) Hynt) as Hy'.
    apply elem_of_app in Hy' as [Hy0|Hye].
    + destruct (original_rank y Hy0) as (k & Hk & Hlt).
      exists k. split; [done|]. lia.
    + apply list_elem_of_lookup in Hye as [k Hk].
      apply lookup_take_Some in Hk as [Hk Hlt].
      exists (length ntnames + k). split; [right; eauto|]. lia.
Qed.

Lemma left_call_key x y : left_call g' x y → x ∈ keys g'.
Proof.
  intros (prods & rest & Hl & _). apply g_lookup_is_Some. eauto.
Qed.

Lemma left_chain_rank x z :
  tc (left_call g') x z →
  ∀ n, rank_is ntnames eps x n → z ∈ keys g' →
       ∃ m, rank_is ntnames eps z m ∧ m < n.
Proof.
  induction 1 as [x z Hxz|x y z Hxy Hyz IH]; intros n Hn Hz.
  - by eapply left_call_rank.
  - assert (Hy : y ∈ keys g').
    { inversion Hyz; subst; by eapply left_call_key. }
    destruct (left_call_rank x y n Hxy Hy Hn) as (m & Hm & Hlt).
    destruct (IH m Hm Hz) as (k & Hk & Hlt'). exists k. split; [done|]. lia.
Qed.

Lemma no_left_recursion x : ¬ tc (left_call g') x x.
Proof.
  intros Hcyc.
  assert (Hx : x ∈ keys g').
  { inversion Hcyc; subst; by eapply left_call_key. }
  destruct (key_rank x Hx) as [n Hn].
  destruct (left_chain_rank x x Hcyc n Hn Hx) as (m & Hm & Hlt).
  rewrite (rank_fun x n m Hn Hm) in Hlt. lia.
Qed.
End FinalGrammar.

Lemma check_ok_rules (g : grammar) : check g = Ok tt → ¬ violates_rules g.
Proof.
  intros Hc. destruct (check_cases g) as [[_ ?]|[[e He] _]]; [done|congruence].
Qed.

Lemma eliminate_runs (g : grammar) (Pfirst Psym : symbol → Prop) :
  wf_grammar g → check g = Ok tt →
  (∀ e, str_is_nt e = true → Psym (Str e)) →
  (∀ a prods x rest,
      g_lookup g a = Some prods → (x :: rest) ∈ prods → Pfirst x) →
  (∀ a prods r x, g_lookup g a = Some prods → r ∈ prods → x ∈ r → Psym x) →
  ∃ ntnames eps g',
    ntnames ≡ₚ keys g ∧
    eliminate_left_recursion g = (g', Ok tt) ∧
    elim_inv g Pfirst Psym ntnames eps g'.
Proof.
  intros [Hnd Hnt] Hc%check_ok_rules Hpsym Hfirst Hsym.
  rewrite Forall_forall in Hnt.
  destruct (quasisort_total g Hnd) as [ntnames Hq].
  { intros a prods s rest Ha Hr Hs.
    eapply rule1_holds; [done..|left|done]. }
  destruct (eliminate_spec g Pfirst Psym Hnd Hnt Hc Hpsym Hfirst Hsym ntnames Hq)
    as (g' & eps & Hres & Hinv).
  exists ntnames, eps, g'. split; [by eapply quasisort_perm|done].
Qed.

(** C2: on a grammar that passes [check], [eliminate_left_recursion]
    returns, and in the grammar it leaves no production of any
    nonterminal, epilogues included, begins with that nonterminal, and no
    nonterminal reaches itself through a chain of leading symbols. *)
Theorem eliminate_no_left_recursion (g : grammar) :
  wf_grammar g → check g = Ok tt →
  ∃ g', eliminate_left_recursion g = (g', Ok tt) ∧
        (∀ a, ¬ left_call g' a a) ∧
        (∀ a, ¬ tc (left_call g') a a).
Proof.
  intros Hwf Hc.
  destruct (eliminate_runs g (λ _, True) (λ _, True) Hwf Hc)
    as (ntnames & eps & g' & Hperm & Hres & Hinv); [done..|].
  exists g'. split; [done|].
  assert (Hacyc : ∀ a, ¬ tc (left_call g') a a)
    by (intros a; by eapply no_left_recursion).
  split; [|done]. intros a Ha. apply (Hacyc a). by apply tc_once.
Qed.

(* ------------------------------------------------------------------ *)
Lemma seq_loop_blocked (st : symbol → result strset) acc seq :
  EMPTY ∉ acc → seq_loop st acc seq = Ok acc.
Proof.
  intros Hacc. destruct seq; simpl; [done|]. by rewrite bool_decide_eq_false_2.
Qed.

Lemma seq_loop_solid (st : symbol → result strset) x rest :
  ∀ pre acc,
    (∀ y, y ∈ pre → st y ≠ OutOfFuel) → solid (st x) →
    seq_loop st acc (pre ++ x :: rest) ≠ OutOfFuel.
Proof.
  intros pre. induction pre as [|y pre IH]; intros acc Hpre [Hx1 Hx2]; simpl.
  - case_bool_decide; [|done].
    destruct (st x) as [s| |] eqn:Hx; [|done..].
    rewrite seq_loop_blocked; [done|]. specialize (Hx2 s eq_refl). set_solver.
  - case_bool_decide; [|done].
    specialize (Hpre y ltac:(left)) as Hy.
    destruct (st y) as [s| |] eqn:Hsy; [|done..].
    apply IH; [|done]. intros z Hz. apply Hpre. by right.
Qed.

Lemma seq_loop_first_solid (st : symbol → result strset) x rest :
  solid (st x) → solid (seq_loop st {[EMPTY]} (x :: rest)).
Proof.
  intros [Hx1 Hx2]. simpl. rewrite bool_decide_eq_true_2 by set_solver.
  destruct (st x) as [s| |] eqn:Hx; [|done..].
  specialize (Hx2 s eq_refl).
  rewrite seq_loop_blocked by set_solver.
  split; [done|]. intros s' [= <-]. set_solver.
Qed.

Lemma map_result_terminates {A B} (f : A → result B) (l : list A) :
  (∀ x, x ∈ l → f x ≠ OutOfFuel) → map_result f l ≠ OutOfFuel.
Proof.
  induction l as [|x l IH]; intros Hl; simpl; [done|].
  specialize (Hl x ltac:(left)) as Hx.
  destruct (f x) as [y| |]; [|done..].
  assert (map_result f l ≠ OutOfFuel) as Hl'.
  { apply IH. intros z Hz. apply Hl. by right. }
  by destruct (map_result f l).
Qed.

Lemma map_result_elem {A B} (f : A → result B) (l : list A) ys y :
  map_result f l = Ok ys → y ∈ ys → ∃ x, x ∈ l ∧ f x = Ok y.
Proof.
  revert ys. induction l as [|x l IH]; intros ys; simpl.
  - intros [= <-] Hy. inversion Hy.
  - destruct (f x) as [y0| |] eqn:Hx; try done.
    destruct (map_result f l) as [ys'| |]; try done.
    intros [= <-] Hy. apply elem_of_cons in Hy as [->|Hy].
    + exists x. split; [left|done].
    + destruct (IH ys' eq_refl Hy) as (x' & ? & ?). exists x'. split; [by right|done].
Qed.

Lemma set_union_star_solid (sets : list strset) :
  (∀ s, s ∈ sets → EMPTY ∉ s) → solid (set_union_star sets).
Proof.
  intros Hsets. destruct sets as [|s0 sets]; simpl; [by split|].
  split; [done|]. intros s [= <-]. intros Hin.
  apply elem_of_union in Hin as [Hin|Hin].
  - by apply (Hsets s0 ltac:(left)).
  - apply elem_of_union_list in Hin as (s & Hs & Hin).
    apply (Hsets s); [by right|done].
Qed.

Lemma core_split k0 (alpha : production) :
  core k0 alpha ≠ [] →
  ∃ pre x post, alpha = pre ++ x :: post ∧ core_sym k0 x = true ∧
                ∀ y, y ∈ pre → core_sym k0 y = false.
Proof.
  induction alpha as [|z alpha IH]; [done|].
  unfold core. cbn [List.filter]. destruct (core_sym k0 z) eqn:Hz.
  - intros _. exists [], z, alpha. split; [done|]. split; [done|].
    intros y Hy. inversion Hy.
  - intros Hne. destruct (IH Hne) as (pre & x & post & -> & Hx & Hpre).
    exists (z :: pre), x, post. split; [done|]. split; [done|].
    intros y Hy. apply elem_of_cons in Hy as [->|Hy]; [done|by apply Hpre].
Qed.

Section StartTerminates.
Variable g0 : grammar.
Variables (ntnames eps : list string) (g' : grammar).
Hypothesis Hwf : wf_grammar g0.
Hypothesis Hperm : ntnames ≡ₚ keys g0.
Hypothesis Hinv : elim_inv g0 leads_well not_sentinel ntnames eps g'.

Lemma start_key fuel x prods :
  str_is_nt x = true → g_lookup g' x = Some prods →
  start (S fuel) g' (Str x) =
  match map_result (seq_loop (start fuel g') {[EMPTY]}) prods with
  | Ok sets => set_union_star sets
  | Raise e => Raise e
  | OutOfFuel => OutOfFuel
  end.
Proof.
  intros Hx Hl. cbn [start]. rewrite Hx. unfold g_get. rewrite Hl. done.
Qed.

Lemma start_terminal fuel x :
  str_is_nt x = false → start fuel g' (Str x) = Ok {[x]}.
Proof. intros Hx. destruct fuel; simpl; by rewrite Hx. Qed.

Lemma start_by_rank n :
  ∀ x, rank_is ntnames eps x n → x ∈ keys g' →
    ∀ fuel, n < fuel →
      start fuel g' (Str x) ≠ OutOfFuel ∧
      (x ∈ keys g0 → solid (start fuel g' (Str x))).
Proof.
  induction n as [n IH] using lt_wf_ind.
  intros x Hn Hx [|fuel] Hfuel; [lia|].
  pose proof (final_key_nt g0 _ _ ntnames eps g' Hwf Hperm Hinv x Hx) as Hxnt.
  apply g_lookup_is_Some in Hx as Hl. destruct Hl as [prods Hl].
  rewrite (start_key fuel x prods Hxnt Hl).
  (* what the symbols below [x] give *)
  assert (Hlow : ∀ y m, rank_is ntnames eps y m → m < n → y ∈ keys g' →
            start fuel g' (Str y) ≠ OutOfFuel ∧
            (y ∈ keys g0 → solid (start fuel g' (Str y)))).
  { intros y m Hm Hlt Hy. apply (IH m Hlt y Hm Hy). lia. }
  assert (Hcore : ∀ s, core_sym (keys g0) (Str s) = true → s ≠ EMPTY →
            (str_is_nt s = true →
             ∃ m, rank_is ntnames eps s m ∧ m < n) →
            solid (start fuel g' (Str s))).
  { intros s Hs Hne Hrank. destruct (str_is_nt s) eqn:Hsnt.
    - simpl in Hs. rewrite Hsnt in Hs. simpl in Hs.
      apply bool_decide_eq_true in Hs.
      destruct (Hrank eq_refl) as (m & Hm & Hlt).
      apply (Hlow s m Hm Hlt); [|done].
      apply (final_key_cases g0 _ _ ntnames eps g' Hperm Hinv). left.
      by rewrite Hperm.
    - rewrite start_terminal by done. split; [done|].
      intros s' [= <-]. set_solver. }
  destruct (decide (x ∈ keys g0)) as [Hx0|Hx0].
  - (* a nonterminal of the input grammar *)
    assert (Hprods : ∀ r, r ∈ prods →
              solid (seq_loop (start fuel g') {[EMPTY]} r)).
    { intros r Hr.
      destruct (inv_first _ _ _ _ _ _ Hinv x prods r Hx0 Hl Hr)
        as (z & rest & -> & [Hz1 Hz2] & Hz3).
      apply seq_loop_first_solid.
      destruct z as [s|]; [|done].
      apply Hcore.
      - simpl. destruct (str_is_nt s) eqn:Hs; [|done]. simpl.
        apply bool_decide_eq_true. by apply Hz3.
      - intros ->. done.
      - intros Hs. eapply (left_call_rank g0 _ _ ntnames eps g' Hwf Hperm Hinv x s n).
        + by exists prods, rest.
        + apply (final_key_cases g0 _ _ ntnames eps g' Hperm Hinv). left.
          rewrite Hperm. by apply Hz3.
        + done. }
    assert (Hmap : map_result (seq_loop (start fuel g') {[EMPTY]}) prods
                   ≠ OutOfFuel).
    { apply map_result_terminates. intros r Hr. by apply Hprods. }
    destruct (map_result _ prods) as [sets| |] eqn:Hsets; [|by split..|done].
    assert (Hsolid : solid (set_union_star sets)).
    { apply set_union_star_solid. intros s Hs.
      destruct (map_result_elem _ _ _ _ Hsets Hs) as (r & Hr & Hrs).
      by apply (Hprods r Hr). }
    split; [apply Hsolid|done].
  - (* an epilogue *)
    split; [|done].
    assert (Hxe : ∃ m, eps !! m = Some x ∧ n = length ntnames + m).
    { destruct Hn as [(i & Hi & _)|?]; [|done]. destruct Hx0.
      rewrite <- Hperm. by eapply list_elem_of_lookup_2. }
    destruct Hxe as (m & Hm & ->).
    assert (Hmap : map_result (seq_loop (start fuel g') {[EMPTY]}) prods
                   ≠ OutOfFuel).
    { apply map_result_terminates. intros r Hr.
      pose proof (inv_epi _ _ _ _ _ _ Hinv (take m eps) x (drop (S m) eps)
                    prods r) as Hepi.
      rewrite take_drop_middle in Hepi by done.
      destruct (Hepi eq_refl Hl Hr) as [->|(alpha & -> & Hca & Hsyms)]; [done|].
      destruct (core_split _ _ Hca) as (pre & z & post & -> & Hz & Hpre).
      rewrite <- app_assoc. rewrite <- app_comm_cons.
      apply seq_loop_solid.
      - intros y Hy. specialize (Hpre y Hy).
        destruct y as [s|]; [|by destruct fuel].
        simpl in Hpre. apply orb_false_iff in Hpre as [Hs Hs0].
        apply negb_false_iff in Hs. apply bool_decide_eq_false in Hs0.
        assert (Hin : s ∈ keys g0 ++ take m eps).
        { apply Hsyms; [|done]. set_solver. }
        apply elem_of_app in Hin as [?|Hin]; [done|].
        apply list_elem_of_lookup in Hin as [k Hk].
        apply lookup_take_Some in Hk as [Hk Hlt].
        destruct (Hlow s (length ntnames + k)) as [Hres _];
          [right; eauto|lia| |done].
        apply (final_key_cases g0 _ _ ntnames eps g' Hperm Hinv). right.
        by eapply list_elem_of_lookup_2.
      - destruct z as [s|]; [|done].
        apply Hcore; [done| |].
        + intros ->.
          apply (inv_sym _ _ _ _ _ _ Hinv x prods _ (Str EMPTY) Hl Hr); [|done].
          set_solver.
        + intros Hs. simpl in Hz. rewrite Hs in Hz. simpl in Hz.
          apply bool_decide_eq_true in Hz.
          destruct (original_rank g0 _ _ ntnames eps g' Hperm Hinv s Hz)
            as (k & Hk & Hlt).
          exists k. split; [done|]. lia. }
    destruct (map_result _ prods) as [sets| |]; [|done..].
    by destruct sets.
Qed.

Lemma start_always_terminates sym : start_terminates g' sym.
Proof.
  destruct sym as [x|]; [|by exists 0].
  destruct (str_is_nt x) eqn:Hx.
  - destruct (decide (x ∈ keys g')) as [Hk|Hk].
    + destruct (key_rank g0 _ _ ntnames eps g' Hperm Hinv x Hk) as [n Hn].
      exists (S n). destruct (start_by_rank n x Hn Hk (S n)) as [Hres _]; [lia|done].
    + exists 1. simpl. rewrite Hx. unfold g_get.
      apply g_lookup_None in Hk. by rewrite Hk.
  - exists 0. by rewrite start_terminal.
Qed.
End StartTerminates.

Lemma g_lookup_elem (g : grammar) a prods :
  g_lookup g a = Some prods → (a, prods) ∈ g.
Proof.
  induction g as [|[k v] g IH]; simpl; [done|].
  destruct (decide (k = a)) as [->|Hne].
  - intros [= ->]. left.
  - intros H. right. by apply IH.
Qed.

Lemma plain_grammar_elem (g : grammar) a prods r :
  plain_grammar g = true → g_lookup g a = Some prods → r ∈ prods →
  (∀ x rest, r = x :: rest → is_reduction x = false) ∧ Str EMPTY ∉ r.
Proof.
  unfold plain_grammar. rewrite forallb_forall. intros Hall Hl Hr.
  apply g_lookup_elem, list_elem_of_In in Hl. specialize (Hall _ Hl).
  simpl in Hall. rewrite forallb_forall in Hall.
  apply list_elem_of_In in Hr. specialize (Hall _ Hr).
  unfold plain_production in Hall. apply andb_true_iff in Hall as [H1 H2].
  apply negb_true_iff, bool_decide_eq_false in H2. split; [|done].
  intros x rest ->. by apply negb_true_iff in H1.
Qed.

(** C6, as amended: for a grammar with nonterminal-named keys that passes
    [check], in which no production begins with a reduction marker and no
    production holds the string of the [EMPTY] sentinel as a symbol,
    [eliminate_left_recursion] returns, and on the grammar it leaves the
    recursion of [start] comes to an end for every symbol. *)
Theorem start_terminates_after_elimination (g : grammar) :
  wf_grammar g → check g = Ok tt → plain_grammar g = true →
  ∃ g', eliminate_left_recursion g = (g', Ok tt) ∧
        ∀ sym, start_terminates g' sym.
Proof.
  intros Hwf Hc Hplain.
  destruct (eliminate_runs g leads_well not_sentinel Hwf Hc)
    as (ntnames & eps & g' & Hperm & Hres & Hinv).
  - intros e He [= ->]. done.
  - intros a prods x rest Ha Hr.
    destruct (plain_grammar_elem g a prods _ Hplain Ha Hr) as [Hfirst Hsym].
    split; [by eapply Hfirst|]. intros ->. apply Hsym. left.
  - intros a prods r x Ha Hr Hx ->.
    by destruct (plain_grammar_elem g a prods r Hplain Ha Hr) as [_ Hsym].
  - exists g'. split; [done|]. intros sym.
    by eapply start_always_terminates.
Qed.

(* ------------------------------------------------------------------ *)
Lemma grown_refl (g : grammar) : grown (keys g) g.
Proof.
  exists []. split; [by rewrite app_nil_r|]. intros n1 k n2 H. by destruct n1.
Qed.

Lemma grown_keys k0 (g1 g2 : grammar) :
  keys g2 = keys g1 → grown k0 g1 → grown k0 g2.
Proof. intros Hk (news & Hn & Hall). exists news. by rewrite Hk. Qed.

Lemma grown_step k0 (g1 g2 : grammar) nt e :
  grown k0 g1 → gensym g1 nt = Ok e → keys g2 = keys g1 ++ [e] →
  grown k0 g2.
Proof.
  intros (news & Hn & Hall) He Hk. exists (news ++ [e]). split.
  - by rewrite Hk, Hn, app_assoc.
  - intros n1 k n2 Hsplit.
    apply app_snoc_split in Hsplit as [(-> & -> & ->)|(n2' & -> & ->)].
    + exists g1, nt. split; [done|]. split; [done|].
      by destruct (gensym_fresh _ _ _ He).
    + by eapply Hall.
Qed.

Lemma eliminate_left_calls_keys (g g' : grammar) from_nt to_nt :
  eliminate_left_calls g from_nt to_nt = Ok g' → keys g' = keys g.
Proof.
  unfold eliminate_left_calls, g_get.
  destruct (g_lookup g from_nt) as [from_rules|] eqn:Hfrom; [|done]. simpl.
  destruct (g_lookup g to_nt) as [to_rules|]; [|done]. simpl.
  intros [= <-]. apply keys_set_old. apply g_lookup_is_Some. eauto.
Qed.

Lemma eliminate_immediate_keys k0 (g g' : grammar) nt :
  eliminate_immediate_left_recursion g nt = Ok g' → grown k0 g → grown k0 g'.
Proof.
  unfold eliminate_immediate_left_recursion, g_get.
  destruct (g_lookup g nt) as [rules|] eqn:Hl; [|done]. simpl.
  destruct (existsb _ rules); [|by intros [= <-]].
  destruct (gensym g nt) as [e| |] eqn:He; [|done..]. simpl.
  intros [= <-] Hg. eapply grown_step; [done..|].
  pose proof (gensym_fresh g nt e He) as [Hfresh _].
  rewrite keys_set_old.
  - by apply keys_set_new.
  - rewrite keys_set_new by done. apply elem_of_app. left.
    apply g_lookup_is_Some. eauto.
Qed.

Lemma left_calls_loop_keys iname :
  ∀ earlier (g : grammar), keys (left_calls_loop g iname earlier).1 = keys g.
Proof.
  induction earlier as [|j earlier IH]; intros g; [done|].
  cbn [left_calls_loop].
  destruct (eliminate_left_calls g iname j) as [g1| |] eqn:Hstep; [|done..].
  cbn [and_then]. rewrite IH. by eapply eliminate_left_calls_keys.
Qed.

Lemma eliminate_loop_grown k0 :
  ∀ todo earlier (g : grammar),
    grown k0 g → grown k0 (eliminate_loop g earlier todo).1.
Proof.
  induction todo as [|iname rest IH]; intros earlier g Hg; [done|].
  cbn [eliminate_loop].
  pose proof (left_calls_loop_keys iname earlier g) as Hk.
  destruct (left_calls_loop g iname earlier) as [g1 [[]|e|]]; simpl in Hk.
  - destruct (eliminate_immediate_left_recursion g1 iname) as [g2| |] eqn:Hstep;
      cbn [and_then].
    + apply IH. eapply eliminate_immediate_keys; [done|]. by eapply grown_keys.
    + by eapply grown_keys.
    + by eapply grown_keys.
  - by eapply grown_keys.
  - by eapply grown_keys.
Qed.

(** C10: whatever its outcome, [eliminate_left_recursion] keeps every
    key, and the keys it adds come after them, each one returned by
    [gensym] for a grammar of which it was not a key. *)
Theorem eliminate_keeps_keys (g : grammar) :
  (∀ k, k ∈ keys g → k ∈ keys (eliminate_left_recursion g).1) ∧
  grown (keys g) (eliminate_left_recursion g).1.
Proof.
  assert (Hg : grown (keys g) (eliminate_left_recursion g).1).
  { unfold eliminate_left_recursion.
    destruct (quasisort_nts g) as [ntnames| |]; [|apply grown_refl..].
    apply eliminate_loop_grown, grown_refl. }
  split; [|done]. destruct Hg as (news & -> & _). set_solver.
Qed.

Lemma start_reduction fuel (g : grammar) tag_name tag_index arg_count :
  start fuel g (Reduction tag_name tag_index arg_count) = Ok {[EMPTY]}.
Proof. by destruct fuel. Qed.

Lemma leading_reduction_diverges fuel :
  start fuel leading_reduction_grammar (Str "a") = OutOfFuel.
Proof.
  induction fuel as [|fuel IH]; [done|].
  cbn [start]. change (str_is_nt "a") with true. cbv iota.
  change (g_get leading_reduction_grammar "a")
    with (Ok [[Reduction "a" 0 0; Str "a"; Str "X"]] : result (list production)).
  unfold mbind, result_mbind, result_bind.
  cbn [map_result seq_loop].
  rewrite bool_decide_eq_true_2 by set_solver.
  rewrite start_reduction.
  rewrite bool_decide_eq_true_2 by set_solver.
  by rewrite IH.
Qed.

(** C6, as stated, fails: this grammar passes [check],
    [eliminate_left_recursion] leaves it as it is, and [start] on its
    nonterminal never comes to an end. *)
Lemma start_diverges_counterexample :
  wf_grammar leading_reduction_grammar ∧
  check leading_reduction_grammar = Ok tt ∧
  eliminate_left_recursion leading_reduction_grammar =
    (leading_reduction_grammar, Ok tt) ∧
  ¬ start_terminates leading_reduction_grammar (Str "a").
Proof.
  split; [|split; [|split]].
  - unfold wf_grammar. apply (bool_decide_unpack _). vm_compute. exact I.
  - vm_compute. reflexivity.
  - vm_compute. reflexivity.
  - intros [fuel Hfuel]. apply Hfuel. apply leading_reduction_diverges.
Qed.

(* ------------------------------------------------------------------ *)
(** *** [seq_start] restated by recursion on the sequence *)

Lemma seq_start_has_empty fuel (g : grammar) :
  ∀ seq s, seq_start fuel g seq = Ok s →
    (∀ x, x ∈ seq → ∃ sx, start_is g x sx ∧ EMPTY ∈ sx) → EMPTY ∈ s.
Proof.
  induction seq as [|x rest IH]; intros s.
  - rewrite seq_start_nil. intros [= <-] _. set_solver.
  - rewrite seq_start_cons.
    destruct (start fuel g x) as [sx| |] eqn:Hx; try done.
    intros Hs Hall.
    destruct (Hall x ltac:(left)) as (sx' & Hx' & Hin).
    assert (sx' = sx) as -> by (eapply start_is_functional; [done|by exists fuel]).
    rewrite bool_decide_eq_true_2 in Hs by done.
    destruct (seq_start fuel g rest) as [r| |] eqn:Hr; try done.
    simpl in Hs. injection Hs as <-. apply elem_of_union. right.
    apply (IH r eq_refl). intros y Hy. apply Hall. by right.
Qed.

(** C4: [seq_start] of the empty sequence is [{EMPTY}]; [seq_start] of
    [x :: rest] is [start x] when that set has no [EMPTY], and
    [(start x - {EMPTY}) | seq_start rest] when it has; so a start set of
    a sequence has [EMPTY] exactly when the start set of each of its
    symbols has. *)
Theorem seq_start_restated (g : grammar) :
  seq_start_is g [] {[EMPTY]} ∧
  (∀ x rest s,
      start_is g x s → EMPTY ∉ s → seq_start_is g (x :: rest) s) ∧
  (∀ x rest s r,
      start_is g x s → EMPTY ∈ s → seq_start_is g rest r →
      seq_start_is g (x :: rest) (s ∖ {[EMPTY]} ∪ r)) ∧
  (∀ seq s,
      seq_start_is g seq s →
      (EMPTY ∈ s ↔ ∀ x, x ∈ seq → ∃ sx, start_is g x sx ∧ EMPTY ∈ sx)).
Proof.
  split; [|split; [|split]].
  - by exists 0.
  - intros x rest s [fuel Hx] Hs. exists fuel.
    rewrite seq_start_cons, Hx. by rewrite bool_decide_eq_false_2.
  - intros x rest s r [f1 Hx] Hs [f2 Hr]. exists (f1 `max` f2).
    rewrite seq_start_cons.
    assert (start (f1 `max` f2) g x = Ok s) as ->.
    { rewrite <- Hx. apply start_fuel_mono; [lia|]. by rewrite Hx. }
    assert (seq_start (f1 `max` f2) g rest = Ok r) as ->.
    { rewrite <- Hr. apply seq_start_fuel_mono; [lia|]. by rewrite Hr. }
    by rewrite bool_decide_eq_true_2.
  - intros seq s [fuel Hs]. split.
    + intros Hin x Hx.
      destruct (proj1 (seq_start_empty_iff fuel g seq s Hs) Hin x Hx)
        as (sx & Hsx & ?).
      exists sx. split; [by exists fuel|done].
    + by eapply seq_start_has_empty.
Qed.

(* ------------------------------------------------------------------ *)
(** *** [generate_parser] *)

Lemma augment_keys (g : grammar) : keys (augment g) = keys g.
Proof.
  unfold keys, augment. induction g as [|[k v] g IH]; [done|].
  simpl. by f_equal.
Qed.

Lemma augment_lookup (g : grammar) nt prods :
  g_lookup g nt = Some prods →
  g_lookup (augment g) nt =
  Some (imap (λ i prod, prod ++ [Reduction nt i (length prod)]) prods).
Proof.
  induction g as [|[k v] g IH]; simpl; [done|].
  destruct (decide (k = nt)) as [->|Hne]; [by intros [= ->]|done].
Qed.

(** C5: [generate_parser] runs its pipeline on the augmented grammar, in
    which the production of index [i] of [nt] is the original one followed
    by the single marker [Reduction(nt, i, len(prod))]. *)
Theorem generate_parser_augments fuel (h : heap) out grammar_ref goal
    (g : grammar) :
  h !! grammar_ref = Some g →
  generate_parser fuel h out grammar_ref goal =
    (let '(g', out', r) := pipeline fuel (augment g) out goal in
     (<[fresh (dom h) := g']> h, out', r)) ∧
  keys (augment g) = keys g ∧
  ∀ nt prods, g_lookup g nt = Some prods →
    ∃ prods', g_lookup (augment g) nt = Some prods' ∧
              length prods' = length prods ∧
              ∀ i prod, prods !! i = Some prod →
                prods' !! i = Some (prod ++ [Reduction nt i (length prod)]).
Proof.
  intros Hg. split; [|split].
  - unfold generate_parser. by rewrite Hg.
  - apply augment_keys.
  - intros nt prods Hl. eexists. split; [by apply augment_lookup|].
    split; [by rewrite length_imap|].
    intros i prod Hi. by rewrite list_lookup_imap, Hi.
Qed.

Lemma generate_parser_augments_witness :
  ({[0 := expr_grammar]} : heap) !! 0 = Some expr_grammar ∧
  ∀ nt prods, g_lookup expr_grammar nt = Some prods →
    ∃ prods', g_lookup (augment expr_grammar) nt = Some prods' ∧
              length prods' = length prods ∧
              ∀ i prod, prods !! i = Some prod →
                prods' !! i = Some (prod ++ [Reduction nt i (length prod)]).
Proof.
  split; [reflexivity|].
  apply (generate_parser_augments 8 {[0 := expr_grammar]} [] 0 "expr"
           expr_grammar).
  reflexivity.
Defined.

(* ------------------------------------------------------------------ *)
(** *** Instances *)

Lemma eliminate_no_left_recursion_witness :
  wf_grammar expr_grammar ∧ check expr_grammar = Ok tt ∧
  ∃ g', eliminate_left_recursion expr_grammar = (g', Ok tt) ∧
        (∀ a, ¬ left_call g' a a) ∧
        (∀ a, ¬ tc (left_call g') a a).
Proof.
  assert (Hwf : wf_grammar expr_grammar).
  { unfold wf_grammar. apply (bool_decide_unpack _). vm_compute. exact I. }
  assert (Hc : check expr_grammar = Ok tt) by (vm_compute; reflexivity).
  split; [exact Hwf|]. split; [exact Hc|].
  exact (eliminate_no_left_recursion expr_grammar Hwf Hc).
Defined.

Lemma start_terminates_after_elimination_witness :
  wf_grammar expr_grammar ∧ check expr_grammar = Ok tt ∧
  plain_grammar expr_grammar = true ∧
  ∃ g', eliminate_left_recursion expr_grammar = (g', Ok tt) ∧
        ∀ sym, start_terminates g' sym.
Proof.
  assert (Hwf : wf_grammar expr_grammar).
  { unfold wf_grammar. apply (bool_decide_unpack _). vm_compute. exact I. }
  assert (Hc : check expr_grammar = Ok tt) by (vm_compute; reflexivity).
  assert (Hp : plain_grammar expr_grammar = true) by (vm_compute; reflexivity).
  split; [exact Hwf|]. split; [exact Hc|]. split; [exact Hp|].
  exact (start_terminates_after_elimination expr_grammar Hwf Hc Hp).
Defined.

Lemma check_ambiguity_exact_witness :
  ∃ fl, follow_sets 4 demo_grammar "e" = Ok fl ∧
        firsts_known 4 demo_grammar ∧
        (check_ambiguity 4 demo_grammar "e" = Ok tt ↔
           ∀ entry, entry ∈ demo_grammar → entry_clean 4 demo_grammar fl entry).
Proof.
  eexists. split; [vm_compute; reflexivity|].
  assert (Hk : firsts_known 4 demo_grammar) by (vm_compute; reflexivity).
  split; [exact Hk|].
  refine (proj1 (check_ambiguity_exact 4 demo_grammar "e" _ _ Hk)).
  vm_compute. reflexivity.
Defined.

Lemma barren_no_left_recursion x : ¬ tc (left_call barren_grammar) x x.
Proof.
  assert (Hstep : ∀ a b, left_call barren_grammar a b → a = "s" ∧ b = "a").
  { intros a b (prods & rest & Hl & Hr). simpl in Hl.
    repeat case_decide; simplify_eq.
    - apply list_elem_of_singleton in Hr. by simplify_eq.
    - inversion Hr. }
  assert (Hchain : ∀ a b, tc (left_call barren_grammar) a b → a = "s" ∧ b = "a").
  { induction 1 as [a b Hab|a b c Hab _ [-> ->]]; [by apply Hstep|].
    by destruct (Hstep _ _ Hab) as [-> ?]. }
  intros Hx. by destruct (Hchain _ _ Hx) as [-> ?].
Qed.

(** C3, as stated, fails where a FIRST set cannot be computed: the
    grammar below has no left recursion and defines its goal, none of its
    entries shows any of the three conflicts, and [check_ambiguity] raises
    the [TypeError] of [set.union] called without argument. *)
Lemma check_ambiguity_counterexample :
  wf_grammar barren_grammar ∧ check barren_grammar = Ok tt ∧
  (∀ x, ¬ tc (left_call barren_grammar) x x) ∧
  g_mem "s" barren_grammar = true ∧
  ∃ fl, follow_sets 2 barren_grammar "s" = Ok fl ∧
        (∀ entry, entry ∈ barren_grammar →
                  entry_clean 2 barren_grammar fl entry) ∧
        check_ambiguity 2 barren_grammar "s" = Raise TypeError.
Proof.
  split.
  { unfold wf_grammar. apply (bool_decide_unpack _). vm_compute. exact I. }
  split; [vm_compute; reflexivity|].
  split; [apply barren_no_left_recursion|]. split; [reflexivity|].
  eexists. split; [vm_compute; reflexivity|]. split; [|vm_compute; reflexivity].
  intros entry Hin.
  apply elem_of_cons in Hin as [->|Hin];
    [|apply list_elem_of_singleton in Hin as ->].
  - split.
    + intros pre prod post Heq. destruct pre as [|p [|q pre]]; simplify_eq.
      unfold clash, running. simpl. set_solver.
    + vm_compute. reflexivity.
  - split.
    + intros pre prod post Heq. destruct pre; simplify_eq.
    + vm_compute. reflexivity.
Qed.

(* ================================================================== *)
(** ** Further properties of the code *)

(* ------------------------------------------------------------------ *)
(** *** [check]: reductions and exceptions *)

(** *** [check] does not see the reductions that [generate_parser] appends *)

Lemma augment_lookup_fmap (g : grammar) nt :
  g_lookup (augment g) nt =
  imap (λ i prod, prod ++ [Reduction nt i (length prod)]) <$> g_lookup g nt.
Proof.
  induction g as [|[k v] g IH]; simpl; [done|].
  destruct (decide (k = nt)) as [->|Hne]; [done|]. apply IH.
Qed.

Lemma augment_mem (g : grammar) nt : g_mem nt (augment g) = g_mem nt g.
Proof.
  unfold g_mem. rewrite augment_lookup_fmap. by destruct (g_lookup g nt).
Qed.

Lemma check_defined_augment (g : grammar) prod :
  check_defined (augment g) prod = check_defined g prod.
Proof.
  induction prod as [|[s|] prod IH]; simpl; [done| |done].
  by rewrite augment_mem, IH.
Qed.

Lemma check_defined_reduction (g : grammar) prod tn ti ac :
  check_defined g (prod ++ [Reduction tn ti ac]) = check_defined g prod.
Proof.
  induction prod as [|[s|] prod IH]; simpl; [done| |done].
  by rewrite IH.
Qed.

Lemma strip_reduction prod tn ti ac :
  strip (prod ++ [Reduction tn ti ac]) = strip prod.
Proof.
  unfold strip. rewrite List.filter_app. simpl. apply app_nil_r.
Qed.

Lemma check_prods_augment (rec rec' : status_map → string → result status_map)
    (g : grammar) nt :
  (∀ st s, rec' st s = rec st s) →
  ∀ prods (h : nat → production → production) st,
    (∀ i p, ∃ tn ti ac, h i p = p ++ [Reduction tn ti ac]) →
    for_each (check_prod rec' (augment g) nt) (imap h prods) st =
    for_each (check_prod rec g nt) prods st.
Proof.
  intros Hrec. induction prods as [|p prods IH]; intros h st Hh; [done|].
  cbn [imap for_each].
  assert (check_prod rec' (augment g) nt (h 0 p) st = check_prod rec g nt p st)
    as ->.
  { destruct (Hh 0 p) as (tn & ti & ac & ->). unfold check_prod.
    rewrite check_defined_augment, check_defined_reduction, strip_reduction.
    destruct (check_defined g p); [|done..].
    destruct (strip p) as [|[s|] [|? ?]]; try done.
    destruct (str_is_nt s); [apply Hrec|done]. }
  destruct (check_prod rec g nt p st); [|done..].
  apply IH. intros i q. apply Hh.
Qed.

Lemma check_nt_augment fuel (g : grammar) :
  ∀ st nt, check_nt fuel (augment g) st nt = check_nt fuel g st nt.
Proof.
  induction fuel as [|fuel IH]; intros st nt; [done|].
  cbn [check_nt]. destruct (st !! nt) as [[|]|]; [done..|].
  rewrite augment_lookup_fmap. destruct (g_lookup g nt) as [prods|]; [|done].
  cbn [fmap option_fmap option_map].
  rewrite (check_prods_augment (check_nt fuel g) (check_nt fuel (augment g)) g nt IH).
  - done.
  - intros i p. by eexists _, _, _.
Qed.

Lemma for_each_ext {A S} (f f' : A → S → result S) :
  (∀ x s, f x s = f' x s) → ∀ l s, for_each f l s = for_each f' l s.
Proof.
  intros Hf. induction l as [|x l IH]; intros s; [done|].
  simpl. rewrite Hf. destruct (f' x s); [apply IH|done..].
Qed.

(** X1: validation gives the same outcome, exception included, on the
    grammar and on the grammar with the reductions of [generate_parser]
    appended. *)
Theorem check_augment (g : grammar) : check (augment g) = check g.
Proof.
  unfold check. rewrite augment_keys.
  replace (length (augment g)) with (length g)
    by (unfold augment; by rewrite length_map).
  by rewrite (for_each_ext _ (λ nt status, check_nt (S (length g)) g status nt))
    by (intros; apply check_nt_augment).
Qed.

(** *** The exception of [check] names an offender *)

Section CheckErrors.
Variable g : grammar.

Lemma check_prods_raise rec nt all_prods st0 :
  (∀ st b, b ∈ keys g → st0 ⊆ st →
     (∀ a, st !! a = Some false → tc (unit_step g) a b) →
     check_raise_post g st (rec st b)) →
  g_lookup g nt = Some all_prods →
  (∀ a, st0 !! a = Some false → a = nt ∨ tc (unit_step g) a nt) →
  ∀ prods st,
    prods ⊆ all_prods → st0 ⊆ st →
    (∀ a, st !! a = Some false → st0 !! a = Some false) →
    check_raise_post g st (for_each (check_prod rec g nt) prods st).
Proof.
  intros Hrec Hnt Hreach. induction prods as [|prod prods IH];
    intros st Hsub Hst0 Hfalse; cbn [for_each].
  - by split.
  - assert (Hprod : prod ∈ all_prods) by (apply Hsub; left).
    assert (Hrest : prods ⊆ all_prods) by (intros x Hx; apply Hsub; by right).
    unfold check_prod at 1.
    destruct (check_defined_cases g prod) as [[-> Hdef]|(s & -> & Hs1 & Hs2 & Hs3)].
    2:{ simpl. split; [done|]. split; [done|]. by exists nt, all_prods, prod. }
    destruct (strip prod) as [|x [|y rest]] eqn:Hstrip.
    + simpl. by exists all_prods, prod.
    + destruct x as [s|tn ti ac]; [|by apply IH].
      destruct (str_is_nt s) eqn:Hsnt; [|by apply IH].
      assert (Hstep : unit_step g nt s) by (by exists all_prods, prod).
      assert (Hskey : s ∈ keys g).
      { apply Hdef; [|done]. apply strip_elem. rewrite Hstrip. left. }
      pose proof (Hrec st s Hskey Hst0) as Hpost.
      destruct (rec st s) as [st1| |].
      * destruct Hpost as [Hsub1 Hfalse1].
        { intros a Ha. apply Hfalse, Hreach in Ha as [->|Ha].
          - by apply tc_once.
          - eapply tc_r; done. }
        specialize (IH st1 Hrest ltac:(by transitivity st)
                       ltac:(by eauto)).
        destruct (for_each _ prods st1) as [st'| |]; [|done..].
        destruct IH as [Hsub' Hfalse']. split; [by transitivity st1|eauto].
      * apply Hpost. intros a Ha. apply Hfalse, Hreach in Ha as [->|Ha].
        -- by apply tc_once.
        -- eapply tc_r; done.
      * done.
    + destruct x; by apply IH.
Qed.

Lemma check_nt_raise fuel :
  ∀ st nt, nt ∈ keys g →
    (∀ a, st !! a = Some false → tc (unit_step g) a nt) →
    check_raise_post g st (check_nt fuel g st nt).
Proof.
  induction fuel as [|fuel IH]; intros st nt Hkey Hreach; [done|].
  cbn [check_nt]. destruct (st !! nt) as [[|]|] eqn:Hst.
  - by split.
  - simpl. by apply Hreach.
  - destruct (g_lookup g nt) as [prods|] eqn:Hprods.
    2:{ apply g_lookup_None in Hprods. done. }
    set (st0 := <[nt := false]> st).
    pose proof (check_prods_raise (check_nt fuel g) nt prods st0) as Hloop.
    specialize (Hloop ltac:(intros st1 b Hb _ Hr; by apply IH) Hprods).
    specialize (Hloop ltac:(
      intros a; unfold st0; rewrite lookup_insert; case_decide;
        [by left; subst | by right; apply Hreach]) prods st0
      ltac:(done) ltac:(done) ltac:(done)).
    destruct (for_each _ prods st0) as [st'| |]; [|done..].
    destruct Hloop as [Hsub' Hfalse']. split.
    + apply map_subseteq_spec. intros a v Ha.
      rewrite lookup_insert. case_decide; [subst; congruence|].
      eapply lookup_weaken; [|done]. unfold st0. by rewrite lookup_insert_ne.
    + intros a. rewrite lookup_insert. case_decide; [done|].
      intros Ha. apply Hfalse' in Ha. unfold st0 in Ha.
      by rewrite lookup_insert_ne in Ha.
Qed.

Lemma check_loop_raise fuel (l : list string) :
  ∀ st, l ⊆ keys g → (∀ a, st !! a ≠ Some false) →
    match for_each (λ nt status, check_nt fuel g status nt) l st with
    | Raise e => check_error_sound g e
    | _ => True
    end.
Proof.
  induction l as [|nt l IH]; intros st Hsub Hnf; cbn [for_each]; [done|].
  pose proof (check_nt_raise fuel st nt ltac:(apply Hsub; left)
                ltac:(intros a Ha; by destruct (Hnf a))) as Hpost.
  destruct (check_nt fuel g st nt) as [st1| |]; [|done..].
  destruct Hpost as [_ Hfalse]. apply IH.
  - intros x Hx. apply Hsub. by right.
  - intros a Ha. apply Hfalse in Ha. by destruct (Hnf a).
Qed.
End CheckErrors.

(** X2: the exception of [check] is one of its three [ValueError]s, and
    it names an offender: a nonterminal that is used and not defined, a
    nonterminal with a production that is empty once reductions are
    stripped, or a nonterminal on a cycle of unit productions. *)
Theorem check_error_names_offender (g : grammar) e :
  check g = Raise e → check_error_sound g e.
Proof.
  unfold check.
  pose proof (check_loop_raise g (S (length g)) (keys g) ∅ ltac:(done)
                ltac:(intros a; by rewrite lookup_empty)) as H.
  destruct (for_each _ (keys g) ∅) as [?|e'|]; [done| |done].
  by intros [= <-].
Qed.

(* ------------------------------------------------------------------ *)
(** *** The steps of [eliminate_left_recursion] *)

(** *** [gensym] returns the first free name *)

Lemma underscores_S nt n : (nt +:+ "_") +:+ underscores n = nt +:+ underscores (S n).
Proof. by rewrite string_app_assoc. Qed.

Lemma gensym_loop_first fuel (g : grammar) :
  ∀ nt e, gensym_loop fuel g nt = Ok e →
    ∃ n, e = nt +:+ underscores n ∧
         ∀ m, m < n → nt +:+ underscores m ∈ keys g.
Proof.
  induction fuel as [|fuel IH]; intros nt e; simpl.
  - destruct (g_mem nt g) eqn:Hmem; [done|]. intros [= <-].
    exists 0. rewrite string_app_nil_r. split; [done|]. lia.
  - destruct (g_mem nt g) eqn:Hmem.
    + intros H. apply IH in H as (n & -> & Hall). exists (S n).
      split; [apply underscores_S|].
      intros [|m] Hm.
      * rewrite string_app_nil_r. by apply g_mem_true.
      * rewrite <- underscores_S. apply Hall. lia.
    + intros [= <-]. exists 0. rewrite string_app_nil_r. split; [done|]. lia.
Qed.

(** X3: for a name of nonterminal, [gensym] returns the name followed by
    the least number of underscores that makes it a name the grammar does
    not use; the name itself when it is not a key. *)
Theorem gensym_first_free (g : grammar) nt :
  str_is_nt nt = true →
  ∃ n, gensym g nt = Ok (nt +:+ underscores n) ∧
       (nt +:+ underscores n ∉ keys g) ∧
       (∀ m, m < n → nt +:+ underscores m ∈ keys g) ∧
       (nt ∉ keys g → n = 0).
Proof.
  intros Hnt. destruct (gensym_total g nt Hnt) as (e & He & Hfresh & _ & _).
  pose proof He as He'. unfold gensym in He'. rewrite Hnt in He'.
  apply gensym_loop_first in He' as (n & -> & Hall).
  exists n. split; [done|]. split; [done|]. split; [done|].
  intros Hk. destruct n as [|n]; [done|]. destruct Hk.
  specialize (Hall 0 ltac:(lia)). by rewrite string_app_nil_r in Hall.
Qed.

(** *** [eliminate_left_calls] *)

Lemma starts_with_app b (c a : production) :
  c ≠ [] → starts_with b (c ++ a) = starts_with b c.
Proof. destruct c as [|x c]; [done|]. intros _. by destruct x. Qed.

(** X4: when the productions of [to_nt] are nonempty and do not begin with
    [to_nt], [eliminate_left_calls] leaves no production of [from_nt]
    that begins with [to_nt]; it keeps, in order, the productions of
    [from_nt] that did not, puts after them every production of [to_nt]
    followed by the rest of a production that did, and touches no other
    key. *)
Theorem eliminate_left_calls_post (g : grammar) from_nt to_nt
    (from_rules to_rules : list production) :
  from_nt ≠ to_nt →
  g_lookup g from_nt = Some from_rules →
  g_lookup g to_nt = Some to_rules →
  (∀ c, c ∈ to_rules → c ≠ [] ∧ starts_with to_nt c = false) →
  ∃ g' inlined,
    eliminate_left_calls g from_nt to_nt = Ok g' ∧
    keys g' = keys g ∧
    (∀ k, k ≠ from_nt → g_lookup g' k = g_lookup g k) ∧
    g_lookup g' from_nt =
      Some (List.filter (λ r, negb (starts_with to_nt r)) from_rules ++ inlined) ∧
    (∀ r, r ∈ inlined ↔
          ∃ c a, c ∈ to_rules ∧ (Str to_nt :: a) ∈ from_rules ∧ r = c ++ a) ∧
    (∀ prods r, g_lookup g' from_nt = Some prods → r ∈ prods →
                starts_with to_nt r = false).
Proof.
  intros Hne Hfrom Hto Hrules.
  unfold eliminate_left_calls, g_get. rewrite Hfrom, Hto. simpl.
  eexists. eexists. split; [reflexivity|].
  split; [apply keys_set_old; apply g_lookup_is_Some; eauto|].
  split; [intros k Hk; by apply g_lookup_set_ne|].
  split; [apply g_lookup_set_eq|].
  assert (Hin : ∀ r,
    r ∈ flat_map (λ c, map (λ a, c ++ tail a)
                           (List.filter (starts_with to_nt) from_rules)) to_rules ↔
    ∃ c a, c ∈ to_rules ∧ (Str to_nt :: a) ∈ from_rules ∧ r = c ++ a).
  { intros r. rewrite list_elem_of_In, in_flat_map. split.
    - intros (c & Hc & Hr). apply in_map_iff in Hr as (a & <- & Ha).
      apply filter_In in Ha as [Ha Hs].
      apply starts_with_true in Hs as [rest ->].
      exists c, rest. by rewrite !list_elem_of_In.
    - intros (c & a & Hc & Ha & ->). exists c.
      rewrite <- list_elem_of_In. split; [done|].
      apply in_map_iff. exists (Str to_nt :: a). split; [done|].
      apply filter_In. rewrite <- list_elem_of_In. split; [done|].
      apply starts_with_true. by eexists. }
  split; [done|].
  intros prods r Hl Hr. rewrite g_lookup_set_eq in Hl. injection Hl as <-.
  apply elem_of_app in Hr as [Hr|Hr].
  - apply list_elem_of_In, filter_In in Hr as [_ Hr].
    by apply negb_true_iff in Hr.
  - apply Hin in Hr as (c & a & Hc & _ & ->).
    destruct (Hrules c Hc) as [Hc1 Hc2]. by rewrite starts_with_app.
Qed.

(** *** [eliminate_immediate_left_recursion] *)


(* ------------------------------------------------------------------ *)
(** *** The order of [quasisort_nts] *)

Lemma leads_defined_b_sound (g : grammar) :
  leads_defined_b g = true → leads_defined g.
Proof.
  intros Hb a prods s rest Hl Hin Hs. unfold leads_defined_b in Hb.
  rewrite forallb_forall in Hb.
  pose proof (Hb (a, prods)
                (proj1 (list_elem_of_In _ _) (g_lookup_elem g a prods Hl))) as Hp.
  simpl in Hp. rewrite forallb_forall in Hp.
  pose proof (Hp _ (proj1 (list_elem_of_In _ _) Hin)) as Hr. simpl in Hr.
  rewrite Hs in Hr. simpl in Hr. by apply bool_decide_eq_true in Hr.
Qed.

Lemma lead_ranked_acyclic rank (g : grammar) :
  lead_ranked rank g = true → ∀ x, ¬ tc (lead g) x x.
Proof.
  intros Hb.
  assert (Hstep : ∀ a b, lead g a b → rank b < rank a).
  { intros a b (prods & rest & Hl & Hin & Hs). unfold lead_ranked in Hb.
    rewrite forallb_forall in Hb.
    pose proof (Hb (a, prods)
                  (proj1 (list_elem_of_In _ _) (g_lookup_elem g a prods Hl))) as Hp.
    simpl in Hp. rewrite forallb_forall in Hp.
    pose proof (Hp _ (proj1 (list_elem_of_In _ _) Hin)) as Hr. simpl in Hr.
    rewrite Hs in Hr. simpl in Hr. by apply bool_decide_eq_true in Hr. }
  assert (Htc : ∀ a b, tc (lead g) a b → rank b < rank a).
  { intros a b Hab. induction Hab as [a b Hab|a b c Hab _ IH].
    - by apply Hstep.
    - apply Hstep in Hab. lia. }
  intros x Hx. apply Htc in Hx. lia.
Qed.


Section QuasisortOrder.
Variable g : grammar.
Hypothesis Hacyclic : ∀ x, ¬ tc (lead g) x x.

Lemma settled_snoc out s :
  settled g out → (∀ b, lead g s b → b ∈ out) → settled g (out ++ [s]).
Proof.
  intros Hout Hs i a b Hi Hab.
  destruct (decide (i < length out)) as [Hlt|Hge].
  - rewrite lookup_app_l in Hi by done.
    destruct (Hout i a b Hi Hab) as (j & Hj & Hjb).
    exists j. split; [done|]. rewrite lookup_app_l; [done|lia].
  - rewrite lookup_app_r in Hi by lia.
    apply list_lookup_singleton_Some in Hi as [Hi <-].
    apply Hs, list_elem_of_lookup in Hab as [j Hj].
    exists j. apply lookup_lt_Some in Hj as Hlt.
    split; [lia|]. by rewrite lookup_app_l.
Qed.

Lemma visit_rules_settled rec stack s all_prods :
  g_lookup g s = Some all_prods →
  (∀ x, x ∈ stack → rtc (lead g) x s) →
  (∀ b out r, (∀ x, x ∈ stack → tc (lead g) x b) → settled g out →
     rec b (out, stack) = Ok r →
     r.2 = stack ∧ settled g r.1 ∧ b ∈ r.1 ∧ (∀ x, x ∈ out → x ∈ r.1)) →
  ∀ rules out r,
    rules ⊆ all_prods → settled g out →
    for_each (visit_rule rec) rules (out, stack) = Ok r →
    r.2 = stack ∧ settled g r.1 ∧ (∀ x, x ∈ out → x ∈ r.1) ∧
    (∀ b rest, (Str b :: rest) ∈ rules → str_is_nt b = true → b ∈ r.1).
Proof.
  intros Hl Hstack Hrec. induction rules as [|rule rules IH];
    intros out r Hsub Hout; cbn [for_each].
  - intros [= <-]. split; [done|]. split; [done|]. split; [done|].
    intros b rest Hin. inversion Hin.
  - assert (Hrule : rule ∈ all_prods) by (apply Hsub; left).
    assert (Hrules : rules ⊆ all_prods) by (intros x Hx; apply Hsub; by right).
    assert (Hskip : (∀ b rest, rule = Str b :: rest → str_is_nt b = true → False) →
      for_each (visit_rule rec) rules (out, stack) = Ok r →
      r.2 = stack ∧ settled g r.1 ∧ (∀ x, x ∈ out → x ∈ r.1) ∧
      (∀ b rest, (Str b :: rest) ∈ rule :: rules → str_is_nt b = true → b ∈ r.1)).
    { intros Hno Hres. destruct (IH out r Hrules Hout Hres) as (? & ? & ? & Hall).
      split; [done|]. split; [done|]. split; [done|].
      intros b rest Hin Hb. apply elem_of_cons in Hin as [<-|Hin]; [|by eapply Hall].
      by destruct (Hno b rest). }
    destruct rule as [|[b|tn ti ac] rest]; [by apply Hskip..| |by apply Hskip].
    cbn [visit_rule]. destruct (str_is_nt b) eqn:Hb.
    2:{ apply Hskip. intros b' rest' [= <- <-] ?. congruence. }
    assert (Hlead : lead g s b) by (by exists all_prods, rest).
    cbn [snd]. case_bool_decide as Hin.
    { destruct (Hacyclic s). eapply tc_rtc_r; [by apply tc_once|by apply Hstack]. }
    destruct (rec b (out, stack)) as [[out1 stk1]| |] eqn:Hr; [|done..].
    destruct (Hrec b out (out1, stk1)) as (Hstk & Hout1 & Hb1 & Hmono); [|done..|].
    { intros x Hx. eapply tc_rtc_l; [by apply Hstack|by apply tc_once]. }
    simpl in Hstk, Hout1, Hb1, Hmono. subst stk1.
    intros Hres. destruct (IH out1 r Hrules Hout1 Hres) as (? & ? & Hmono' & Hall).
    split; [done|]. split; [done|]. split; [by eauto|].
    intros b' rest' Hin' Hb'. apply elem_of_cons in Hin' as [[= <- <-]|Hin'].
    + by apply Hmono'.
    + by eapply Hall.
Qed.

Lemma visit_settled fuel :
  ∀ s out stack r,
    (∀ x, x ∈ stack → tc (lead g) x s) → settled g out →
    visit fuel g s (out, stack) = Ok r →
    r.2 = stack ∧ settled g r.1 ∧ s ∈ r.1 ∧ (∀ x, x ∈ out → x ∈ r.1).
Proof.
  induction fuel as [|fuel IH]; intros s out stack r Hstack Hout; [done|].
  cbn [visit fst snd]. case_bool_decide as Hin.
  - intros [= <-]. by split.
  - destruct (g_lookup g s) as [prods|] eqn:Hl; [|done].
    destruct (for_each _ prods _) as [[out1 stk1]| |] eqn:Hloop; [|done..].
    intros [= <-].
    destruct (visit_rules_settled (visit fuel g) (stack ++ [s]) s prods Hl)
      with (rules := prods) (out := out) (r := (out1, stk1))
      as (Hstk & Hout1 & Hmono & Hall); try done.
    + intros x Hx. apply elem_of_app in Hx as [Hx|Hx].
      * by apply tc_rtc, Hstack.
      * by apply list_elem_of_singleton in Hx as ->.
    + intros b out' r'. apply IH.
    + simpl in *. subst stk1. rewrite removelast_last.
      split; [done|]. split; [|split].
      * apply settled_snoc; [done|].
        intros b (prods' & rest & Hl' & Hr & Hb). rewrite Hl in Hl'.
        injection Hl' as <-. by eapply Hall.
      * set_solver.
      * intros x Hx. apply elem_of_app. left. by apply Hmono.
Qed.

Lemma visit_all_settled fuel :
  ∀ l out r,
    settled g out →
    for_each (visit fuel g) l (out, []) = Ok r →
    r.2 = [] ∧ settled g r.1.
Proof.
  induction l as [|nt l IH]; intros out r Hout; cbn [for_each].
  - by intros [= <-].
  - destruct (visit fuel g nt (out, [])) as [[out1 stk1]| |] eqn:Hv; [|done..].
    destruct (visit_settled fuel nt out [] (out1, stk1)) as (Hstk & Hout1 & _);
      [by intros x Hx; inversion Hx|done..|].
    simpl in *. subst stk1. by apply IH.
Qed.
End QuasisortOrder.

Lemma comes_before_reverse (l : list string) a b :
  comes_before l b a → comes_before (reverse l) a b.
Proof.
  intros (i & j & Hi & Hj & Hlt).
  apply lookup_lt_Some in Hi as Hil. apply lookup_lt_Some in Hj as Hjl.
  exists (length l - S j), (length l - S i).
  rewrite !reverse_lookup by lia.
  replace (length l - S (length l - S j)) with j by lia.
  replace (length l - S (length l - S i)) with i by lia.
  split; [done|]. split; [done|]. lia.
Qed.

Lemma quasisort_order (g : grammar) ntnames :
  (∀ x, ¬ tc (lead g) x x) →
  quasisort_nts g = Ok ntnames →
  ∀ a b, lead g a b → comes_before ntnames a b.
Proof.
  intros Hacyc. unfold quasisort_nts.
  destruct (for_each _ (keys g) _) as [[out stack]| |] eqn:Hloop; [|done..].
  case_bool_decide as Hperm; [|done]. intros [= <-] a b Hab.
  assert (Hnil : settled g []) by (by intros i x y Hi).
  destruct (visit_all_settled g Hacyc _ _ _ _ Hnil Hloop) as [_ Hout].
  simpl in Hout. apply comes_before_reverse.
  assert (Ha : a ∈ out).
  { rewrite <- Hperm. destruct Hab as (prods & rest & Hl & _).
    apply g_lookup_is_Some. eauto. }
  apply list_elem_of_lookup in Ha as [i Hi].
  destruct (Hout i a b Hi Hab) as (j & Hj & Hjb).
  by exists j, i.
Qed.

(** X8: when no nonterminal reaches itself through leading nonterminals,
    the order of [quasisort_nts] is topological: a nonterminal comes
    before every nonterminal that begins one of its productions. *)
Theorem quasisort_topological (g : grammar) ntnames :
  (∀ x, ¬ tc (lead g) x x) →
  quasisort_nts g = Ok ntnames →
  ∀ a b, lead g a b → comes_before ntnames a b.
Proof. apply quasisort_order. Qed.

(** X9: on a dictionary in which the nonterminals that begin a production
    are defined, [quasisort_nts] returns, and returns the keys in some
    order, each one once. *)
Theorem quasisort_returns_keys (g : grammar) :
  NoDup (keys g) → leads_defined g →
  ∃ ntnames, quasisort_nts g = Ok ntnames ∧ ntnames ≡ₚ keys g ∧ NoDup ntnames.
Proof.
  intros Hnd Hdef. destruct (quasisort_total g Hnd Hdef) as [ntnames Hq].
  exists ntnames. split; [done|].
  pose proof (quasisort_perm g ntnames Hq) as Hperm.
  split; [done|]. by rewrite Hperm.
Qed.

(** *** A grammar without left recursion is left as it is *)

Lemma g_set_same (g : grammar) k v : g_lookup g k = Some v → g_set g k v = g.
Proof.
  induction g as [|[k0 w] g IH]; simpl; [done|].
  destruct (decide (k0 = k)) as [->|Hne]; [by intros [= ->]|].
  intros H. by rewrite IH.
Qed.

Lemma filter_none_starts nt (rules : list production) :
  (∀ r, r ∈ rules → starts_with nt r = false) →
  List.filter (λ r, negb (starts_with nt r)) rules = rules ∧
  List.filter (starts_with nt) rules = [].
Proof.
  induction rules as [|r rules IH]; intros Hall; [done|]. simpl.
  rewrite (Hall r) by left. simpl.
  destruct IH as [-> ->]; [|done]. intros x Hx. apply Hall. by right.
Qed.

Lemma eliminate_left_calls_nothing (g : grammar) from_nt to_nt from_rules :
  g_lookup g from_nt = Some from_rules → to_nt ∈ keys g →
  (∀ r, r ∈ from_rules → starts_with to_nt r = false) →
  eliminate_left_calls g from_nt to_nt = Ok g.
Proof.
  intros Hfrom [to_rules Hto]%g_lookup_is_Some Hall.
  unfold eliminate_left_calls, g_get. rewrite Hfrom, Hto. simpl.
  destruct (filter_none_starts to_nt from_rules Hall) as [-> ->].
  assert (flat_map (λ c : production,
                      map (λ a : production, c ++ tail a) []) to_rules = [])
    as -> by (clear; induction to_rules; simpl; done).
  by rewrite app_nil_r, g_set_same.
Qed.

Section NothingToDo.
Variable g : grammar.
Variable ntnames : list string.
Hypothesis Hnodup : NoDup ntnames.
Hypothesis Hkeys : ∀ x, x ∈ ntnames → x ∈ keys g ∧ str_is_nt x = true.
Hypothesis Hacyclic : ∀ x, ¬ tc (lead g) x x.
Hypothesis Horder : ∀ a b, lead g a b → comes_before ntnames a b.

Lemma no_call_to_earlier seen iname rest prods r j :
  ntnames = seen ++ iname :: rest → j ∈ seen ++ [iname] →
  g_lookup g iname = Some prods → r ∈ prods → starts_with j r = false.
Proof.
  intros Hsplit Hj Hl Hr. destruct (starts_with j r) eqn:Hs; [|done]. exfalso.
  apply starts_with_true in Hs as [tl ->].
  assert (Hjn : j ∈ ntnames).
  { rewrite Hsplit. apply elem_of_app in Hj as [?|Hj]; [set_solver|].
    apply list_elem_of_singleton in Hj as ->. set_solver. }
  assert (Hlead : lead g iname j).
  { exists prods, tl. split; [done|]. split; [done|]. by apply Hkeys. }
  destruct (Horder iname j Hlead) as (i & k & Hi & Hk & Hlt).
  assert (Hi' : ntnames !! length seen = Some iname).
  { rewrite Hsplit. by rewrite list_lookup_middle. }
  pose proof (NoDup_lookup _ _ _ _ Hnodup Hi Hi') as ->.
  apply elem_of_app in Hj as [Hj|Hj].
  - apply list_elem_of_lookup in Hj as [k' Hk'].
    apply lookup_lt_Some in Hk' as Hlt'.
    assert (ntnames !! k' = Some j) as Hk''.
    { rewrite Hsplit. by rewrite lookup_app_l. }
    pose proof (NoDup_lookup _ _ _ _ Hnodup Hk Hk''). lia.
  - apply list_elem_of_singleton in Hj as ->.
    pose proof (NoDup_lookup _ _ _ _ Hnodup Hk Hi'). lia.
Qed.

Lemma left_calls_loop_nothing iname prods :
  g_lookup g iname = Some prods →
  ∀ earlier,
    (∀ j, j ∈ earlier → j ∈ keys g ∧
          ∀ r, r ∈ prods → starts_with j r = false) →
    left_calls_loop g iname earlier = (g, Ok tt).
Proof.
  intros Hl. induction earlier as [|j earlier IH]; intros Hall; [done|].
  cbn [left_calls_loop].
  destruct (Hall j ltac:(left)) as [Hjk Hj].
  rewrite (eliminate_left_calls_nothing g iname j prods Hl Hjk Hj).
  cbn [and_then]. apply IH. intros k Hk. apply Hall. by right.
Qed.

Lemma eliminate_loop_nothing :
  ∀ todo seen,
    ntnames = seen ++ todo → eliminate_loop g seen todo = (g, Ok tt).
Proof.
  induction todo as [|iname rest IH]; intros seen Hsplit; [done|].
  cbn [eliminate_loop].
  destruct (Hkeys iname) as [Hik Hint]; [rewrite Hsplit; set_solver|].
  apply g_lookup_is_Some in Hik as [prods Hl].
  rewrite (left_calls_loop_nothing iname prods Hl).
  - assert (eliminate_immediate_left_recursion g iname = Ok g) as ->.
    { unfold eliminate_immediate_left_recursion, g_get. rewrite Hl. simpl.
      replace (existsb (starts_with iname) prods) with false; [done|].
      symmetry. apply not_true_is_false. intros Hex.
      apply existsb_exists in Hex as (r & Hr & Hs).
      apply list_elem_of_In in Hr.
      rewrite (no_call_to_earlier seen iname rest prods r iname Hsplit) in Hs;
        [done|set_solver|done..]. }
    cbn [and_then]. apply IH. by rewrite <- app_assoc.
  - intros j Hj. split.
    + apply Hkeys. rewrite Hsplit. set_solver.
    + intros r Hr. eapply no_call_to_earlier; [done|set_solver|done..].
Qed.
End NothingToDo.

(** X10: a grammar in which no nonterminal reaches itself through leading
    nonterminals comes out of [eliminate_left_recursion] as it went in. *)
Theorem eliminate_nothing_to_do (g : grammar) :
  wf_grammar g → leads_defined g → (∀ x, ¬ tc (lead g) x x) →
  eliminate_left_recursion g = (g, Ok tt).
Proof.
  intros [Hnd Hnt] Hdef Hacyc. rewrite Forall_forall in Hnt.
  destruct (quasisort_total g Hnd Hdef) as [ntnames Hq].
  pose proof (quasisort_perm g ntnames Hq) as Hperm.
  unfold eliminate_left_recursion. rewrite Hq.
  apply (eliminate_loop_nothing g ntnames).
  - by rewrite Hperm.
  - intros x Hx. rewrite Hperm in Hx. split; [done|by apply Hnt].
  - done.
  - by apply quasisort_order.
  - done.
Qed.

(** *** What [eliminate_left_recursion] keeps of the rules of [check] *)

Lemma core_strip_nonempty k0 (r : production) : core k0 r ≠ [] → strip r ≠ [].
Proof.
  induction r as [|x r IH]; [done|]. unfold core, strip in *. simpl.
  destruct x as [s|]; simpl; [done|]. apply IH.
Qed.

(** X11: on a grammar that passes [check], [eliminate_left_recursion]
    leaves a dictionary of nonterminals in which every nonterminal used
    is defined; the nonterminals it was given keep productions that are
    not empty once reductions are stripped, and a production of a key it
    added is empty or ends with that key after at least one symbol. *)
Theorem eliminate_keeps_rules (g : grammar) :
  wf_grammar g → check g = Ok tt →
  ∃ g', eliminate_left_recursion g = (g', Ok tt) ∧
        wf_grammar g' ∧ ¬ rule1_violated g' ∧
        (∀ a prods r, a ∈ keys g → g_lookup g' a = Some prods → r ∈ prods →
                      strip r ≠ []) ∧
        (∀ e prods r, e ∉ keys g → g_lookup g' e = Some prods → r ∈ prods →
                      r = [] ∨ ∃ a, a ≠ [] ∧ r = a ++ [Str e]).
Proof.
  intros Hwf Hc.
  destruct (eliminate_runs g (λ _, True) (λ _, True) Hwf Hc)
    as (ntnames & eps & g' & Hperm & Hres & Hinv); [done..|].
  exists g'. split; [done|].
  pose proof (inv_keys _ _ _ _ _ _ Hinv) as Hkeys.
  split; [|split; [|split]].
  - split; [by eapply inv_nodup|]. apply Forall_forall. intros k Hk.
    by eapply (final_key_nt g _ _ ntnames eps g').
  - intros (nt & prods & prod & s & Hl & Hin & Hs & Hnt & Hnone).
    apply g_lookup_None in Hnone. apply Hnone.
    by eapply (inv_defined _ _ _ _ _ _ Hinv nt prods prod).
  - intros a prods r Ha Hl Hr.
    destruct (inv_core _ _ _ _ _ _ Hinv a prods r Ha Hl Hr) as [Hcore _].
    by eapply core_strip_nonempty.
  - intros e prods r He Hl Hr.
    assert (Hek : e ∈ keys g') by (apply g_lookup_is_Some; eauto).
    rewrite Hkeys in Hek. apply elem_of_app in Hek as [?|Hek]; [done|].
    apply list_elem_of_split in Hek as (e1 & e2 & Heps).
    destruct (inv_epi _ _ _ _ _ _ Hinv e1 e e2 prods r Heps Hl Hr)
      as [->|(alpha & -> & Hcore & _)]; [by left|].
    right. exists alpha. split; [|done]. intros ->. done.
Qed.

(* ------------------------------------------------------------------ *)
(** *** Start sets and the emission of code *)

(** *** FIRST sets are not empty *)

Lemma seq_loop_nonempty (st : symbol → result strset) :
  ∀ seq acc s,
    (∀ x sx, x ∈ seq → st x = Ok sx → sx ≠ ∅) →
    acc ≠ ∅ → seq_loop st acc seq = Ok s → s ≠ ∅.
Proof.
  induction seq as [|x seq IH]; intros acc s Hst Hacc; cbn [seq_loop].
  - by intros [= <-].
  - case_bool_decide; [|by intros [= <-]].
    destruct (st x) as [sx| |] eqn:Hx; [|done..].
    apply IH.
    + intros y sy Hy. apply Hst. by right.
    + assert (sx ≠ ∅) by (eapply Hst; [left|done]). set_solver.
Qed.

Lemma start_nonempty_aux (g : grammar) fuel :
  ∀ sym s, start fuel g sym = Ok s → s ≠ ∅.
Proof.
  induction fuel as [|fuel IH]; intros [x|tn ti ac] s; simpl.
  - destruct (str_is_nt x); [done|]. intros [= <-]. set_solver.
  - intros [= <-]. set_solver.
  - destruct (str_is_nt x); [|intros [= <-]; set_solver].
    destruct (g_get g x) as [prods| |]; simpl; [|done..].
    destruct (map_result _ prods) as [sets| |] eqn:Hm; simpl; [|done..].
    destruct sets as [|s1 sets]; simpl; [done|]. intros [= <-].
    destruct (map_result_elem _ _ _ s1 Hm) as (p & _ & Hp); [left|].
    assert (s1 ≠ ∅); [|set_solver].
    eapply seq_loop_nonempty; [|by apply (non_empty_singleton_L EMPTY)|exact Hp].
    intros y sy _. apply IH.
  - intros [= <-]. set_solver.
Qed.

(** X12: a start set that [start] returns is never empty, and none of its
    members is the name of a nonterminal. *)
Theorem start_set_inhabited (g : grammar) fuel sym s :
  start fuel g sym = Ok s →
  s ≠ ∅ ∧ ∀ x, x ∈ s → str_is_nt x = false.
Proof.
  intros Hs. split; [by eapply start_nonempty_aux|].
  by eapply start_no_nt.
Qed.

Lemma seq_start_nonempty (g : grammar) fuel seq s :
  seq_start fuel g seq = Ok s → s ≠ ∅.
Proof.
  unfold seq_start. apply seq_loop_nonempty.
  - intros x sx _. apply start_nonempty_aux.
  - apply (non_empty_singleton_L EMPTY).
Qed.

(** *** [seq_start] of a concatenation *)

(** X13: the start set of [a ++ b] is the start set of [a] when that one
    lacks [EMPTY]; otherwise it is the start set of [a] without [EMPTY],
    joined with the start set of [b] (and it fails as [b] fails). *)
Theorem seq_start_app (g : grammar) fuel a b sa :
  seq_start fuel g a = Ok sa →
  seq_start fuel g (a ++ b) =
  if bool_decide (EMPTY ∈ sa)
  then add_to (sa ∖ {[EMPTY]}) (seq_start fuel g b)
  else Ok sa.
Proof.
  revert sa. induction a as [|x a IH]; intros sa.
  - rewrite seq_start_nil. intros [= <-]. simpl.
    rewrite bool_decide_eq_true_2 by set_solver.
    destruct (seq_start fuel g b) as [sb| |]; simpl; [|done..].
    f_equal. set_solver.
  - simpl. rewrite !seq_start_cons.
    destruct (start fuel g x) as [sx| |]; [|done..].
    case_bool_decide as Hx; [|by intros [= <-]; rewrite bool_decide_eq_false_2].
    destruct (seq_start fuel g a) as [s1| |] eqn:Ha; simpl; [|done..].
    intros [= <-]. rewrite (IH s1 eq_refl).
    case_bool_decide as H1.
    + rewrite bool_decide_eq_true_2 by set_solver.
      destruct (seq_start fuel g b) as [sb| |]; simpl; [|done..].
      f_equal. apply set_eq. intros y.
      destruct (decide (y = EMPTY)); set_solver.
    + simpl. rewrite bool_decide_eq_false_2 by set_solver. done.
Qed.

(** *** After [check_ambiguity], the emission of code cannot fail *)

Lemma emit_rules_after_ambiguity fuel (g : grammar) nt :
  ∀ prods acc total st i out,
    ambiguity_prods fuel g nt prods acc = Ok total →
    seen st = acc →
    (is_Some (empty_production st) → EMPTY ∈ acc) →
    ∃ out' st', emit_rules fuel g i prods st out = (out', Ok st') ∧
                out `prefix_of` out'.
Proof.
  induction prods as [|prod prods IH]; intros acc total st i out; simpl.
  - intros _ _ _. by exists out, st.
  - destruct (seq_start fuel g prod) as [ps| |] eqn:Hps; [|done..].
    intros Hres Hseen Hemp. rewrite Hseen.
    case_bool_decide as Hc.
    2:{ exfalso. case_bool_decide; [done|]. by destruct (first_of _). }
    case_bool_decide as Hone.
    + destruct (empty_production st) as [k|] eqn:Hk.
      * exfalso. assert (EMPTY ∈ acc) by (apply Hemp; eauto).
        apply seq_start_nonempty in Hps. set_solver.
      * eapply IH; [exact Hres|done|]. simpl. intros _. rewrite Hone. set_solver.
    + match goal with
      | |- context [emit_rules _ _ _ _ ?s ?o] =>
          destruct (IH _ total s (S i) o Hres eq_refl) as (out' & st' & Hr & Hpre)
      end.
      * simpl. intros Hs. set_solver.
      * exists out', st'. split; [exact Hr|].
        etrans; [|exact Hpre]. by apply prefix_app_r.
Qed.

Lemma emit_nts_after_ambiguity fuel (g : grammar) fl :
  ∀ entries out,
    for_each (λ entry _, ambiguity_nt fuel g fl entry) entries tt = Ok tt →
    ∃ out', emit_nts fuel g entries out = (out', Ok tt) ∧ out `prefix_of` out'.
Proof.
  induction entries as [|[nt prods] entries IH]; intros out; cbn [for_each emit_nts].
  - intros _. by exists out.
  - destruct (ambiguity_nt fuel g fl (nt, prods)) as [[]| |] eqn:Hnt; [|done..].
    intros Hrest. unfold ambiguity_nt in Hnt.
    destruct (ambiguity_prods fuel g nt prods ∅) as [total| |] eqn:Hp; [|done..].
    destruct (emit_rules_after_ambiguity fuel g nt prods ∅ total
                (RulesState ∅ None "if") 0
                (out ++ ["def parse_" +:+ nt +:+ "(src, stack):" +:+ newline;
                         "    token = src.peek()" +:+ newline]) Hp)
      as (out1 & st1 & -> & Hpre1); [done|by intros [? [=]]|].
    edestruct IH as (out2 & -> & Hpre2); [exact Hrest|].
    exists out2. split; [done|].
    etrans; [|exact Hpre2]. etrans; [by apply prefix_app_r|].
    etrans; [exact Hpre1|]. destruct (empty_production st1).
    + by apply prefix_app_r.
    + rewrite <- app_assoc. by apply prefix_app_r.
Qed.

(** X14: on a grammar that [check_ambiguity] accepts, the loops of
    [generate_parser] that write the parser run to the end: neither the
    [ValueError] of ambiguous tokens nor the assertion on
    [empty_production] can fire, and what was written before stays. *)
Theorem emission_cannot_fail fuel (g : grammar) goal out :
  check_ambiguity fuel g goal = Ok tt →
  ∃ out', emit_nts fuel g g out = (out', Ok tt) ∧ out `prefix_of` out'.
Proof.
  unfold check_ambiguity.
  destruct (follow_sets fuel g goal) as [fl| |]; [|done..].
  destruct (for_each _ g tt) as [[]| |] eqn:Hloop; [|done..]. intros _.
  by eapply emit_nts_after_ambiguity.
Qed.

Lemma emit_nts_after_ambiguity_frame fuel (g : grammar) goal out :
  check_ambiguity fuel g goal = Ok tt →
  ∃ body, emit_nts fuel g g out = (out ++ body, Ok tt).
Proof.
  unfold check_ambiguity.
  destruct (follow_sets fuel g goal) as [fl| |]; [|done..].
  destruct (for_each _ g tt) as [[]| |] eqn:Hloop; [|done..]. intros _.
  destruct (emit_nts_after_ambiguity fuel g fl g out Hloop)
    as (out' & -> & [body ->]).
  by exists body.
Qed.

Lemma pipeline_all_or_nothing fuel (g : grammar) out goal :
  all_or_nothing goal out (pipeline fuel g out goal).1.2
                 (pipeline fuel g out goal).2.
Proof.
  unfold pipeline, all_or_nothing.
  destruct (check g) as [[]| |]; [|by right..].
  destruct (eliminate_left_recursion g) as [g' [[]| |]]; [|by right..].
  destruct (check_ambiguity fuel g' goal) as [[]| |] eqn:Ha; [|by right..].
  destruct (emit_nts_after_ambiguity_frame fuel g' goal out Ha) as (body & ->).
  simpl. left. split; [done|]. exists body. by rewrite app_assoc.
Qed.

(** X15: [generate_parser] appends to [out] the whole parser, ending with
    the entry point, and returns; or it fails and has written nothing. *)
Theorem generate_parser_all_or_nothing fuel (h : heap) out grammar_ref goal :
  all_or_nothing goal out
    (generate_parser fuel h out grammar_ref goal).1.2
    (generate_parser fuel h out grammar_ref goal).2.
Proof.
  unfold generate_parser. destruct (h !! grammar_ref) as [ug|]; [|by right].
  pose proof (pipeline_all_or_nothing fuel (augment ug) out goal) as H.
  by destruct (pipeline fuel (augment ug) out goal) as [[g' out'] r].
Qed.

(** X16: [generate_parser] returns without an exception exactly when the
    three stages [check], [eliminate_left_recursion] and
    [check_ambiguity] do, run one after the other on the augmented
    grammar. *)
Theorem generate_parser_succeeds_iff fuel (h : heap) out grammar_ref goal ug :
  h !! grammar_ref = Some ug →
  (generate_parser fuel h out grammar_ref goal).2 = Ok tt ↔
  check (augment ug) = Ok tt ∧
  (eliminate_left_recursion (augment ug)).2 = Ok tt ∧
  check_ambiguity fuel (eliminate_left_recursion (augment ug)).1 goal = Ok tt.
Proof.
  intros Hh. unfold generate_parser. rewrite Hh.
  assert ((let '(g', out', r) := pipeline fuel (augment ug) out goal in
           (<[fresh (dom h) := g']> h, out', r)).2 =
          (pipeline fuel (augment ug) out goal).2) as ->.
  { by destruct (pipeline fuel (augment ug) out goal) as [[g' out'] r]. }
  unfold pipeline.
  destruct (check (augment ug)) as [[]| |]; [|by split; [|intros [? _]]..].
  destruct (eliminate_left_recursion (augment ug)) as [g' [[]| |]]; simpl;
    [|by split; [|intros (_ & ? & _)]..].
  destruct (check_ambiguity fuel g' goal) as [[]| |] eqn:Ha;
    [|by split; [|intros (_ & _ & ?)]..].
  destruct (emit_nts_after_ambiguity_frame fuel g' goal out Ha) as (body & ->).
  done.
Qed.

(* ------------------------------------------------------------------ *)
(** *** [follow_sets]: the rules of FOLLOW *)

Lemma dd_get_union fl k s k' :
  dd_get (dd_union fl k s) k' =
  if decide (k = k') then dd_get fl k ∪ s else dd_get fl k'.
Proof.
  unfold dd_union, dd_get at 1. rewrite lookup_insert. by case_decide.
Qed.

Lemma dd_union_is_Some fl k s k' :
  is_Some (dd_union fl k s !! k') ↔ is_Some (fl !! k') ∨ k' = k.
Proof.
  unfold dd_union. rewrite lookup_insert. case_decide as Hk.
  - subst. split; [by right|]. intros _. by eexists.
  - split; [by left|]. intros [?|?]; [done|congruence].
Qed.

Lemma dd_get_touch fl k k' : dd_get (dd_touch fl k) k' = dd_get fl k'.
Proof.
  unfold dd_touch. destruct (fl !! k) eqn:Hk; [done|].
  unfold dd_get. rewrite lookup_insert. case_decide; [|done].
  subst. by rewrite Hk.
Qed.

Lemma dd_touch_is_Some fl k k' :
  is_Some (dd_touch fl k !! k') ↔ is_Some (fl !! k') ∨ k' = k.
Proof.
  unfold dd_touch. destruct (fl !! k) eqn:Hk.
  - split; [by left|]. intros [?| ->]; [done|]. by rewrite Hk.
  - rewrite lookup_insert. case_decide as Hkk.
    + subst. split; [by right|]. intros _. by eexists.
    + split; [by left|]. intros [?|?]; [done|congruence].
Qed.

Lemma follow_le_refl st : follow_le st st.
Proof. by repeat split. Qed.

Lemma follow_le_trans st1 st2 st3 :
  follow_le st1 st2 → follow_le st2 st3 → follow_le st1 st3.
Proof.
  intros (H1 & H2 & H3 & H4) (H1' & H2' & H3' & H4').
  split; [set_solver|]. split; [|split; [by eauto|set_solver]].
  intros k. etrans; [apply H2|apply H2'].
Qed.

Lemma occurrence_recorded_mono fuel (g : grammar) a s rest st st' :
  follow_le st st' → occurrence_recorded fuel g a s rest st →
  occurrence_recorded fuel g a s rest st'.
Proof.
  intros (H1 & H2 & H3 & H4) (Hv & Hs & after & Ha & Hsub & He).
  split; [set_solver|]. split; [by apply H3|].
  exists after. split; [done|]. split; [|set_solver].
  etrans; [exact Hsub|apply H2].
Qed.

Lemma recorded_mono fuel (g : grammar) a st st' :
  follow_le st st' → recorded fuel g a st → recorded fuel g a st'.
Proof.
  intros Hle [Hdef Hrec]. split; [done|].
  intros prods prod pre s rest Hl Hp Hsplit Hs.
  eapply occurrence_recorded_mono; [done|]. by eapply Hrec.
Qed.

Section FollowWalk.
Variable fuel : nat.
Variable g : grammar.
Variable goal : string.

Lemma follow_prod_spec rec nt :
  (∀ s st st', rec s st = Ok st' → visit_post fuel g goal st s st') →
  ∀ prod st st',
    (∀ s, Str s ∈ prod → str_is_nt s = true → occurs g nt s) →
    follow_prod rec fuel g nt prod st = Ok st' →
    follow_le st st' ∧
    (∀ a, a ∈ visited st' → a ∉ visited st → recorded fuel g a st') ∧
    (∀ pre s rest, prod = pre ++ Str s :: rest → str_is_nt s = true →
                   occurrence_recorded fuel g nt s rest st') ∧
    (within_reach g goal st → reachable g goal nt → within_reach g goal st').
Proof.
  intros Hrec. induction prod as [|x prod IH]; intros st st' Hocc.
  - simpl. intros [= <-]. split; [apply follow_le_refl|].
    split; [done|]. split; [|done]. intros [|??] ???; done.
  - assert (Hocc' : ∀ s, Str s ∈ prod → str_is_nt s = true → occurs g nt s).
    { intros s Hs. apply Hocc. by right. }
    assert (Hskip : is_nt x = false →
      follow_prod rec fuel g nt prod st = Ok st' →
      follow_le st st' ∧
      (∀ a, a ∈ visited st' → a ∉ visited st → recorded fuel g a st') ∧
      (∀ pre s rest, x :: prod = pre ++ Str s :: rest → str_is_nt s = true →
                     occurrence_recorded fuel g nt s rest st') ∧
      (within_reach g goal st → reachable g goal nt →
       within_reach g goal st')).
    { intros Hx Hres. destruct (IH st st' Hocc' Hres) as (H1 & H2 & H3 & H4).
      split; [done|]. split; [done|]. split; [|done].
      intros [|y pre] s rest Hsplit Hs.
      - injection Hsplit as -> ->. simpl in Hx. congruence.
      - injection Hsplit as -> ->. by eapply H3. }
    destruct x as [s|tn ti ac]; [|by apply Hskip].
    cbn [follow_prod]. destruct (str_is_nt s) eqn:Hs; [|by apply Hskip].
    destruct (rec s st) as [st1| |] eqn:Hr; [|done..].
    destruct (seq_start fuel g prod) as [after| |] eqn:Hafter; [|done..].
    destruct (Hrec s st st1 Hr) as (Hle1 & Hv1 & Hnew1 & Hreach1).
    set (st2 := if bool_decide (EMPTY ∈ after)
                then FollowState (visited st1)
                       (dd_union (follow st1) s (after ∖ {[EMPTY]}))
                       ({[(s, nt)]} ∪ subsumes_relation st1)
                else FollowState (visited st1)
                       (dd_union (follow st1) s after)
                       (subsumes_relation st1)).
    intros Hres.
    assert (Hvis2 : visited st2 = visited st1) by (unfold st2; by case_bool_decide).
    assert (Hle2 : follow_le st1 st2).
    { unfold st2. case_bool_decide; (split; [done|]; split; [|split]); simpl.
      - intros k. rewrite dd_get_union. case_decide; [|done].
        subst k. apply union_subseteq_l.
      - intros k Hk. apply dd_union_is_Some. by left.
      - apply union_subseteq_r.
      - intros k. rewrite dd_get_union. case_decide; [|done].
        subst k. apply union_subseteq_l.
      - intros k Hk. apply dd_union_is_Some. by left.
      - done. }
    assert (Hocc2 : occurrence_recorded fuel g nt s prod st2).
    { split; [by rewrite Hvis2|]. split.
      - unfold st2. case_bool_decide; simpl; apply dd_union_is_Some; by right.
      - exists after. split; [done|]. unfold st2.
        case_bool_decide as He; simpl; rewrite dd_get_union;
          rewrite decide_True by done.
        + split; [apply union_subseteq_r|]. intros _.
          apply elem_of_union_l. by apply elem_of_singleton.
        + split; [|done]. etrans; [|apply union_subseteq_r].
          apply subseteq_difference_l. done. }
    assert (Hreach2 : within_reach g goal st1 → reachable g goal s →
                      reachable g goal nt → within_reach g goal st2).
    { intros (W1 & W2 & W3) Hrs Hnt. split; [by rewrite Hvis2|]. unfold st2.
      case_bool_decide; simpl; (split; [|]).
      - intros k [Hk| ->]%dd_union_is_Some; by eauto.
      - intros t' s' [[= -> ->]%elem_of_singleton|Hin]%elem_of_union; by eauto.
      - intros k [Hk| ->]%dd_union_is_Some; by eauto.
      - done. }
    clearbody st2.
    destruct (IH st2 st' Hocc' Hres) as (Hle3 & Hnew3 & Hrec3 & Hreach3).
    split; [eapply follow_le_trans; [exact Hle1|];
            eapply follow_le_trans; [exact Hle2|exact Hle3]|].
    split; [|split].
    + intros a Ha Hna. destruct (decide (a ∈ visited st1)) as [Ha1|Ha1].
      * eapply recorded_mono; [|by apply Hnew1].
        by eapply follow_le_trans.
      * apply Hnew3; [done|]. by rewrite Hvis2.
    + intros [|y pre] s' rest Hsplit Hs'.
      * simpl in Hsplit. injection Hsplit as Hs1 Hs2. subst s' rest.
        by eapply occurrence_recorded_mono.
      * simpl in Hsplit. injection Hsplit as Hs1 Hs2. subst y prod.
        by eapply Hrec3.
    + intros Hw Hnt.
      assert (Hos : occurs g nt s) by (apply Hocc; [left|done]).
      assert (Hrs : reachable g goal s) by (by eapply rtc_r).
      apply Hreach3; [|done]. apply Hreach2; [|done..]. by apply Hreach1.
Qed.

Lemma follow_prods_spec rec nt all_prods :
  g_lookup g nt = Some all_prods →
  (∀ s st st', rec s st = Ok st' → visit_post fuel g goal st s st') →
  ∀ prods st st',
    prods ⊆ all_prods →
    for_each (follow_prod rec fuel g nt) prods st = Ok st' →
    follow_le st st' ∧
    (∀ a, a ∈ visited st' → a ∉ visited st → recorded fuel g a st') ∧
    (∀ prod pre s rest, prod ∈ prods → prod = pre ++ Str s :: rest →
                        str_is_nt s = true →
                        occurrence_recorded fuel g nt s rest st') ∧
    (within_reach g goal st → reachable g goal nt → within_reach g goal st').
Proof.
  intros Hl Hrec. induction prods as [|prod prods IH]; intros st st' Hsub;
    cbn [for_each].
  - intros [= <-]. split; [apply follow_le_refl|]. split; [done|].
    split; [|done]. intros ???? Hin. inversion Hin.
  - destruct (follow_prod rec fuel g nt prod st) as [st1| |] eqn:Hp; [|done..].
    intros Hres.
    destruct (follow_prod_spec rec nt Hrec prod st st1) as (L1 & N1 & R1 & W1);
      [|done|].
    { intros s Hs Hnt. exists all_prods, prod.
      split; [done|]. split; [apply Hsub; left|]. done. }
    destruct (IH st1 st') as (L2 & N2 & R2 & W2); [|done|].
    { intros x Hx. apply Hsub. by right. }
    split; [by eapply follow_le_trans|]. split; [|split].
    + intros a Ha Hna. destruct (decide (a ∈ visited st1)) as [Ha1|Ha1].
      * eapply recorded_mono; [done|]. by apply N1.
      * by apply N2.
    + intros p pre s rest [->|Hin]%elem_of_cons Hsplit Hs.
      * eapply occurrence_recorded_mono; [done|]. by eapply R1.
      * by eapply R2.
    + intros Hw Hnt. apply W2; [|done]. by apply W1.
Qed.

Lemma follow_visit_spec depth :
  ∀ nt st st',
    follow_visit depth fuel g nt st = Ok st' → visit_post fuel g goal st nt st'.
Proof.
  induction depth as [|depth IH]; intros nt st st'; [done|].
  cbn [follow_visit]. case_bool_decide as Hin.
  - intros [= <-]. split; [apply follow_le_refl|]. split; [done|].
    split; [done|]. done.
  - destruct (g_lookup g nt) as [prods|] eqn:Hl; [|done]. intros Hres.
    destruct (follow_prods_spec (follow_visit depth fuel g) nt prods Hl IH
                prods _ st' ltac:(done) Hres) as (L & N & R & W).
    simpl in L, N, W.
    assert (Hle0 : follow_le st
              (FollowState ({[nt]} ∪ visited st) (follow st)
                 (subsumes_relation st))).
    { split; [simpl; set_solver|]. by split; [|split]. }
    split; [by eapply follow_le_trans|].
    split; [destruct L as [Lv _]; simpl in Lv; set_solver|].
    split.
    + intros a Ha Hna. destruct (decide (a = nt)) as [->|Hne].
      * split; [by eexists|].
        intros prods' prod pre s rest Hl' Hp Hsplit Hs.
        rewrite Hl in Hl'. injection Hl' as <-. by eapply R.
      * apply N; [done|]. set_solver.
    + intros (W1 & W2 & W3) Hnt. apply W; [|done].
      split; [|by split]. simpl. intros a [->%elem_of_singleton|?]%elem_of_union;
        by eauto.
Qed.
End FollowWalk.

(** *** The loop to the fixed point *)

Lemma subsume_step_spec t s fl b :
  let r := subsume_step (t, s) (fl, b) in
  (∀ k, dd_get fl k ⊆ dd_get r.1 k) ∧
  (∀ k, is_Some (r.1 !! k) ↔ is_Some (fl !! k) ∨ k = t ∨ k = s) ∧
  (r.2 = true → b = true ∧ (∀ k, dd_get r.1 k = dd_get fl k) ∧
                dd_get fl s ⊆ dd_get fl t) ∧
  (r.2 = false → b = true → dd_get fl t ⊂ dd_get r.1 t) ∧
  (∀ u : strset, (∀ k, dd_get fl k ⊆ u) → ∀ k, dd_get r.1 k ⊆ u).
Proof.
  unfold subsume_step. simpl.
  rewrite !dd_get_touch. case_bool_decide as Hd; simpl.
  - split; [by intros k; rewrite !dd_get_touch|].
    split; [intros k; rewrite !dd_touch_is_Some; tauto|].
    split; [|split].
    + intros ->. split; [done|]. split; [by intros k; rewrite !dd_get_touch|].
      set_solver.
    + intros ->. done.
    + intros u Hu k. by rewrite !dd_get_touch.
  - split; [|split; [|split; [done|split]]].
    + intros k. rewrite dd_get_union, !dd_get_touch. case_decide; set_solver.
    + intros k. rewrite dd_union_is_Some, !dd_touch_is_Some. tauto.
    + intros _ _. rewrite dd_get_union, !dd_get_touch.
      rewrite decide_True by done. set_solver.
    + intros u Hu k. rewrite dd_get_union, !dd_get_touch.
      case_decide; [|done]. pose proof (Hu t). pose proof (Hu s). set_solver.
Qed.

Lemma subsume_pass_spec pairs :
  ∀ fl b,
    let r := foldl (λ acc pair, subsume_step pair acc) (fl, b) pairs in
    (∀ k, dd_get fl k ⊆ dd_get r.1 k) ∧
    (∀ k, is_Some (fl !! k) → is_Some (r.1 !! k)) ∧
    (∀ k, is_Some (r.1 !! k) →
          is_Some (fl !! k) ∨ ∃ p, p ∈ pairs ∧ (k = p.1 ∨ k = p.2)) ∧
    (r.2 = true → b = true ∧ (∀ k, dd_get r.1 k = dd_get fl k) ∧
                  ∀ t s, (t, s) ∈ pairs → dd_get fl s ⊆ dd_get fl t) ∧
    (r.2 = false → b = true →
       ∃ p, p ∈ pairs ∧ dd_get fl p.1 ⊂ dd_get r.1 p.1) ∧
    (∀ u : strset, (∀ k, dd_get fl k ⊆ u) → ∀ k, dd_get r.1 k ⊆ u).
Proof.
  induction pairs as [|[t s] pairs IH]; intros fl b; cbn [foldl].
  - simpl. split; [done|]. split; [done|]. split; [by left|]. split; [|split; [|done]].
    + intros ->. split; [done|]. split; [done|]. intros ?? Hin. inversion Hin.
    + intros -> ?. done.
  - pose proof (subsume_step_spec t s fl b) as (S1 & S2 & S3 & S4 & S5).
    destruct (subsume_step (t, s) (fl, b)) as [fl1 b1] eqn:Hstep.
    simpl in S1, S2, S3, S4, S5.
    pose proof (IH fl1 b1) as (P1 & P2 & P3 & P4 & P5 & P6).
    simpl in P1, P2, P3, P4, P5, P6.
    split; [intros k; etrans; [apply S1|apply P1]|].
    split; [intros k Hk; apply P2, S2; by left|].
    split; [|split; [|split]].
    + intros k Hk. destruct (P3 k Hk) as [Hk1|(p & Hp & Hkp)].
      * apply S2 in Hk1 as [?|[->| ->]]; [by left|right..];
          exists (t, s); (split; [left|]); simpl; auto.
      * right. exists p. split; [by right|done].
    + intros Hr. destruct (P4 Hr) as (-> & Heq & Hall).
      destruct (S3 eq_refl) as (-> & Heq1 & Hts).
      split; [done|]. split; [by intros k; rewrite Heq, Heq1|].
      intros t' s' [[= -> ->]|Hin]%elem_of_cons; [done|].
      rewrite <- !Heq1. by apply Hall.
    + intros Hr Hb. destruct b1.
      * destruct (P5 Hr eq_refl) as (p & Hp & Hlt).
        exists p. split; [by right|].
        eapply strict_trans_r; [apply S1|exact Hlt].
      * exists (t, s). split; [left|]. simpl.
        eapply strict_trans_l; [by apply S4|apply P1].
    + intros u Hu. apply P6. by apply S5.
Qed.

Lemma subsume_fix_spec fuel pairs :
  ∀ fl fl',
    subsume_fix fuel pairs fl = Ok fl' →
    (∀ k, dd_get fl k ⊆ dd_get fl' k) ∧
    (∀ k, is_Some (fl !! k) → is_Some (fl' !! k)) ∧
    (∀ k, is_Some (fl' !! k) →
          is_Some (fl !! k) ∨ ∃ p, p ∈ pairs ∧ (k = p.1 ∨ k = p.2)) ∧
    (∀ t s, (t, s) ∈ pairs → dd_get fl' s ⊆ dd_get fl' t).
Proof.
  induction fuel as [|fuel IH]; intros fl fl'; [done|]. cbn [subsume_fix].
  pose proof (subsume_pass_spec pairs fl true) as (P1 & P2 & P3 & P4 & _).
  unfold subsume_pass.
  destruct (foldl _ (fl, true) pairs) as [fl1 b1]. simpl in P1, P2, P3, P4.
  destruct b1.
  - intros [= <-]. split; [done|]. split; [done|]. split; [done|].
    destruct (P4 eq_refl) as (_ & Heq & Hall). intros t s Hin.
    rewrite !Heq. by apply Hall.
  - intros Hres. destruct (IH fl1 fl' Hres) as (F1 & F2 & F3 & F4).
    split; [intros k; etrans; [apply P1|apply F1]|].
    split; [by eauto|]. split; [|done].
    intros k Hk. destruct (F3 k Hk) as [Hk1|?]; [|by right]. by apply P3.
Qed.

Section FollowSets.
Variable fuel : nat.
Variable g : grammar.
Variable goal : string.
Variable fl : gmap string strset.
Hypothesis Hfollow : follow_sets fuel g goal = Ok fl.

Lemma follow_sets_walk :
  ∃ st, follow_le (FollowState ∅ (dd_union ∅ goal {[END]}) ∅) st ∧
        goal ∈ visited st ∧
        (∀ a, a ∈ visited st → recorded fuel g a st) ∧
        within_reach g goal st ∧
        subsume_fix fuel (elements (subsumes_relation st)) (follow st) = Ok fl.
Proof.
  unfold follow_sets in Hfollow.
  destruct (follow_visit fuel fuel g goal _) as [st| |] eqn:Hv; [|done..].
  exists st. destruct (follow_visit_spec fuel g goal fuel _ _ _ Hv)
    as (L & V & N & W).
  split; [done|]. split; [done|]. split; [|split; [|done]].
  - intros a Ha. apply N; [done|]. simpl. set_solver.
  - apply W; [|apply rtc_refl]. split; [simpl; set_solver|]. split.
    + simpl. intros k [Hk| ->]%dd_union_is_Some; [|apply rtc_refl].
      rewrite lookup_empty in Hk. by destruct Hk.
    + simpl. set_solver.
Qed.

Lemma reachable_visited st a :
  goal ∈ visited st → (∀ a, a ∈ visited st → recorded fuel g a st) →
  reachable g goal a → a ∈ visited st.
Proof.
  intros Hg Hrec Hr. revert a Hr.
  apply (rtc_ind_r (λ a, a ∈ visited st)); [done|]. intros b c Hb Hbc IH.
  destruct Hbc as (prods & prod & Hl & Hp & Hin & Hc).
  apply list_elem_of_split in Hin as (pre & rest & ->).
  destruct (Hrec b IH) as [_ Hall].
  by destruct (Hall prods _ pre c rest Hl Hp eq_refl Hc) as [? _].
Qed.

Lemma follow_rules_aux a prods prod pre s rest :
  reachable g goal a → g_lookup g a = Some prods → prod ∈ prods →
  prod = pre ++ Str s :: rest → str_is_nt s = true →
  ∃ after, seq_start fuel g rest = Ok after ∧
           after ∖ {[EMPTY]} ⊆ dd_get fl s ∧
           (EMPTY ∈ after → dd_get fl a ⊆ dd_get fl s).
Proof.
  intros Hr Hl Hp Hsplit Hs.
  destruct follow_sets_walk as (st & L & Hg & Hrec & W & Hfix).
  destruct (subsume_fix_spec _ _ _ _ Hfix) as (F1 & F2 & F3 & F4).
  pose proof (reachable_visited st a Hg Hrec Hr) as Ha.
  destruct (Hrec a Ha) as [_ Hall].
  destruct (Hall prods prod pre s rest Hl Hp Hsplit Hs)
    as (_ & _ & after & Hafter & Hsub & Hemp).
  exists after. split; [done|]. split.
  - etrans; [exact Hsub|apply F1].
  - intros He. apply F4, elem_of_elements. by apply Hemp.
Qed.

Lemma follow_domain_aux a :
  (is_Some (fl !! a) ↔ reachable g goal a) ∧
  (reachable g goal a → a ∈ keys g).
Proof.
  destruct follow_sets_walk as (st & L & Hg & Hrec & W & Hfix).
  destruct (subsume_fix_spec _ _ _ _ Hfix) as (F1 & F2 & F3 & F4).
  destruct W as (W1 & W2 & W3). split; [split|].
  - intros Hk. destruct (F3 a Hk) as [?|([t s] & Hp & Hts)]; [by apply W2|].
    apply elem_of_elements in Hp. destruct (W3 t s Hp).
    by destruct Hts as [->| ->].
  - intros Hr. apply F2. revert a Hr.
    apply (rtc_ind_r (λ a, is_Some (follow st !! a))); [|intros b c Hb Hbc _].
    + destruct L as (_ & _ & L3 & _). apply L3. simpl.
      apply dd_union_is_Some. by right.
    + pose proof (reachable_visited st b Hg Hrec Hb) as Hbv.
      destruct Hbc as (prods & prod & Hl & Hp & Hin & Hc).
      apply list_elem_of_split in Hin as (pre & rest & ->).
      destruct (Hrec b Hbv) as [_ Hall].
      by destruct (Hall prods _ pre c rest Hl Hp eq_refl Hc) as (_ & ? & _).
  - intros Hr. pose proof (reachable_visited st a Hg Hrec Hr) as Ha.
    destruct (Hrec a Ha) as [Hdef _]. by apply g_lookup_is_Some.
Qed.
End FollowSets.

(** X17: the sets that [follow_sets] returns obey the rules of FOLLOW at
    every nonterminal [a] that the goal reaches: where [s] occurs in a
    production of [a], what can start the rest of the production is in
    the set of [s], and when the rest can be empty the set of [a] is
    inside the set of [s]. *)
Theorem follow_sets_rules fuel (g : grammar) goal fl a prods prod pre s rest :
  follow_sets fuel g goal = Ok fl →
  reachable g goal a → g_lookup g a = Some prods → prod ∈ prods →
  prod = pre ++ Str s :: rest → str_is_nt s = true →
  ∃ after, seq_start fuel g rest = Ok after ∧
           after ∖ {[EMPTY]} ⊆ dd_get fl s ∧
           (EMPTY ∈ after → dd_get fl a ⊆ dd_get fl s).
Proof. intros Hf. by apply follow_rules_aux. Qed.

(** X18: the dictionary that [follow_sets] returns has an entry for a name
    exactly when the goal reaches it through the productions; every such
    name is a key of the grammar. *)
Theorem follow_sets_domain fuel (g : grammar) goal fl a :
  follow_sets fuel g goal = Ok fl →
  (is_Some (fl !! a) ↔ reachable g goal a) ∧
  (reachable g goal a → a ∈ keys g).
Proof. intros Hf. by apply (follow_domain_aux fuel g goal fl Hf). Qed.

(* ------------------------------------------------------------------ *)
(** *** [follow_sets]: the loop to the fixed point *)

Lemma dd_get_universe fl k : dd_get fl k ⊆ universe fl.
Proof.
  unfold dd_get, universe. destruct (fl !! k) as [s|] eqn:Hk; simpl; [|set_solver].
  apply elem_of_map_to_list in Hk.
  intros x Hx. apply elem_of_union_list. exists s. split; [|done].
  apply list_elem_of_fmap. by exists (k, s).
Qed.

Lemma sum_list_with_lt {A} (f f' : A → nat) (l : list A) :
  (∀ x, x ∈ l → f' x ≤ f x) → (∃ x, x ∈ l ∧ f' x < f x) →
  sum_list_with f' l < sum_list_with f l.
Proof.
  induction l as [|a l IH]; intros Hle (x & Hx & Hlt); [by inversion Hx|].
  simpl. pose proof (Hle a ltac:(left)) as Ha.
  assert (Hle' : ∀ y, y ∈ l → f' y ≤ f y) by (intros y Hy; apply Hle; by right).
  assert (Hall : sum_list_with f' l ≤ sum_list_with f l).
  { clear -Hle'. induction l as [|b l IH]; simpl; [done|].
    pose proof (Hle' b ltac:(left)).
    assert (sum_list_with f' l ≤ sum_list_with f l); [|lia].
    apply IH. intros y Hy. apply Hle'. by right. }
  apply elem_of_cons in Hx as [->|Hx]; [lia|].
  assert (sum_list_with f' l < sum_list_with f l); [|lia].
  apply IH; [done|]. by exists x.
Qed.

Lemma slack_decreases (u : strset) pairs fl fl' :
  (∀ k, dd_get fl k ⊆ dd_get fl' k) → (∀ k, dd_get fl' k ⊆ u) →
  (∃ p, p ∈ pairs ∧ dd_get fl p.1 ⊂ dd_get fl' p.1) →
  slack u pairs fl' < slack u pairs fl.
Proof.
  intros Hmono Hu (p & Hp & Hlt). apply sum_list_with_lt.
  - intros q _. apply subseteq_size. pose proof (Hmono q.1). set_solver.
  - exists p. split; [done|]. apply subset_size.
    pose proof (Hu p.1). destruct Hlt as [Hsub Hnsub]. split; [set_solver|].
    intros Hback. apply Hnsub. intros x Hx.
    destruct (decide (x ∈ dd_get fl p.1)) as [|Hn]; [done|].
    assert (x ∈ u ∖ dd_get fl p.1) as Hin by set_solver.
    apply Hback in Hin. set_solver.
Qed.

Lemma subsume_fix_enough (u : strset) pairs :
  ∀ n fl, slack u pairs fl < n → (∀ k, dd_get fl k ⊆ u) →
          ∃ fl', subsume_fix n pairs fl = Ok fl'.
Proof.
  induction n as [|n IH]; intros fl Hn Hu; [lia|]. cbn [subsume_fix].
  pose proof (subsume_pass_spec pairs fl true) as (P1 & _ & _ & _ & P5 & P6).
  unfold subsume_pass.
  destruct (foldl _ (fl, true) pairs) as [fl1 b1]. simpl in P1, P5, P6.
  destruct b1; [by eexists|].
  apply IH; [|by apply P6].
  pose proof (slack_decreases u pairs fl fl1 P1 (P6 u Hu) (P5 eq_refl eq_refl)).
  lia.
Qed.

(** X19: the loop of [follow_sets] that iterates the subsumes relation to
    a fixed point comes to an end, whatever the sets and the pairs it
    starts from: some number of turns gives the result, and so does any
    larger number. *)
Theorem subsume_fix_terminates pairs fl :
  ∃ turns fl', ∀ n, turns ≤ n → subsume_fix n pairs fl = Ok fl'.
Proof.
  destruct (subsume_fix_enough (universe fl) pairs
              (S (slack (universe fl) pairs fl)) fl) as [fl' Hfl'];
    [lia|apply dd_get_universe|].
  exists (S (slack (universe fl) pairs fl)), fl'.
  revert Hfl'. generalize (S (slack (universe fl) pairs fl)). clear.
  intros m. revert fl. induction m as [|m IH]; intros fl Hm n Hn; [done|].
  destruct n as [|n]; [lia|]. cbn [subsume_fix] in *.
  destruct (subsume_pass pairs fl) as [fl1 b1]. destruct b1; [done|].
  apply IH; [done|lia].
Qed.

(** *** What [check_ambiguity] accepts *)

Lemma ambiguity_prods_accepts fuel (g : grammar) nt :
  ∀ prods acc total,
    ambiguity_prods fuel g nt prods acc = Ok total →
    acc ⊆ total ∧
    (∀ p, p ∈ prods → ∃ sp, seq_start fuel g p = Ok sp ∧ sp ⊆ total ∧
                            sp ∩ acc = ∅) ∧
    (∀ i j p q, i < j → prods !! i = Some p → prods !! j = Some q →
       ∃ sp sq, seq_start fuel g p = Ok sp ∧ seq_start fuel g q = Ok sq ∧
                sp ∩ sq = ∅).
Proof.
  induction prods as [|prod prods IH]; intros acc total; simpl.
  - intros [= <-]. split; [done|]. split; [by intros p Hp; inversion Hp|].
    intros i j p q _ Hi. by rewrite lookup_nil in Hi.
  - destruct (seq_start fuel g prod) as [ps| |] eqn:Hps; [|done..].
    case_bool_decide as Hc.
    2:{ case_bool_decide; [done|]. by destruct (first_of _). }
    intros Hres. destruct (IH _ _ Hres) as (Hsub & Hall & Hpair).
    split; [set_solver|]. split.
    + intros p [->|Hp]%elem_of_cons.
      * exists ps. split; [done|]. split; [set_solver|done].
      * destruct (Hall p Hp) as (sp & Hsp & Hin & Hdis).
        exists sp. split; [done|]. split; [done|]. set_solver.
    + intros i j p q Hlt Hi Hj. destruct j as [|j]; [lia|]. simpl in Hj.
      destruct i as [|i]; simpl in Hi.
      * injection Hi as <-. apply list_elem_of_lookup_2 in Hj.
        destruct (Hall q Hj) as (sq & Hsq & _ & Hdis).
        exists ps, sq. split; [done|]. split; [done|]. set_solver.
      * apply (Hpair i j p q); [lia|done..].
Qed.

Lemma for_each_unit_elem {A} (f : A → result unit) (l : list A) x :
  for_each (λ e _, f e) l tt = Ok tt → x ∈ l → f x = Ok tt.
Proof.
  induction l as [|e l IH]; intros Hloop Hin; [by inversion Hin|].
  cbn [for_each] in Hloop. destruct (f e) as [[]| |] eqn:He; [|done..].
  apply elem_of_cons in Hin as [->|Hin]; [done|]. by apply IH.
Qed.

(** X20: a grammar that [check_ambiguity] accepts is in LL(1) form: any two
    productions of a nonterminal have disjoint start sets, and when one
    of them can match the empty string no start set of the nonterminal
    meets its follow set. *)
Theorem check_ambiguity_accepts_ll1 fuel (g : grammar) goal :
  check_ambiguity fuel g goal = Ok tt →
  ∃ fl, follow_sets fuel g goal = Ok fl ∧
    ∀ nt prods i j p q,
      (nt, prods) ∈ g → prods !! i = Some p → prods !! j = Some q →
      ∃ sp sq, seq_start fuel g p = Ok sp ∧ seq_start fuel g q = Ok sq ∧
               (i ≠ j → sp ∩ sq = ∅) ∧
               (EMPTY ∈ sq → sp ∩ dd_get fl nt = ∅).
Proof.
  unfold check_ambiguity.
  destruct (follow_sets fuel g goal) as [fl| |]; [|done..].
  destruct (for_each _ g tt) as [[]| |] eqn:Hloop; [|done..]. intros _.
  exists fl. split; [done|]. intros nt prods i j p q Hin Hi Hj.
  assert (Hnt : ambiguity_nt fuel g fl (nt, prods) = Ok tt).
  { by apply (for_each_unit_elem (ambiguity_nt fuel g fl) g). }
  unfold ambiguity_nt in Hnt.
  destruct (ambiguity_prods fuel g nt prods ∅) as [total| |] eqn:Hp; [|done..].
  destruct (ambiguity_prods_accepts fuel g nt prods ∅ total Hp)
    as (_ & Hall & Hpair).
  destruct (Hall p (list_elem_of_lookup_2 _ _ _ Hi)) as (sp & Hsp & Hspt & _).
  destruct (Hall q (list_elem_of_lookup_2 _ _ _ Hj)) as (sq & Hsq & Hsqt & _).
  exists sp, sq. split; [done|]. split; [done|]. split.
  - intros Hne. destruct (decide (i < j)) as [Hlt|Hge].
    + destruct (Hpair i j p q Hlt Hi Hj) as (sp' & sq' & Hsp' & Hsq' & Hd).
      congruence.
    + destruct (Hpair j i q p ltac:(lia) Hj Hi) as (sq' & sp' & Hsq' & Hsp' & Hd).
      rewrite Hsp in Hsp'. rewrite Hsq in Hsq'.
      injection Hsp' as <-. injection Hsq' as <-. set_solver.
  - intros He. rewrite bool_decide_eq_true_2 in Hnt by set_solver.
    case_bool_decide as Hclash; [set_solver|]. by destruct (first_of _).
Qed.

(* ------------------------------------------------------------------ *)
(** *** Instances *)

Lemma check_error_names_offender_witness :
  check cyclic_grammar = Raise (ValueError (HasCycle "a")) ∧
  check_error_sound cyclic_grammar (ValueError (HasCycle "a")).
Proof.
  split; [vm_compute; reflexivity|].
  apply (check_error_names_offender cyclic_grammar). vm_compute. reflexivity.
Defined.

Lemma gensym_first_free_witness :
  str_is_nt "expr" = true ∧
  ∃ n, gensym expr_grammar "expr" = Ok ("expr" +:+ underscores n) ∧
       ("expr" +:+ underscores n ∉ keys expr_grammar) ∧
       (∀ m, m < n → "expr" +:+ underscores m ∈ keys expr_grammar) ∧
       ("expr" ∉ keys expr_grammar → n = 0).
Proof.
  split; [reflexivity|].
  apply (gensym_first_free expr_grammar "expr"). reflexivity.
Defined.

Lemma eliminate_left_calls_post_witness :
  ∃ g' inlined,
    eliminate_left_calls expr_grammar "term" "prim" = Ok g' ∧
    keys g' = keys expr_grammar ∧
    (∀ k, k ≠ "term" → g_lookup g' k = g_lookup expr_grammar k) ∧
    g_lookup g' "term" =
      Some (List.filter (λ r, negb (starts_with "prim" r))
              [[Str "prim"];
               [Str "term"; Str "*"; Str "prim"];
               [Str "term"; Str "/"; Str "prim"]] ++ inlined) ∧
    (∀ r, r ∈ inlined ↔
          ∃ c a, c ∈ [[Str "NUM"]; [Str "VAR"]; [Str "("; Str "expr"; Str ")"]] ∧
                 (Str "prim" :: a) ∈ [[Str "prim"];
                                      [Str "term"; Str "*"; Str "prim"];
                                      [Str "term"; Str "/"; Str "prim"]] ∧
                 r = c ++ a) ∧
    (∀ prods r, g_lookup g' "term" = Some prods → r ∈ prods →
                starts_with "prim" r = false).
Proof.
  apply (eliminate_left_calls_post expr_grammar "term" "prim").
  - apply (bool_decide_unpack _). vm_compute. exact I.
  - reflexivity.
  - reflexivity.
  - apply Forall_forall. apply (bool_decide_unpack _). vm_compute. exact I.
Defined.


Lemma quasisort_returns_keys_witness :
  ∃ ntnames, quasisort_nts expr_grammar = Ok ntnames ∧
             ntnames ≡ₚ keys expr_grammar ∧ NoDup ntnames.
Proof.
  apply (quasisort_returns_keys expr_grammar).
  - apply (bool_decide_unpack _). vm_compute. exact I.
  - apply leads_defined_b_sound. vm_compute. reflexivity.
Defined.

Lemma quasisort_topological_witness :
  quasisort_nts demo_grammar = Ok ["e_"; "e"; "t"] ∧
  ∀ a b, lead demo_grammar a b → comes_before ["e_"; "e"; "t"] a b.
Proof.
  split; [vm_compute; reflexivity|].
  apply (quasisort_topological demo_grammar).
  - apply (lead_ranked_acyclic demo_rank). vm_compute. reflexivity.
  - vm_compute. reflexivity.
Defined.

Lemma eliminate_nothing_to_do_witness :
  wf_grammar demo_grammar ∧
  eliminate_left_recursion demo_grammar = (demo_grammar, Ok tt).
Proof.
  assert (Hwf : wf_grammar demo_grammar).
  { unfold wf_grammar. apply (bool_decide_unpack _). vm_compute. exact I. }
  split; [exact Hwf|].
  apply (eliminate_nothing_to_do demo_grammar Hwf).
  - apply leads_defined_b_sound. vm_compute. reflexivity.
  - apply (lead_ranked_acyclic demo_rank). vm_compute. reflexivity.
Defined.

Lemma eliminate_keeps_rules_witness :
  wf_grammar expr_grammar ∧ check expr_grammar = Ok tt ∧
  ∃ g', eliminate_left_recursion expr_grammar = (g', Ok tt) ∧
        wf_grammar g' ∧ ¬ rule1_violated g' ∧
        (∀ a prods r, a ∈ keys expr_grammar → g_lookup g' a = Some prods →
                      r ∈ prods → strip r ≠ []) ∧
        (∀ e prods r, e ∉ keys expr_grammar → g_lookup g' e = Some prods →
                      r ∈ prods → r = [] ∨ ∃ a, a ≠ [] ∧ r = a ++ [Str e]).
Proof.
  assert (Hwf : wf_grammar expr_grammar).
  { unfold wf_grammar. apply (bool_decide_unpack _). vm_compute. exact I. }
  assert (Hc : check expr_grammar = Ok tt) by (vm_compute; reflexivity).
  split; [exact Hwf|]. split; [exact Hc|].
  exact (eliminate_keeps_rules expr_grammar Hwf Hc).
Defined.

Lemma start_set_inhabited_witness :
  ∃ s, start 4 demo_grammar (Str "e") = Ok s ∧
       s ≠ ∅ ∧ ∀ x, x ∈ s → str_is_nt x = false.
Proof.
  eexists. split; [vm_compute; reflexivity|].
  apply (start_set_inhabited demo_grammar 4 (Str "e")). vm_compute. reflexivity.
Defined.

Lemma seq_start_app_witness :
  ∃ sa, seq_start 4 demo_grammar [Str "e_"] = Ok sa ∧
        seq_start 4 demo_grammar ([Str "e_"] ++ [Str ")"]) =
        if bool_decide (EMPTY ∈ sa)
        then add_to (sa ∖ {[EMPTY]}) (seq_start 4 demo_grammar [Str ")"])
        else Ok sa.
Proof.
  eexists. split; [vm_compute; reflexivity|].
  apply (seq_start_app demo_grammar 4 [Str "e_"] [Str ")"]).
  vm_compute. reflexivity.
Defined.

Lemma follow_sets_rules_witness :
  ∃ fl, follow_sets 4 demo_grammar "e" = Ok fl ∧
    ∃ after, seq_start 4 demo_grammar [Str "e_"] = Ok after ∧
             after ∖ {[EMPTY]} ⊆ dd_get fl "t" ∧
             (EMPTY ∈ after → dd_get fl "e" ⊆ dd_get fl "t").
Proof.
  eexists. split; [vm_compute; reflexivity|].
  apply (follow_sets_rules 4 demo_grammar "e" _ "e"
           [[Str "t"; Str "e_"]] [Str "t"; Str "e_"] [] "t" [Str "e_"]).
  - vm_compute. reflexivity.
  - apply rtc_refl.
  - reflexivity.
  - apply list_elem_of_here.
  - reflexivity.
  - reflexivity.
Defined.

Lemma follow_sets_domain_witness :
  ∃ fl, follow_sets 4 demo_grammar "e" = Ok fl ∧
        (is_Some (fl !! "t") ↔ reachable demo_grammar "e" "t") ∧
        (reachable demo_grammar "e" "t" → "t" ∈ keys demo_grammar).
Proof.
  eexists. split; [vm_compute; reflexivity|].
  apply (follow_sets_domain 4 demo_grammar "e"). vm_compute. reflexivity.
Defined.

Lemma emission_cannot_fail_witness :
  check_ambiguity 4 demo_grammar "e" = Ok tt ∧
  ∃ out', emit_nts 4 demo_grammar demo_grammar [] = (out', Ok tt) ∧
          [] `prefix_of` out'.
Proof.
  split; [vm_compute; reflexivity|].
  apply (emission_cannot_fail 4 demo_grammar "e" []). vm_compute. reflexivity.
Defined.

Lemma generate_parser_succeeds_iff_witness :
  (generate_parser 6 {[0 := expr_grammar]} [] 0 "expr").2 = Ok tt ↔
  check (augment expr_grammar) = Ok tt ∧
  (eliminate_left_recursion (augment expr_grammar)).2 = Ok tt ∧
  check_ambiguity 6 (eliminate_left_recursion (augment expr_grammar)).1 "expr"
    = Ok tt.
Proof.
  apply (generate_parser_succeeds_iff 6 {[0 := expr_grammar]} [] 0 "expr"
           expr_grammar).
  reflexivity.
Defined.

Lemma check_ambiguity_accepts_ll1_witness :
  check_ambiguity 4 demo_grammar "e" = Ok tt ∧
  ∃ fl, follow_sets 4 demo_grammar "e" = Ok fl ∧
    ∀ nt prods i j p q,
      (nt, prods) ∈ demo_grammar → prods !! i = Some p → prods !! j = Some q →
      ∃ sp sq, seq_start 4 demo_grammar p = Ok sp ∧
               seq_start 4 demo_grammar q = Ok sq ∧
               (i ≠ j → sp ∩ sq = ∅) ∧
               (EMPTY ∈ sq → sp ∩ dd_get fl nt = ∅).
Proof.
  split; [vm_compute; reflexivity|].
  apply (check_ambiguity_accepts_ll1 4 demo_grammar "e"). vm_compute. reflexivity.
Defined.

(* ================================================================== *)
(** ** [generate_parser] on the store of objects *)

(** *** The frame of the statements *)

Lemma frames_ret {A} W (a : A) : frames W (mret a : St A).
Proof. by intros h l o. Qed.

Lemma frames_lift {A} W (r : result A) : frames W (lift r).
Proof. by intros h l o. Qed.

Lemma frames_bind {A B} W (m : St A) (f : A → St B) :
  frames W m → (∀ a, frames W (f a)) → frames W (m ≫= f).
Proof.
  intros Hm Hf h l o Hl Hh. unfold mbind, st_mbind, st_bind.
  pose proof (Hm h l o Hl Hh) as H1.
  destruct (m h) as [h1 [a|e|]]; simpl in *; [|done..].
  by apply Hf.
Qed.

Lemma frames_alloc W o : frames W (alloc o).
Proof.
  intros h l o' _ Hh. unfold alloc. simpl.
  rewrite lookup_insert_ne; [done|].
  intros <-. apply (is_fresh (dom h)). apply elem_of_dom. eauto.
Qed.

Lemma frames_dict_entries W d : frames W (dict_entries d).
Proof. intros h l o _ Hh. unfold dict_entries. by destruct (h !! d) as [[]|]. Qed.

Lemma frames_rules_items W d : frames W (rules_items d).
Proof. intros h l o _ Hh. unfold rules_items. by destruct (h !! d) as [[]|]. Qed.

Lemma frames_prod_symbols W d : frames W (prod_symbols d).
Proof. intros h l o _ Hh. unfold prod_symbols. by destruct (h !! d) as [[]|]. Qed.

Lemma frames_snapshot W d : frames W (snapshot d).
Proof. intros h l o _ Hh. unfold snapshot. by destruct (read_dict h d). Qed.

Lemma frames_dict_getitem W d k : frames W (dict_getitem d k).
Proof.
  apply frames_bind; [apply frames_dict_entries|]. intros es.
  destruct (e_lookup es k); [apply frames_ret|apply frames_lift].
Qed.

Lemma frames_dict_setitem d k v : frames {[d]} (dict_setitem d k v).
Proof.
  intros h l o Hl Hh. unfold dict_setitem.
  destruct (h !! d) as [[es| |]|]; simpl; try done.
  rewrite lookup_insert_ne; [done|]. set_solver.
Qed.

Lemma frames_st_map {A B} W (f : A → St B) (l : list A) :
  (∀ x, frames W (f x)) → frames W (st_map f l).
Proof.
  intros Hf. induction l as [|x l IH]; simpl; [apply frames_ret|].
  apply frames_bind; [done|]. intros y.
  apply frames_bind; [done|]. intros ys. apply frames_ret.
Qed.

Lemma frames_load_rules W l : frames W (load_rules l).
Proof.
  apply frames_bind; [apply frames_rules_items|]. intros items.
  apply frames_st_map. intros r.
  apply frames_bind; [apply frames_prod_symbols|]. intros s. apply frames_ret.
Qed.

Lemma frames_alloc_prods W ps : frames W (alloc_prods ps).
Proof. apply frames_st_map. intros s. apply frames_alloc. Qed.

Lemma frames_augment_prods W nt : ∀ items i, frames W (augment_prods nt i items).
Proof.
  induction items as [|p items IH]; intros i; simpl; [apply frames_ret|].
  apply frames_bind; [apply frames_prod_symbols|]. intros s.
  apply frames_bind; [apply frames_alloc|]. intros p'.
  apply frames_bind; [apply IH|]. intros rest. apply frames_ret.
Qed.

Lemma frames_augment_store W d : frames W (augment_store d).
Proof.
  apply frames_bind; [apply frames_dict_entries|]. intros es.
  apply frames_bind; [|intros es'; apply frames_alloc].
  apply frames_st_map. intros entry.
  apply frames_bind; [apply frames_rules_items|]. intros items.
  apply frames_bind; [apply frames_augment_prods|]. intros items'.
  apply frames_bind; [apply frames_alloc|]. intros l. apply frames_ret.
Qed.

Lemma frames_eliminate_left_calls w from_nt to_nt :
  frames {[w]} (eliminate_left_calls_store w from_nt to_nt).
Proof.
  apply frames_bind; [apply frames_dict_getitem|]. intros lf.
  apply frames_bind; [apply frames_load_rules|]. intros from_rules.
  apply frames_bind; [apply frames_dict_getitem|]. intros lt.
  apply frames_bind; [apply frames_load_rules|]. intros to_rules.
  apply frames_bind; [apply frames_alloc_prods|]. intros inlined.
  apply frames_bind; [apply frames_alloc|]. intros l.
  apply frames_dict_setitem.
Qed.

Lemma frames_eliminate_immediate w nt :
  frames {[w]} (eliminate_immediate_store w nt).
Proof.
  apply frames_bind; [apply frames_dict_getitem|]. intros lr.
  apply frames_bind; [apply frames_load_rules|]. intros rules.
  destruct (existsb _ rules); [|apply frames_ret].
  apply frames_bind; [apply frames_snapshot|]. intros g.
  apply frames_bind; [apply frames_lift|]. intros epilogue.
  apply frames_bind; [apply frames_alloc|]. intros empty.
  apply frames_bind; [apply frames_alloc_prods|]. intros tails.
  apply frames_bind; [apply frames_alloc|]. intros le.
  apply frames_bind; [apply frames_dict_setitem|]. intros _.
  apply frames_bind; [apply frames_alloc_prods|]. intros heads.
  apply frames_bind; [apply frames_alloc|]. intros ln.
  apply frames_dict_setitem.
Qed.

Lemma frames_left_calls_loop w iname earlier :
  frames {[w]} (left_calls_loop_store w iname earlier).
Proof.
  induction earlier as [|j earlier IH]; simpl; [apply frames_ret|].
  apply frames_bind; [apply frames_eliminate_left_calls|]. by intros _.
Qed.

Lemma frames_eliminate_loop w :
  ∀ todo earlier, frames {[w]} (eliminate_loop_store w earlier todo).
Proof.
  induction todo as [|iname todo IH]; intros earlier; simpl; [apply frames_ret|].
  apply frames_bind; [apply frames_left_calls_loop|]. intros _.
  apply frames_bind; [apply frames_eliminate_immediate|]. intros _. apply IH.
Qed.

Lemma frames_validate fuel w goal : frames {[w]} (validate_store fuel w goal).
Proof.
  apply frames_bind; [apply frames_snapshot|]. intros g.
  apply frames_bind; [apply frames_lift|]. intros _.
  apply frames_bind.
  { apply frames_bind; [apply frames_snapshot|]. intros g0.
    apply frames_bind; [apply frames_lift|]. intros ntnames.
    apply frames_eliminate_loop. }
  intros _. apply frames_bind; [apply frames_snapshot|]. intros g'.
  apply frames_bind; [apply frames_lift|]. intros _. apply frames_ret.
Qed.

(** The dictionary that the comprehension builds is a new object. *)
Lemma augment_store_fresh d h h1 w :
  augment_store d h = (h1, Ok w) → w ∉ dom h.
Proof.
  unfold augment_store, mbind, st_mbind, st_bind.
  pose proof (frames_dict_entries ∅ d h) as F1.
  destruct (dict_entries d h) as [h0 [es|e|]]; [|done..].
  pose proof (frames_st_map ∅ augment_entry es
                ltac:(intros entry;
                      apply frames_bind; [apply frames_rules_items|]; intros items;
                      apply frames_bind; [apply frames_augment_prods|]; intros items';
                      apply frames_bind; [apply frames_alloc|]; intros l;
                      apply frames_ret) h0) as F2.
  destruct (st_map augment_entry es h0) as [h2 [es'|e|]]; [|done..].
  unfold alloc. intros [= <- <-]. simpl in F1, F2.
  intros [o Ho]%elem_of_dom.
  apply (is_fresh (dom h2)). apply elem_of_dom. exists o.
  apply F2; [set_solver|]. apply F1; [set_solver|done].
Qed.

(** Reading a grammar looks only at the objects it is made of. *)
Lemma read_prod_mono (h h' : store) p s :
  (∀ l o, h !! l = Some o → h' !! l = Some o) →
  read_prod h p = Some s → read_prod h' p = Some s.
Proof.
  intros Hsub. unfold read_prod.
  destruct (h !! p) as [o|] eqn:Hp; [|done]. by rewrite (Hsub p o Hp).
Qed.

Lemma read_prods_mono (h h' : store) items v :
  (∀ l o, h !! l = Some o → h' !! l = Some o) →
  mapM (read_prod h) items = Some v → mapM (read_prod h') items = Some v.
Proof.
  intros Hsub. rewrite !mapM_Some. intros HF.
  eapply Forall2_impl; [exact HF|]. intros p s. by apply read_prod_mono.
Qed.

Lemma read_rules_mono (h h' : store) l v :
  (∀ l o, h !! l = Some o → h' !! l = Some o) →
  read_rules h l = Some v → read_rules h' l = Some v.
Proof.
  intros Hsub. unfold read_rules.
  destruct (h !! l) as [o|] eqn:Hl; [|done]. rewrite (Hsub l o Hl).
  destruct o; [done| |done]. by apply read_prods_mono.
Qed.

Lemma read_dict_mono (h h' : store) d g :
  (∀ l o, h !! l = Some o → h' !! l = Some o) →
  read_dict h d = Some g → read_dict h' d = Some g.
Proof.
  intros Hsub. unfold read_dict.
  destruct (h !! d) as [o|] eqn:Hd; [|done]. rewrite (Hsub d o Hd).
  destruct o; [|done..]. rewrite !mapM_Some. intros HF.
  eapply Forall2_impl; [exact HF|]. intros e e'. unfold read_entry.
  destruct (read_rules h e.2) as [v|] eqn:Hv; [|done].
  by rewrite (read_rules_mono h h' _ v Hsub Hv).
Qed.

Lemma generate_parser_store_frame fuel (h : store) out grammar_ref goal l o :
  h !! l = Some o →
  (generate_parser_store fuel h out grammar_ref goal).1.1 !! l = Some o.
Proof.
  intros Hl. unfold generate_parser_store.
  assert (((w ← augment_store grammar_ref; validate_store fuel w goal) h).1
            !! l = Some o) as Hrun.
  { unfold mbind, st_mbind, st_bind.
    pose proof (frames_augment_store ∅ grammar_ref h l o ltac:(set_solver) Hl)
      as F1.
    destruct (augment_store grammar_ref h) as [h1 [w|e|]] eqn:Ha; [|done..].
    apply frames_validate; [|done].
    apply augment_store_fresh in Ha. intros ->%elem_of_singleton.
    apply Ha, elem_of_dom. eauto. }
  destruct ((w ← augment_store grammar_ref; validate_store fuel w goal) h)
    as [h' [g'|e|]]; simpl in *; [|done..].
  by destruct (emit_nts fuel g' g' out) as [out' [[]|e|]].
Qed.

(** *** The statements on the store and the grammar they hold *)

Lemma st_bind_run {A B} (m : St A) (f : A → St B) h :
  (m ≫= f) h =
  match m h with
  | (h', Ok a) => f a h'
  | (h', Raise e) => (h', Raise e)
  | (h', OutOfFuel) => (h', OutOfFuel)
  end.
Proof. done. Qed.

Lemma st_ret_run {A} (a : A) h : (mret a : St A) h = (h, Ok a).
Proof. done. Qed.

Lemma prod_symbols_run (h : store) p s :
  read_prod h p = Some s → prod_symbols p h = (h, Ok s).
Proof.
  unfold read_prod, prod_symbols. destruct (h !! p) as [[| |s']|]; try done.
  by intros [= ->].
Qed.

Lemma load_rules_run (h : store) l v :
  read_rules h l = Some v →
  ∃ pairs, load_rules l h = (h, Ok pairs) ∧ pairs.*2 = v ∧
           Forall2 (λ p s, read_prod h p = Some s) pairs.*1 v.
Proof.
  unfold read_rules, load_rules. rewrite st_bind_run. unfold rules_items.
  destruct (h !! l) as [[| items |]|]; try done. clear l.
  revert v. induction items as [|p items IH]; intros v Hv.
  - injection Hv as <-. by exists [].
  - apply mapM_Some in Hv. inversion Hv as [|? s ? v' Hp Hrest]; subst.
    apply mapM_Some in Hrest. destruct (IH v' Hrest) as (pairs & Hrun & Hsnd & HF).
    exists ((p, s) :: pairs). cbn [st_map]. rewrite st_bind_run.
    rewrite st_bind_run, (prod_symbols_run h p s Hp).
    rewrite st_ret_run, st_bind_run, Hrun, st_ret_run.
    split; [done|]. split; [by rewrite fmap_cons, Hsnd|].
    rewrite fmap_cons. by constructor.
Qed.

Lemma alloc_run (h : store) o :
  alloc o h = (<[fresh (dom h) := o]> h, Ok (fresh (dom h))) ∧
  h !! fresh (dom h) = None.
Proof.
  split; [done|]. apply not_elem_of_dom. apply is_fresh.
Qed.

Lemma insert_fresh_mono (h : store) o :
  ∀ l o', h !! l = Some o' → <[fresh (dom h) := o]> h !! l = Some o'.
Proof.
  intros l o' Hl. rewrite lookup_insert_ne; [done|]. intros <-.
  apply (is_fresh (dom h)), elem_of_dom. eauto.
Qed.

Lemma alloc_prods_run :
  ∀ ps (h : store),
    ∃ h' locs, alloc_prods ps h = (h', Ok locs) ∧
               (∀ l o, h !! l = Some o → h' !! l = Some o) ∧
               Forall2 (λ p s, read_prod h' p = Some s) locs ps.
Proof.
  unfold alloc_prods. induction ps as [|s ps IH]; intros h.
  - exists h, []. by repeat split.
  - cbn [st_map]. rewrite st_bind_run. destruct (alloc_run h (OProd s)) as [-> _].
    destruct (IH (<[fresh (dom h) := OProd s]> h)) as (h' & locs & Hrun & Hsub & HF).
    rewrite st_bind_run, Hrun, st_ret_run.
    exists h', (fresh (dom h) :: locs). split; [done|]. split.
    + intros l o Hl. by apply Hsub, insert_fresh_mono.
    + constructor; [|done]. unfold read_prod.
      by rewrite (Hsub (fresh (dom h)) (OProd s)) by apply lookup_insert_eq.
Qed.

Lemma read_prods_Forall2 (h : store) items v :
  mapM (read_prod h) items = Some v ↔
  Forall2 (λ p s, read_prod h p = Some s) items v.
Proof. apply mapM_Some. Qed.

Lemma Forall2_read_mono (h h' : store) items v :
  (∀ l o, h !! l = Some o → h' !! l = Some o) →
  Forall2 (λ p s, read_prod h p = Some s) items v →
  Forall2 (λ p s, read_prod h' p = Some s) items v.
Proof.
  intros Hsub HF. eapply Forall2_impl; [exact HF|].
  intros p s. by apply read_prod_mono.
Qed.

(** A new list of productions. *)
Lemma alloc_rules_run (h : store) items v :
  Forall2 (λ p s, read_prod h p = Some s) items v →
  read_rules (<[fresh (dom h) := ORules items]> h) (fresh (dom h)) = Some v.
Proof.
  intros HF. unfold read_rules. rewrite lookup_insert_eq.
  apply read_prods_Forall2. eapply Forall2_read_mono; [|exact HF].
  apply insert_fresh_mono.
Qed.

(** Storing into the dictionary changes no list. *)
Lemma read_rules_setitem (h : store) w es es' l v :
  h !! w = Some (ODict es) →
  read_rules h l = Some v →
  read_rules (<[w := ODict es']> h) l = Some v.
Proof.
  intros Hw. unfold read_rules.
  destruct (h !! l) as [[| items |]|] eqn:Hl; try done.
  rewrite lookup_insert_ne by congruence.
  rewrite Hl, !read_prods_Forall2. intros HF.
  eapply Forall2_impl; [exact HF|]. intros p s. unfold read_prod.
  destruct (h !! p) as [[| |s']|] eqn:Hp; try done.
  rewrite lookup_insert_ne by congruence. by rewrite Hp.
Qed.

Lemma read_entry_Some (h : store) e e' :
  read_entry h e = Some e' ↔ e'.1 = e.1 ∧ read_rules h e.2 = Some e'.2.
Proof.
  unfold read_entry. destruct (read_rules h e.2) as [v|]; split.
  - intros [= <-]. done.
  - intros [H1 [= H2]]. destruct e'. simpl in *. by subst.
  - done.
  - by intros [_ ?].
Qed.

Lemma entries_lookup (h : store) es (g : grammar) k :
  Forall2 (λ e e', read_entry h e = Some e') es g →
  match e_lookup es k with
  | Some l => ∃ v, read_rules h l = Some v ∧ g_lookup g k = Some v
  | None => g_lookup g k = None
  end.
Proof.
  induction 1 as [|[k1 l1] [k2 v2] es g He _ IH]; simpl; [done|].
  apply read_entry_Some in He as [Hk Hv]. simpl in *. subst k2.
  destruct (decide (k1 = k)); [|done]. by exists v2.
Qed.

Lemma entries_set (h : store) es (g : grammar) k l v :
  Forall2 (λ e e', read_entry h e = Some e') es g →
  read_rules h l = Some v →
  Forall2 (λ e e', read_entry h e = Some e') (e_set es k l) (g_set g k v).
Proof.
  intros HF Hl. induction HF as [|[k1 l1] [k2 v2] es g He HF IH]; simpl.
  - constructor; [|done]. apply read_entry_Some. done.
  - pose proof He as He'. apply read_entry_Some in He as [Hk Hv].
    simpl in *. subst k2.
    destruct (decide (k1 = k)).
    + constructor; [|done]. by apply read_entry_Some.
    + by constructor.
Qed.

Lemma read_dict_unfold (h : store) w g :
  read_dict h w = Some g ↔
  ∃ es, h !! w = Some (ODict es) ∧
        Forall2 (λ e e', read_entry h e = Some e') es g.
Proof.
  unfold read_dict. destruct (h !! w) as [[es| |]|]; split;
    try done; try (by intros (? & ? & _)).
  - intros Hm. exists es. split; [done|]. by apply mapM_Some.
  - intros (es' & [= <-] & HF). by apply mapM_Some.
Qed.

Lemma dict_getitem_run (h : store) w g k :
  read_dict h w = Some g →
  match g_lookup g k with
  | Some v => ∃ l, dict_getitem w k h = (h, Ok l) ∧ read_rules h l = Some v
  | None => dict_getitem w k h = (h, Raise (KeyError k))
  end.
Proof.
  intros (es & Hw & HF)%read_dict_unfold.
  unfold dict_getitem. rewrite st_bind_run. unfold dict_entries. rewrite Hw.
  pose proof (entries_lookup h es g k HF) as Hk.
  destruct (e_lookup es k) as [l|].
  - destruct Hk as (v & Hv & ->). by exists l.
  - by rewrite Hk.
Qed.

(** [grammar[k] = l] where [l] is a list that reads as [v]. *)
Lemma dict_setitem_run (h : store) w g k l v :
  read_dict h w = Some g → read_rules h l = Some v →
  ∃ h', dict_setitem w k l h = (h', Ok tt) ∧
        read_dict h' w = Some (g_set g k v) ∧
        (∀ l' v', read_rules h l' = Some v' → read_rules h' l' = Some v').
Proof.
  intros (es & Hw & HF)%read_dict_unfold Hl.
  unfold dict_setitem. rewrite Hw. eexists. split; [done|]. split.
  - apply read_dict_unfold. exists (e_set es k l).
    split; [by rewrite lookup_insert_eq|].
    apply entries_set; [|by apply (read_rules_setitem h w es)].
    eapply Forall2_impl; [exact HF|]. intros e e'.
    rewrite !read_entry_Some. intros [? ?]. split; [done|].
    by apply (read_rules_setitem h w es).
  - intros l' v'. by apply (read_rules_setitem h w es).
Qed.

Lemma filter_pairs {A B} (P : B → bool) (pairs : list (A * B)) :
  (List.filter (λ r : A * B, P r.2) pairs).*2 = List.filter P pairs.*2.
Proof.
  induction pairs as [|[a b] pairs IH]; simpl; [done|].
  destruct (P b); simpl; [f_equal|]; apply IH.
Qed.

Lemma map_pairs {A B C} (f : B → C) (pairs : list (A * B)) :
  map (λ r : A * B, f r.2) pairs = map f pairs.*2.
Proof.
  induction pairs as [|[a b] pairs IH]; simpl; [done|]. f_equal. apply IH.
Qed.

Lemma flat_map_pairs {A B C} (f : B → list C) (pairs : list (A * B)) :
  flat_map (λ r : A * B, f r.2) pairs = flat_map f pairs.*2.
Proof.
  induction pairs as [|[a b] pairs IH]; simpl; [done|]. f_equal. apply IH.
Qed.

Lemma existsb_pairs {A B} (P : B → bool) (pairs : list (A * B)) :
  existsb (λ r : A * B, P r.2) pairs = existsb P pairs.*2.
Proof.
  induction pairs as [|[a b] pairs IH]; simpl; [done|]. f_equal. apply IH.
Qed.

Lemma Forall2_filter_pairs {A B} (R : A → B → Prop) (P : B → bool)
    (pairs : list (A * B)) :
  Forall2 R pairs.*1 pairs.*2 →
  Forall2 R (List.filter (λ r : A * B, P r.2) pairs).*1
            (List.filter P pairs.*2).
Proof.
  induction pairs as [|[a b] pairs IH]; simpl; [done|].
  intros HF. inversion HF; subst. destruct (P b); simpl; [constructor|]; auto.
Qed.

Lemma inlined_pairs {A} to_nt (fpairs tpairs : list (A * production)) :
  flat_map (λ c : A * production,
              map (λ a : A * production, c.2 ++ tail a.2)
                  (List.filter (λ a : A * production, starts_with to_nt a.2)
                               fpairs)) tpairs =
  flat_map (λ c, map (λ a, c ++ tail a)
                     (List.filter (starts_with to_nt) fpairs.*2)) tpairs.*2.
Proof.
  induction tpairs as [|[l c] tpairs IH]; simpl; [done|]. f_equal; [|apply IH].
  rewrite <- filter_pairs. apply (map_pairs (λ a, c ++ tail a)).
Qed.

Lemma simulates_eliminate_left_calls w from_nt to_nt :
  simulates w (eliminate_left_calls_store w from_nt to_nt)
    (λ g, and_then g (eliminate_left_calls g from_nt to_nt) (λ g', (g', Ok tt))).
Proof.
  intros h g Hg. unfold eliminate_left_calls_store, eliminate_left_calls, g_get.
  rewrite st_bind_run.
  pose proof (dict_getitem_run h w g from_nt Hg) as Hfrom.
  destruct (g_lookup g from_nt) as [fv|]; [|by rewrite Hfrom].
  destruct Hfrom as (lf & -> & Hlf).
  destruct (load_rules_run h lf fv Hlf) as (fpairs & Hload & Hfsnd & HfF).
  rewrite st_bind_run, Hload, st_bind_run.
  pose proof (dict_getitem_run h w g to_nt Hg) as Hto.
  destruct (g_lookup g to_nt) as [tv|]; [|by rewrite Hto].
  destruct Hto as (lt & -> & Hlt).
  destruct (load_rules_run h lt tv Hlt) as (tpairs & Hload' & Htsnd & HtF).
  rewrite st_bind_run, Hload', st_bind_run.
  match goal with
  | |- context [alloc_prods ?ps h] =>
      destruct (alloc_prods_run ps h) as (h1 & inl & -> & Hsub1 & HF1);
      assert (ps = flat_map (λ c, map (λ a, c ++ tail a)
                                      (List.filter (starts_with to_nt) fv)) tv)
        as Hps
  end.
  { rewrite <- Htsnd, <- Hfsnd. apply inlined_pairs. }
  rewrite Hps in HF1. clear Hps.
  rewrite st_bind_run. destruct (alloc_run h1 (ORules
    ((List.filter (λ r : loc * production, negb (starts_with to_nt r.2))
        fpairs).*1 ++ inl))) as [-> _].
  set (h2 := <[fresh (dom h1) := _]> h1).
  assert (Hsub2 : ∀ l o, h !! l = Some o → h2 !! l = Some o).
  { intros l o Hl. by apply insert_fresh_mono, Hsub1. }
  assert (Hnew : read_rules h2 (fresh (dom h1)) =
                 Some (List.filter (λ r, negb (starts_with to_nt r)) fv ++
                       flat_map (λ c, map (λ a, c ++ tail a)
                                   (List.filter (starts_with to_nt) fv)) tv)).
  { apply alloc_rules_run. apply Forall2_app; [|done].
    rewrite <- Hfsnd.
    apply (Forall2_filter_pairs _ (λ r, negb (starts_with to_nt r))).
    rewrite Hfsnd. by eapply Forall2_read_mono. }
  destruct (dict_setitem_run h2 w g from_nt _ _
              (read_dict_mono h h2 w g Hsub2 Hg) Hnew) as (h3 & -> & Hg3 & _).
  simpl. done.
Qed.

Lemma snapshot_run (h : store) w g :
  read_dict h w = Some g → snapshot w h = (h, Ok g).
Proof. unfold snapshot. by intros ->. Qed.

Lemma alloc_prods_pairs_run {A} (f : production → production)
    (P : production → bool) (pairs : list (A * production)) (h : store) :
  ∃ h' locs,
    alloc_prods (map (λ r : A * production, f r.2)
                     (List.filter (λ r : A * production, P r.2) pairs)) h
      = (h', Ok locs) ∧
    (∀ l o, h !! l = Some o → h' !! l = Some o) ∧
    Forall2 (λ p s, read_prod h' p = Some s) locs
            (map f (List.filter P pairs.*2)).
Proof.
  rewrite <- filter_pairs, <- (map_pairs f). apply alloc_prods_run.
Qed.

Lemma simulates_eliminate_immediate w nt :
  simulates w (eliminate_immediate_store w nt)
    (λ g, and_then g (eliminate_immediate_left_recursion g nt)
                   (λ g', (g', Ok tt))).
Proof.
  intros h g Hg.
  unfold eliminate_immediate_store, eliminate_immediate_left_recursion, g_get.
  rewrite st_bind_run.
  pose proof (dict_getitem_run h w g nt Hg) as Hnt.
  destruct (g_lookup g nt) as [rv|]; [|by rewrite Hnt].
  destruct Hnt as (lr & -> & Hlr).
  destruct (load_rules_run h lr rv Hlr) as (pairs & Hload & Hsnd & HF).
  rewrite st_bind_run, Hload. rewrite existsb_pairs, Hsnd. simpl.
  destruct (existsb (starts_with nt) rv); [|done].
  rewrite st_bind_run, (snapshot_run h w g Hg), st_bind_run. unfold lift.
  destruct (gensym g nt) as [epilogue| |]; simpl; [|done..].
  rewrite st_bind_run. destruct (alloc_run h (OProd [])) as [-> _].
  set (h1 := <[fresh (dom h) := OProd []]> h).
  assert (Hsub1 : ∀ l o, h !! l = Some o → h1 !! l = Some o)
    by apply insert_fresh_mono.
  rewrite st_bind_run.
  destruct (alloc_prods_pairs_run (λ r, tail r ++ [Str epilogue])
              (starts_with nt) pairs h1) as (h2 & tails & -> & Hsub2 & HF2).
  rewrite Hsnd in HF2.
  rewrite st_bind_run. destruct (alloc_run h2 (ORules (fresh (dom h) :: tails)))
    as [-> _].
  set (h3 := <[fresh (dom h2) := _]> h2).
  assert (Hsub3 : ∀ l o, h !! l = Some o → h3 !! l = Some o).
  { intros l o Hl. by apply insert_fresh_mono, Hsub2, Hsub1. }
  assert (Hle : read_rules h3 (fresh (dom h2)) =
                Some ([] :: map (λ r, tail r ++ [Str epilogue])
                                (List.filter (starts_with nt) rv))).
  { apply alloc_rules_run. constructor; [|done]. unfold read_prod.
    rewrite (Hsub2 (fresh (dom h)) (OProd [])); [done|].
    apply lookup_insert_eq. }
  rewrite st_bind_run.
  destruct (dict_setitem_run h3 w g epilogue _ _
              (read_dict_mono h h3 w g Hsub3 Hg) Hle) as (h4 & -> & Hg4 & _).
  rewrite st_bind_run.
  destruct (alloc_prods_pairs_run (λ r, r ++ [Str epilogue])
              (λ r, negb (starts_with nt r)) pairs h4)
    as (h5 & heads & -> & Hsub5 & HF5).
  rewrite Hsnd in HF5.
  rewrite st_bind_run. destruct (alloc_run h5 (ORules heads)) as [-> _].
  set (h6 := <[fresh (dom h5) := _]> h5).
  assert (Hsub6 : ∀ l o, h4 !! l = Some o → h6 !! l = Some o).
  { intros l o Hl. by apply insert_fresh_mono, Hsub5. }
  pose proof (alloc_rules_run h5 heads _ HF5) as Hln.
  destruct (dict_setitem_run h6 w _ nt _ _
              (read_dict_mono h4 h6 w _ Hsub6 Hg4) Hln) as (h7 & -> & Hg7 & _).
  simpl. done.
Qed.

Lemma simulates_left_calls_loop w iname earlier :
  simulates w (left_calls_loop_store w iname earlier)
    (λ g, left_calls_loop g iname earlier).
Proof.
  induction earlier as [|j earlier IH]; intros h g Hg; [done|].
  cbn [left_calls_loop_store left_calls_loop]. rewrite st_bind_run.
  destruct (simulates_eliminate_left_calls w iname j h g Hg) as [Hr Hd].
  destruct (eliminate_left_calls_store w iname j h) as [h1 r1].
  simpl in Hr, Hd.
  destruct (eliminate_left_calls g iname j) as [g1| |]; simpl in *; subst r1;
    [|done..].
  by apply IH.
Qed.

Lemma simulates_eliminate_loop w :
  ∀ todo earlier,
    simulates w (eliminate_loop_store w earlier todo)
      (λ g, eliminate_loop g earlier todo).
Proof.
  induction todo as [|iname todo IH]; intros earlier h g Hg; [done|].
  cbn [eliminate_loop_store eliminate_loop]. rewrite st_bind_run.
  destruct (simulates_left_calls_loop w iname earlier h g Hg) as [Hr Hd].
  destruct (left_calls_loop_store w iname earlier h) as [h1 r1].
  destruct (left_calls_loop g iname earlier) as [g1 r1'].
  simpl in Hr, Hd. subst r1'. destruct r1 as [[]| |]; [|done..].
  rewrite st_bind_run.
  destruct (simulates_eliminate_immediate w iname h1 g1 Hd) as [Hr2 Hd2].
  destruct (eliminate_immediate_store w iname h1) as [h2 r2].
  simpl in Hr2, Hd2.
  destruct (eliminate_immediate_left_recursion g1 iname) as [g2| |];
    simpl in *; subst r2; [|done..].
  by apply IH.
Qed.

Lemma simulates_eliminate_left_recursion w :
  simulates w (eliminate_left_recursion_store w) eliminate_left_recursion.
Proof.
  intros h g Hg. unfold eliminate_left_recursion_store, eliminate_left_recursion.
  rewrite st_bind_run, (snapshot_run h w g Hg), st_bind_run. unfold lift.
  destruct (quasisort_nts g) as [ntnames| |]; [|done..].
  by apply simulates_eliminate_loop.
Qed.

(** *** The comprehension *)

Lemma augment_prods_run nt :
  ∀ items v i (h : store),
    Forall2 (λ p s, read_prod h p = Some s) items v →
    ∃ h' items',
      augment_prods nt i items h = (h', Ok items') ∧
      (∀ l o, h !! l = Some o → h' !! l = Some o) ∧
      Forall2 (λ p s, read_prod h' p = Some s) items'
              (imap (λ j prod, prod ++ [Reduction nt (i + j) (length prod)]) v).
Proof.
  induction items as [|p items IH]; intros v i h HF.
  - inversion HF; subst. exists h, []. by repeat split.
  - inversion HF as [|? s ? v' Hp Hrest]; subst.
    cbn [augment_prods]. rewrite st_bind_run, (prod_symbols_run h p s Hp).
    rewrite st_bind_run. destruct (alloc_run h
      (OProd (s ++ [Reduction nt i (length s)]))) as [-> _].
    set (h1 := <[fresh (dom h) := _]> h).
    assert (Hsub1 : ∀ l o, h !! l = Some o → h1 !! l = Some o)
      by apply insert_fresh_mono.
    destruct (IH v' (S i) h1 (Forall2_read_mono h h1 _ _ Hsub1 Hrest))
      as (h' & items' & Hrun & Hsub & HF').
    rewrite st_bind_run, Hrun, st_ret_run.
    exists h', (fresh (dom h) :: items'). split; [done|]. split; [by eauto|].
    rewrite imap_cons. constructor.
    + unfold read_prod.
      rewrite (Hsub (fresh (dom h)) (OProd (s ++ [Reduction nt i (length s)])))
        by apply lookup_insert_eq.
      by rewrite Nat.add_0_r.
    + erewrite imap_ext; [exact HF'|]. intros j x _. simpl.
      by rewrite Nat.add_succ_r.
Qed.

Lemma augment_entries_run :
  ∀ es (ug : grammar) (h : store),
    Forall2 (λ e e', read_entry h e = Some e') es ug →
    ∃ h' es',
      st_map augment_entry es h = (h', Ok es') ∧
      (∀ l o, h !! l = Some o → h' !! l = Some o) ∧
      Forall2 (λ e e', read_entry h' e = Some e') es' (augment ug).
Proof.
  induction es as [|[k l] es IH]; intros ug h HF.
  - inversion HF; subst. exists h, []. by repeat split.
  - inversion HF as [|? [k' v] ? ug' He Hrest]; subst.
    apply read_entry_Some in He as [Hk Hv]. simpl in Hk, Hv. subst k'.
    cbn [st_map]. rewrite st_bind_run. unfold augment_entry at 1.
    rewrite st_bind_run. simpl.
    unfold read_rules in Hv. unfold rules_items at 1.
    destruct (h !! l) as [[| items |]|] eqn:Hl; try done.
    apply read_prods_Forall2 in Hv.
    destruct (augment_prods_run k items v 0 h Hv) as (h1 & items' & Hrun & Hsub1 & HF1).
    rewrite st_bind_run, Hrun, st_bind_run.
    destruct (alloc_run h1 (ORules items')) as [-> _].
    set (h2 := <[fresh (dom h1) := _]> h1).
    assert (Hsub2 : ∀ l o, h !! l = Some o → h2 !! l = Some o).
    { intros l' o Hl'. by apply insert_fresh_mono, Hsub1. }
    pose proof (alloc_rules_run h1 items' _ HF1) as Hnew. fold h2 in Hnew.
    rewrite st_ret_run.
    assert (Hrest2 : Forall2 (λ e e', read_entry h2 e = Some e') es ug').
    { eapply Forall2_impl; [exact Hrest|]. intros e e'.
      rewrite !read_entry_Some. intros [? ?]. split; [done|].
      by eapply read_rules_mono. }
    destruct (IH ug' h2 Hrest2) as (h' & es' & Hrun' & Hsub' & HF').
    rewrite st_bind_run, Hrun', st_ret_run.
    exists h', ((k, fresh (dom h1)) :: es'). split; [done|].
    split; [by eauto|]. simpl. constructor; [|done].
    apply read_entry_Some. split; [done|]. simpl.
    by eapply read_rules_mono.
Qed.

Lemma augment_store_run (h : store) d (ug : grammar) :
  read_dict h d = Some ug →
  ∃ h1 w, augment_store d h = (h1, Ok w) ∧
          (∀ l o, h !! l = Some o → h1 !! l = Some o) ∧
          read_dict h1 w = Some (augment ug).
Proof.
  intros (es & Hd & HF)%read_dict_unfold.
  unfold augment_store. rewrite st_bind_run. unfold dict_entries. rewrite Hd.
  destruct (augment_entries_run es ug h HF) as (h' & es' & Hrun & Hsub & HF').
  rewrite st_bind_run, Hrun. destruct (alloc_run h' (ODict es')) as [-> _].
  eexists _, _. split; [done|]. split.
  - intros l o Hl. by apply insert_fresh_mono, Hsub.
  - apply read_dict_unfold. exists es'. split; [apply lookup_insert_eq|].
    eapply Forall2_impl; [exact HF'|]. intros e e'.
    rewrite !read_entry_Some. intros [? ?]. split; [done|].
    eapply read_rules_mono; [|done]. apply insert_fresh_mono.
Qed.

(** On a store in which [grammar_ref] holds the grammar [ug],
    [generate_parser] on the store writes what [generate_parser] on
    values writes, with the same outcome, and the dictionary it worked on
    is a new object that holds the final grammar of [pipeline]. *)
Lemma generate_parser_store_agrees fuel (h : store) out grammar_ref goal
    (ug : grammar) :
  read_dict h grammar_ref = Some ug →
  (generate_parser_store fuel h out grammar_ref goal).1.2 =
    (pipeline fuel (augment ug) out goal).1.2 ∧
  (generate_parser_store fuel h out grammar_ref goal).2 =
    (pipeline fuel (augment ug) out goal).2 ∧
  ∃ w, (w ∉ dom h) ∧
       read_dict (generate_parser_store fuel h out grammar_ref goal).1.1 w =
         Some (pipeline fuel (augment ug) out goal).1.1.
Proof.
  intros Hug. unfold generate_parser_store, pipeline.
  destruct (augment_store_run h grammar_ref ug Hug) as (h1 & w & Ha & Hsub & Hw).
  pose proof (augment_store_fresh _ _ _ _ Ha) as Hfresh.
  rewrite st_bind_run, Ha. unfold validate_store.
  rewrite st_bind_run, (snapshot_run h1 w _ Hw), st_bind_run. unfold lift.
  destruct (check (augment ug)) as [[]| |]; simpl; [|by eauto..].
  rewrite st_bind_run.
  destruct (simulates_eliminate_left_recursion w h1 _ Hw) as [Hr Hd].
  destruct (eliminate_left_recursion_store w h1) as [h2 r2].
  destruct (eliminate_left_recursion (augment ug)) as [g2 r2'].
  simpl in Hr, Hd. subst r2'. destruct r2 as [[]| |]; simpl; [|by eauto..].
  rewrite st_bind_run, (snapshot_run h2 w _ Hd), st_bind_run.
  destruct (check_ambiguity fuel g2 goal) as [[]| |]; simpl; [|by eauto..].
  destruct (emit_nts fuel g2 g2 out) as [out' [[]| |]]; simpl; by eauto.
Qed.

(** C7: whatever the outcome, [generate_parser] changes no object that
    exists when it is called: the caller's dictionary, its lists of
    productions and its productions are as they were, so the grammar
    reads as before, keys, productions and symbols. *)
Theorem generate_parser_frame fuel (h : store) out grammar_ref goal :
  (∀ l o, h !! l = Some o →
     (generate_parser_store fuel h out grammar_ref goal).1.1 !! l = Some o) ∧
  (∀ g, read_dict h grammar_ref = Some g →
     read_dict (generate_parser_store fuel h out grammar_ref goal).1.1
       grammar_ref = Some g).
Proof.
  split.
  - intros l o. apply generate_parser_store_frame.
  - intros g. apply read_dict_mono. intros l o.
    apply generate_parser_store_frame.
Qed.

Lemma generate_parser_frame_witness :
  ∃ h grammar_ref,
    put_grammar expr_grammar ∅ = (h, Ok grammar_ref) ∧
    read_dict h grammar_ref = Some expr_grammar ∧
    (generate_parser_store 8 h [] grammar_ref "expr").2 = Ok tt ∧
    read_dict (generate_parser_store 8 h [] grammar_ref "expr").1.1
      grammar_ref = Some expr_grammar.
Proof.
  eexists _, _. split; [vm_compute; reflexivity|].
  split; [vm_compute; reflexivity|].
  split; [vm_compute; reflexivity|].
  apply (proj2 (generate_parser_frame 8 _ [] _ "expr")).
  vm_compute. reflexivity.
Defined.
